(** * uAES: a shallow embedding of the mode driver (uaes.c) and its proofs

    The driver of the repository (uaes.c) is embedded over a flat,
    byte-addressed store.  Caller buffers are regions of that store
    named by their first address, so that the in-place block walk, the
    chaining through the buffer itself, and the frame of each call are
    those of the C code.  The block primitives and the key schedule
    (ops.h) are an interface of the driver; the driver is written once
    over that interface, and an instance of it is given afterwards.

    Sizes, counters and addresses are integers: the guards of the entry
    points keep every size within 1..64 before it is used, so the
    unsigned arithmetic of C never wraps on a served call.  The
    [uAES_TRACE_BLOCK] hooks print and change no state; they are left
    out.  Each loop is a function on fuel that tests the condition of
    the C loop at every turn; the caller hands it the block count, or
    the round count, which the proofs show to be enough for the loop to
    reach its exit. *)

From Stdlib Require Import ZArith List Lia Bool Btauto.
Import ListNotations.
Open Scope Z_scope.

(** ** The store *)

(** A store maps an address to the byte held there; [uint8_t *] is an
    address and [NULL] is address 0.  Every address can be read and
    written: a call whose buffers are too short has no meaning in C and
    is not told apart here. *)
Definition mem : Type := Z -> Z.
Definition ptr : Type := Z.
Definition NULL : ptr := 0.

(** [p[0] = v] *)
Definition upd (m : mem) (a : ptr) (v : Z) : mem :=
  fun x => if x =? a then v else m x.

(** [memcpy(block, buf, n)]: the [n] bytes at [buf], as a local array. *)
Definition memcpy_from (m : mem) (buf : ptr) (n : nat) : list Z :=
  map (fun i => m (buf + Z.of_nat i)) (seq 0 n).

(** [memcpy(buf, block, n)]: the first [n] bytes of the local array
    [block] written at [buf], lowest address first. *)
Fixpoint memcpy_to (m : mem) (buf : ptr) (n : nat) (block : list Z) : mem :=
  match n with
  | O => m
  | S n' => memcpy_to (upd m buf (hd 0 block)) (buf + 1) n' (tl block)
  end.

(** ** uaes.h *)

Definition uAES_MAX_INPUT_SIZE : Z := 64.
Definition uAES_MAX_KEY_SIZE : Z := 32.
Definition uAES_BLOCK_SIZE : Z := 16.

Definition uAES128 : Z := 0.
Definition uAES192 : Z := 1.
Definition uAES256 : Z := 2.
Definition uAESRGE : Z := 3.

(** ** uaes.c, constants *)

Definition uAES128_KSCHD_SIZE : Z := 44.
Definition uAES192_KSCHD_SIZE : Z := 52.
Definition uAES256_KSCHD_SIZE : Z := 60.
Definition uAES_MAX_KSCHD_SIZE : Z := 60.

(** Modelled from the spec: the macro [uAES_BLOCK_ALIGN] of ops.h, which
    uaes.c uses and which is not among the sources; blocks are aligned
    on sixteen bytes (section 4.4). *)
Definition uAES_BLOCK_ALIGN : Z := 16.

(** Modelled from the spec: the macro [uAES_BLOCK_ALIGN_MASK] of ops.h,
    not among the sources; it selects the bits of a size that make it
    not a multiple of sixteen. *)
Definition uAES_BLOCK_ALIGN_MASK : Z := 15.

(** Modelled from the spec: the macro [uAES_ALIGN] of ops.h, not among
    the sources; the driver "rounds buffer_size up to the next multiple
    of 16" (section 4.4). *)
Definition uAES_ALIGN (x a : Z) : Z := ((x + (a - 1)) / a) * a.

(** [uint32_t kschd[n] = {0}] *)
Definition kschd_init (n : Z) : list Z := repeat 0 (Z.to_nat n).

(** ** ops.h: the interface the driver is written against.

    Every primitive works on the local 16-byte array [block] (and the
    local schedule [kschd]) it is handed; [key_expansion] reads the key
    through its pointer. *)
Class Ops : Type := {
  key_expansion : mem -> ptr -> list Z -> Z -> Z -> list Z;
  add_round_key : list Z -> list Z -> Z -> Z -> list Z;
  sub_block : list Z -> Z -> list Z;
  shift_rows : list Z -> Z -> list Z;
  mix_columns : list Z -> Z -> list Z;
  inv_sub_block : list Z -> Z -> list Z;
  inv_shift_rows : list Z -> Z -> list Z;
  inv_mix_columns : list Z -> Z -> list Z
}.

(** ** uaes.c, the driver *)

Section Driver.
Context {ops : Ops}.

(** [blk[i] ^= iv[i]] *)
Definition xor_at (m : mem) (blk iv : ptr) (i : Z) : mem :=
  upd m (blk + i) (Z.lxor (m (blk + i)) (m (iv + i))).

(** Body of the loop of [uaes_xor_iv], for column [c]. *)
Definition xor_iv_col (m : mem) (blk iv : ptr) (c : Z) : mem :=
  let m := xor_at m blk iv (4 * c + 0) in
  let m := xor_at m blk iv (4 * c + 1) in
  let m := xor_at m blk iv (4 * c + 2) in
  xor_at m blk iv (4 * c + 3).

(** [uaes_xor_iv]: [for (c = 0; c < 4; c++)]. *)
Definition uaes_xor_iv (m : mem) (blk iv : ptr) : mem :=
  fold_left (fun m c => xor_iv_col m blk iv c) [0; 1; 2; 3] m.

(** The loop [for (round = 1; round < Nr; round++)] of
    [uaes_foward_cipher], entered at [round]. *)
Fixpoint foward_rounds (fuel : nat) (block kschd : list Z) (round Nb Nr : Z)
  : list Z :=
  match fuel with
  | O => block
  | S fuel' =>
      if round <? Nr then
        let block := sub_block block Nb in
        let block := shift_rows block Nb in
        let block := mix_columns block Nb in
        let block := add_round_key block kschd round Nb in
        foward_rounds fuel' block kschd (round + 1) Nb Nr
      else block
  end.

(** What [uaes_foward_cipher] does to its local array [block], between
    the two [memcpy]. *)
Definition foward_block (block kschd : list Z) (Nb Nr : Z) : list Z :=
  let block := add_round_key block kschd 0 Nb in
  let block := foward_rounds (Z.to_nat Nr) block kschd 1 Nb Nr in
  let block := sub_block block Nb in
  let block := shift_rows block Nb in
  add_round_key block kschd Nr Nb.

Definition uaes_foward_cipher (m : mem) (buf : ptr) (kschd : list Z)
    (Nk Nb Nr : Z) : mem :=
  let block := memcpy_from m buf (Z.to_nat uAES_BLOCK_SIZE) in
  let block := foward_block block kschd Nb Nr in
  memcpy_to m buf (Z.to_nat uAES_BLOCK_SIZE) block.

(** The loop [for (round = Nr - 1; round > 0; round--)] of
    [uaes_inverse_cipher], entered at [round]. *)
Fixpoint inverse_rounds (fuel : nat) (block kschd : list Z) (round Nb : Z)
  : list Z :=
  match fuel with
  | O => block
  | S fuel' =>
      if round >? 0 then
        let block := inv_shift_rows block Nb in
        let block := inv_sub_block block Nb in
        let block := add_round_key block kschd round Nb in
        let block := inv_mix_columns block Nb in
        inverse_rounds fuel' block kschd (round - 1) Nb
      else block
  end.

(** What [uaes_inverse_cipher] does to its local array [block], between
    the two [memcpy]. *)
Definition inverse_block (block kschd : list Z) (Nb Nr : Z) : list Z :=
  let block := add_round_key block kschd Nr Nb in
  let block := inverse_rounds (Z.to_nat Nr) block kschd (Nr - 1) Nb in
  let block := inv_shift_rows block Nb in
  let block := inv_sub_block block Nb in
  add_round_key block kschd 0 Nb.

Definition uaes_inverse_cipher (m : mem) (buf : ptr) (kschd : list Z)
    (Nk Nb Nr : Z) : mem :=
  let block := memcpy_from m buf (Z.to_nat uAES_BLOCK_SIZE) in
  let block := inverse_block block kschd Nb Nr in
  memcpy_to m buf (Z.to_nat uAES_BLOCK_SIZE) block.

(** The block count [offset] every multi-block entry point computes
    first: the size, aligned when [size & uAES_BLOCK_ALIGN_MASK] is not
    0, shifted right by 4. *)
Definition block_count (size : Z) : Z :=
  let offset := size in
  let offset :=
    if negb (0 =? Z.land size uAES_BLOCK_ALIGN_MASK)
    then uAES_ALIGN size uAES_BLOCK_ALIGN
    else offset in
  Z.shiftr offset 4.

(** [Nk] and [Nr], as each multi-block entry point derives them from
    the variant tag. *)
Definition Nk_of (aes_mode : Z) : Z :=
  if uAES128 =? aes_mode then 4
  else if uAES192 =? aes_mode then 6
  else if uAES256 =? aes_mode then 8
  else 0.

Definition Nr_of (aes_mode : Z) : Z :=
  if uAES128 =? aes_mode then 10
  else if uAES192 =? aes_mode then 12
  else if uAES256 =? aes_mode then 14
  else 0.

(** The guard of the multi-block entry points, without the IV test. *)
Definition args_ok (buf : ptr) (size : Z) (key : ptr) (aes_mode : Z) : bool :=
  negb (NULL =? key) && negb (NULL =? buf) && (0 <? size)
  && (uAES_MAX_INPUT_SIZE >=? size) && (uAESRGE >? aes_mode).

(** The guard of the CBC entry points. *)
Definition cbc_args_ok (buf : ptr) (size : Z) (key iv : ptr) (aes_mode : Z)
  : bool :=
  negb (NULL =? key) && negb (NULL =? buf) && negb (NULL =? iv)
  && (0 <? size) && (uAES_MAX_INPUT_SIZE >=? size) && (uAESRGE >? aes_mode).

(** The loop [while (offset > idx)] of [uaes_cbc_encryption]. *)
Fixpoint cbc_encryption_loop (fuel : nat) (m : mem) (plaintext : ptr)
    (kschd : list Z) (Nk Nb Nr offset idx : Z) : mem :=
  match fuel with
  | O => m
  | S fuel' =>
      if offset >? idx then
        let m := uaes_xor_iv m (plaintext + uAES_BLOCK_SIZE * idx)
                   (plaintext + uAES_BLOCK_SIZE * (idx - 1)) in
        let m := uaes_foward_cipher m (plaintext + uAES_BLOCK_SIZE * idx)
                   kschd Nk Nb Nr in
        cbc_encryption_loop fuel' m plaintext kschd Nk Nb Nr offset (idx + 1)
      else m
  end.

Definition uaes_cbc_encryption (m : mem) (plaintext : ptr)
    (plaintext_size : Z) (key init_vec : ptr) (aes_mode : Z) : Z * mem :=
  let err := -1 in
  let kschd := kschd_init uAES_MAX_KSCHD_SIZE in
  let idx := 0 in
  let offset := block_count plaintext_size in
  let Nk := Nk_of aes_mode in
  let Nr := Nr_of aes_mode in
  let Nb := 4 in
  if cbc_args_ok plaintext plaintext_size key init_vec aes_mode then
    let kschd := key_expansion m key kschd Nk (Nb * (Nr + 1)) in
    let m := uaes_xor_iv m plaintext init_vec in
    let m := uaes_foward_cipher m (plaintext + uAES_BLOCK_SIZE * idx)
               kschd Nk Nb Nr in
    let idx := idx + 1 in
    let m := cbc_encryption_loop (Z.to_nat offset) m plaintext kschd
               Nk Nb Nr offset idx in
    (0, m)
  else (err, m).

(** The loop [while (idx > 0)] of [uaes_cbc_decryption]. *)
Fixpoint cbc_decryption_loop (fuel : nat) (m : mem) (ciphertext : ptr)
    (kschd : list Z) (Nk Nb Nr idx : Z) : mem * Z :=
  match fuel with
  | O => (m, idx)
  | S fuel' =>
      if idx >? 0 then
        let m := uaes_inverse_cipher m (ciphertext + uAES_BLOCK_SIZE * idx)
                   kschd Nk Nb Nr in
        let m := uaes_xor_iv m (ciphertext + uAES_BLOCK_SIZE * idx)
                   (ciphertext + uAES_BLOCK_SIZE * (idx - 1)) in
        cbc_decryption_loop fuel' m ciphertext kschd Nk Nb Nr (idx - 1)
      else (m, idx)
  end.

Definition uaes_cbc_decryption (m : mem) (ciphertext : ptr)
    (ciphertext_size : Z) (key init_vec : ptr) (aes_mode : Z) : Z * mem :=
  let err := -1 in
  let kschd := kschd_init uAES_MAX_KSCHD_SIZE in
  let offset := block_count ciphertext_size in
  let Nk := Nk_of aes_mode in
  let Nr := Nr_of aes_mode in
  let Nb := 4 in
  if cbc_args_ok ciphertext ciphertext_size key init_vec aes_mode then
    let idx := offset - 1 in
    let kschd := key_expansion m key kschd Nk (Nb * (Nr + 1)) in
    let '(m, idx) := cbc_decryption_loop (Z.to_nat offset) m ciphertext kschd
                       Nk Nb Nr idx in
    let m := uaes_inverse_cipher m (ciphertext + uAES_BLOCK_SIZE * idx)
               kschd Nk Nb Nr in
    let m := uaes_xor_iv m (ciphertext + uAES_BLOCK_SIZE * idx) init_vec in
    (0, m)
  else (err, m).

(** The loop [while (offset > idx)] of the ECB entry points; [cipher] is
    [uaes_foward_cipher] or [uaes_inverse_cipher]. *)
Fixpoint ecb_loop (cipher : mem -> ptr -> list Z -> Z -> Z -> Z -> mem)
    (fuel : nat) (m : mem) (buf : ptr) (kschd : list Z)
    (Nk Nb Nr offset idx : Z) : mem :=
  match fuel with
  | O => m
  | S fuel' =>
      if offset >? idx then
        let m := cipher m (buf + uAES_BLOCK_SIZE * idx) kschd Nk Nb Nr in
        ecb_loop cipher fuel' m buf kschd Nk Nb Nr offset (idx + 1)
      else m
  end.

Definition uaes_ecb_encryption (m : mem) (plaintext : ptr)
    (plaintext_size : Z) (key : ptr) (aes_mode : Z) : Z * mem :=
  let err := -1 in
  let kschd := kschd_init uAES_MAX_KSCHD_SIZE in
  let idx := 0 in
  let offset := block_count plaintext_size in
  let Nk := Nk_of aes_mode in
  let Nr := Nr_of aes_mode in
  let Nb := 4 in
  if args_ok plaintext plaintext_size key aes_mode then
    let kschd := key_expansion m key kschd Nk (Nb * (Nr + 1)) in
    let m := ecb_loop uaes_foward_cipher (Z.to_nat offset) m plaintext kschd
               Nk Nb Nr offset idx in
    (0, m)
  else (err, m).

Definition uaes_ecb_decryption (m : mem) (ciphertext : ptr)
    (ciphertext_size : Z) (key : ptr) (aes_mode : Z) : Z * mem :=
  let err := -1 in
  let kschd := kschd_init uAES_MAX_KSCHD_SIZE in
  let idx := 0 in
  let offset := block_count ciphertext_size in
  let Nk := Nk_of aes_mode in
  let Nr := Nr_of aes_mode in
  let Nb := 4 in
  if args_ok ciphertext ciphertext_size key aes_mode then
    let kschd := key_expansion m key kschd Nk (Nb * (Nr + 1)) in
    let m := ecb_loop uaes_inverse_cipher (Z.to_nat offset) m ciphertext kschd
               Nk Nb Nr offset idx in
    (0, m)
  else (err, m).

(** The guard of the single-block entry points. *)
Definition block_args_ok (buf key : ptr) (size : Z) : bool :=
  negb (NULL =? key) && negb (NULL =? buf) && (0 <? size)
  && (uAES_BLOCK_SIZE >=? size).

(** The common body of [uaes128enc], [uaes192enc] and [uaes256enc], which
    differ in the constants [Nk], [Nr] and the schedule size only. *)
Definition uaes_enc (Nk Nr kschd_size : Z) (m : mem) (plaintext key : ptr)
    (plaintext_size : Z) : Z * mem :=
  let err := -1 in
  let Nb := 4 in
  let kschd := kschd_init kschd_size in
  if block_args_ok plaintext key plaintext_size then
    let err := 0 in
    let kschd := key_expansion m key kschd Nk (Nb * (Nr + 1)) in
    let m := uaes_foward_cipher m plaintext kschd Nk Nb Nr in
    (err, m)
  else (err, m).

Definition uaes128enc := uaes_enc 4 10 uAES128_KSCHD_SIZE.
Definition uaes192enc := uaes_enc 6 12 uAES192_KSCHD_SIZE.
Definition uaes256enc := uaes_enc 8 14 uAES256_KSCHD_SIZE.

(** The common body of [uaes128dec], [uaes192dec] and [uaes256dec]. *)
Definition uaes_dec (Nk Nr kschd_size : Z) (m : mem) (ciphertext key : ptr)
    (ciphertext_size : Z) : Z * mem :=
  let err := -1 in
  let Nb := 4 in
  let kschd := kschd_init kschd_size in
  if block_args_ok ciphertext key ciphertext_size then
    let err := 0 in
    let kschd := key_expansion m key kschd Nk (Nb * (Nr + 1)) in
    let m := uaes_inverse_cipher m ciphertext kschd Nk Nb Nr in
    (err, m)
  else (err, m).

Definition uaes128dec := uaes_dec 4 10 uAES128_KSCHD_SIZE.
Definition uaes192dec := uaes_dec 6 12 uAES192_KSCHD_SIZE.
Definition uaes256dec := uaes_dec 8 14 uAES256_KSCHD_SIZE.

End Driver.

(** ** ops.c: block primitives and key schedule *)

Module Rijndael.

(** ops.c is not among the sources; every definition of this module is
    modelled from the specification.  Section 4.1 fixes the S-box and
    its inverse as those of FIPS-197 5.1.1 and [Rcon[i]] as [x^(i-1)] in
    the high byte of a word; section 4.2 gives the four primitives and
    their inverses on the column-major 16-byte state; section 4.3 gives
    the key schedule. *)

(** Modelled from the spec: the forward S-box of ops.c, the table of
    FIPS-197 5.1.1 (section 4.1). *)
Definition SBox_table : list Z :=
  [ 99; 124; 119; 123; 242; 107; 111; 197;  48;   1; 103;  43; 254; 215; 171; 118;
   202; 130; 201; 125; 250;  89;  71; 240; 173; 212; 162; 175; 156; 164; 114; 192;
   183; 253; 147;  38;  54;  63; 247; 204;  52; 165; 229; 241; 113; 216;  49;  21;
     4; 199;  35; 195;  24; 150;   5; 154;   7;  18; 128; 226; 235;  39; 178; 117;
     9; 131;  44;  26;  27; 110;  90; 160;  82;  59; 214; 179;  41; 227;  47; 132;
    83; 209;   0; 237;  32; 252; 177;  91; 106; 203; 190;  57;  74;  76;  88; 207;
   208; 239; 170; 251;  67;  77;  51; 133;  69; 249;   2; 127;  80;  60; 159; 168;
    81; 163;  64; 143; 146; 157;  56; 245; 188; 182; 218;  33;  16; 255; 243; 210;
   205;  12;  19; 236;  95; 151;  68;  23; 196; 167; 126;  61; 100;  93;  25; 115;
    96; 129;  79; 220;  34;  42; 144; 136;  70; 238; 184;  20; 222;  94;  11; 219;
   224;  50;  58;  10;  73;   6;  36;  92; 194; 211; 172;  98; 145; 149; 228; 121;
   231; 200;  55; 109; 141; 213;  78; 169; 108;  86; 244; 234; 101; 122; 174;   8;
   186; 120;  37;  46;  28; 166; 180; 198; 232; 221; 116;  31;  75; 189; 139; 138;
   112;  62; 181; 102;  72;   3; 246;  14;  97;  53;  87; 185; 134; 193;  29; 158;
   225; 248; 152;  17; 105; 217; 142; 148; 155;  30; 135; 233; 206;  85;  40; 223;
   140; 161; 137;  13; 191; 230;  66; 104;  65; 153;  45;  15; 176;  84; 187;  22].

(** Modelled from the spec: the inverse S-box of ops.c, the table of
    FIPS-197 5.1.1 (section 4.1). *)
Definition InvSBox_table : list Z :=
  [ 82;   9; 106; 213;  48;  54; 165;  56; 191;  64; 163; 158; 129; 243; 215; 251;
   124; 227;  57; 130; 155;  47; 255; 135;  52; 142;  67;  68; 196; 222; 233; 203;
    84; 123; 148;  50; 166; 194;  35;  61; 238;  76; 149;  11;  66; 250; 195;  78;
     8;  46; 161; 102;  40; 217;  36; 178; 118;  91; 162;  73; 109; 139; 209;  37;
   114; 248; 246; 100; 134; 104; 152;  22; 212; 164;  92; 204;  93; 101; 182; 146;
   108; 112;  72;  80; 253; 237; 185; 218;  94;  21;  70;  87; 167; 141; 157; 132;
   144; 216; 171;   0; 140; 188; 211;  10; 247; 228;  88;   5; 184; 179;  69;   6;
   208;  44;  30; 143; 202;  63;  15;   2; 193; 175; 189;   3;   1;  19; 138; 107;
    58; 145;  17;  65;  79; 103; 220; 234; 151; 242; 207; 206; 240; 180; 230; 115;
   150; 172; 116;  34; 231; 173;  53; 133; 226; 249;  55; 232;  28; 117; 223; 110;
    71; 241;  26; 113;  29;  41; 197; 137; 111; 183;  98;  14; 170;  24; 190;  27;
   252;  86;  62;  75; 198; 210; 121;  32; 154; 219; 192; 254; 120; 205;  90; 244;
    31; 221; 168;  51; 136;   7; 199;  49; 177;  18;  16;  89;  39; 128; 236;  95;
    96;  81; 127; 169;  25; 181;  74;  13;  45; 229; 122; 159; 147; 201; 156; 239;
   160; 224;  59;  77; 174;  42; 245; 176; 200; 235; 187;  60; 131;  83; 153;  97;
    23;  43;   4; 126; 186; 119; 214;  38; 225; 105;  20;  99;  85;  33;  12; 125].

(** Modelled from the spec: the round constants of ops.c,
    [Rcon[i] = x^(i-1)] in the high byte of a word, fifteen entries
    (section 4.1). *)
Definition Rcon_table : list Z :=
  map (fun b => Z.shiftl b 24)
    [141; 1; 2; 4; 8; 16; 32; 64; 128; 27; 54; 108; 216; 171; 77].

(** Modelled from the spec: a look-up in the forward S-box. *)
Definition SBox (x : Z) : Z := nth (Z.to_nat x) SBox_table 0.

(** Modelled from the spec: a look-up in the inverse S-box. *)
Definition InvSBox (x : Z) : Z := nth (Z.to_nat x) InvSBox_table 0.

(** Modelled from the spec: a look-up in the round constants. *)
Definition Rcon (i : Z) : Z := nth (Z.to_nat i) Rcon_table 0.

(** Modelled from the spec: [xtime] of ops.c, "left-shift with
    conditional XOR of 0x1B on carry" (section 4.1). *)
Definition xtime (x : Z) : Z :=
  Z.land (Z.lxor (Z.shiftl x 1) (if Z.testbit x 7 then 27 else 0)) 255.

(** Modelled from the spec: the product in GF(2^8) of a constant [k]
    below [2^fuel] and a byte [x], by [xtime] (section 4.1). *)
Fixpoint gmul_fuel (fuel : nat) (k x : Z) : Z :=
  match fuel with
  | O => 0
  | S fuel' =>
      Z.lxor (if Z.testbit k 0 then x else 0)
             (gmul_fuel fuel' (Z.shiftr k 1) (xtime x))
  end.

(** Modelled from the spec: the product by one of the constants of the
    two MixColumns matrices, all below 16. *)
Definition gmul (k x : Z) : Z := gmul_fuel 4 k x.

(** Modelled from the spec: the state, sixteen bytes, byte [4*c + r] at
    row [r] and column [c] (section 4.2); [tabulate f] is the state whose
    byte [i] is [f i]. *)
Definition tabulate (f : nat -> Z) : list Z := map f (seq 0 16).

(** Modelled from the spec: byte [i] of the state. *)
Definition byte_at (block : list Z) (i : nat) : Z := nth i block 0.

(** Modelled from the spec: [sub_block] of ops.c, "replace each byte
    [s[i]] with [SBox[s[i]]]" (section 4.2). *)
Definition sub_block (block : list Z) (Nb : Z) : list Z :=
  tabulate (fun i => SBox (byte_at block i)).

(** Modelled from the spec: [inv_sub_block] of ops.c, the same with the
    inverse S-box. *)
Definition inv_sub_block (block : list Z) (Nb : Z) : list Z :=
  tabulate (fun i => InvSBox (byte_at block i)).

(** Modelled from the spec: [shift_rows] of ops.c, "row [r] is rotated
    left by [r] positions" (section 4.2). *)
Definition shift_rows (block : list Z) (Nb : Z) : list Z :=
  tabulate (fun i =>
    let c := (i / 4)%nat in
    let r := (i mod 4)%nat in
    byte_at block (4 * ((c + r) mod 4) + r)).

(** Modelled from the spec: [inv_shift_rows] of ops.c, row [r] is
    rotated right by [r] positions. *)
Definition inv_shift_rows (block : list Z) (Nb : Z) : list Z :=
  tabulate (fun i =>
    let c := (i / 4)%nat in
    let r := (i mod 4)%nat in
    byte_at block (4 * ((c + 4 - r) mod 4) + r)).

(** Modelled from the spec: the MDS matrix of MixColumns (section 4.2). *)
Definition MDS : list (list Z) :=
  [[2; 3; 1; 1]; [1; 2; 3; 1]; [1; 1; 2; 3]; [3; 1; 1; 2]].

(** Modelled from the spec: the inverse matrix, whose first row is
    [0x0E, 0x0B, 0x0D, 0x09] (section 4.2). *)
Definition InvMDS : list (list Z) :=
  [[14; 11; 13; 9]; [9; 14; 11; 13]; [13; 9; 14; 11]; [11; 13; 9; 14]].

(** Modelled from the spec: row [r] of the product in GF(2^8) of the
    matrix [M] with column [c] of the state. *)
Definition mat_row (M : list (list Z)) (block : list Z) (c r : nat) : Z :=
  let row := nth r M [] in
  Z.lxor
    (Z.lxor (gmul (nth 0 row 0) (byte_at block (4 * c + 0)))
            (gmul (nth 1 row 0) (byte_at block (4 * c + 1))))
    (Z.lxor (gmul (nth 2 row 0) (byte_at block (4 * c + 2)))
            (gmul (nth 3 row 0) (byte_at block (4 * c + 3)))).

(** Modelled from the spec: [mix_columns] of ops.c, "for each column,
    compute the matrix product with the fixed MDS matrix" (section
    4.2). *)
Definition mix_columns (block : list Z) (Nb : Z) : list Z :=
  tabulate (fun i => mat_row MDS block (i / 4) (i mod 4)).

(** Modelled from the spec: [inv_mix_columns] of ops.c, the product with
    the inverse matrix. *)
Definition inv_mix_columns (block : list Z) (Nb : Z) : list Z :=
  tabulate (fun i => mat_row InvMDS block (i / 4) (i mod 4)).

(** Modelled from the spec: byte [j] of a word, "big-endian-packed"
    (section 4.3). *)
Definition word_byte (w : Z) (j : Z) : Z :=
  Z.land (Z.shiftr w (8 * (3 - j))) 255.

(** Modelled from the spec: the word of four bytes, the first one
    highest. *)
Definition pack_word (b0 b1 b2 b3 : Z) : Z :=
  Z.lor (Z.lor (Z.shiftl b0 24) (Z.shiftl b1 16))
        (Z.lor (Z.shiftl b2 8) b3).

(** Modelled from the spec: [add_round_key] of ops.c, "XOR the state
    with four 32-bit words of the schedule at [kschd[round*Nb ..]]", one
    word per column (section 4.2). *)
Definition add_round_key (block kschd : list Z) (round Nb : Z) : list Z :=
  tabulate (fun i =>
    let c := Z.of_nat (i / 4) in
    let j := Z.of_nat (i mod 4) in
    Z.lxor (byte_at block i)
           (word_byte (nth (Z.to_nat (round * Nb + c)) kschd 0) j)).

(** Modelled from the spec: [RotWord] "left-rotates the 4 bytes by 1"
    (section 4.3). *)
Definition RotWord (w : Z) : Z :=
  pack_word (word_byte w 1) (word_byte w 2) (word_byte w 3) (word_byte w 0).

(** Modelled from the spec: [SubWord] "applies the S-box byte-wise"
    (section 4.3). *)
Definition SubWord (w : Z) : Z :=
  pack_word (SBox (word_byte w 0)) (SBox (word_byte w 1))
            (SBox (word_byte w 2)) (SBox (word_byte w 3)).

(** Modelled from the spec: the assignment [w[i] = v] of the key
    schedule, inside the array [w]. *)
Fixpoint set_word (w : list Z) (i : nat) (v : Z) : list Z :=
  match w, i with
  | [], _ => []
  | _ :: w', O => v :: w'
  | x :: w', S i' => x :: set_word w' i' v
  end.

(** Modelled from the spec: the first step of the key schedule, "words
    [w[0..Nk]] are copied directly from the master key, big-endian-packed"
    (section 4.3); [key i] is the byte [key[i]]. *)
Definition copy_key (key : Z -> Z) (w : list Z) (Nk : Z) : list Z :=
  fold_left (fun w i =>
      let a := 4 * Z.of_nat i in
      set_word w i (pack_word (key a) (key (a + 1)) (key (a + 2)) (key (a + 3))))
    (seq 0 (Z.to_nat Nk)) w.

(** Modelled from the spec: the step of the key schedule for word [i]
    (section 4.3). *)
Definition expand_word (w : list Z) (Nk : Z) (i : nat) : list Z :=
  let temp := nth (i - 1) w 0 in
  let temp :=
    if Z.of_nat i mod Nk =? 0 then
      Z.lxor (SubWord (RotWord temp)) (Rcon (Z.of_nat i / Nk))
    else if (Nk >? 6) && (Z.of_nat i mod Nk =? 4) then SubWord temp
    else temp in
  set_word w i (Z.lxor (nth (i - Z.to_nat Nk) w 0) temp).

(** Modelled from the spec: the key schedule over the bytes of the key,
    for [i] from [Nk] to [n - 1] (section 4.3). *)
Definition expand_key (key : Z -> Z) (kschd : list Z) (Nk n : Z) : list Z :=
  let w := copy_key key kschd Nk in
  fold_left (fun w i => expand_word w Nk i)
    (seq (Z.to_nat Nk) (Z.to_nat n - Z.to_nat Nk)) w.

(** Modelled from the spec: [key_expansion] of ops.c, the key schedule
    on the key that [key] points to. *)
Definition key_expansion (m : mem) (key : ptr) (kschd : list Z) (Nk n : Z)
  : list Z :=
  expand_key (fun i => m (key + i)) kschd Nk n.

End Rijndael.

#[export] Instance rijndael_ops : Ops := {|
  key_expansion := Rijndael.key_expansion;
  add_round_key := Rijndael.add_round_key;
  sub_block := Rijndael.sub_block;
  shift_rows := Rijndael.shift_rows;
  mix_columns := Rijndael.mix_columns;
  inv_sub_block := Rijndael.inv_sub_block;
  inv_shift_rows := Rijndael.inv_shift_rows;
  inv_mix_columns := Rijndael.inv_mix_columns
|}.

(** A store holding the bytes [bs] from address [base] on, and [0]
    elsewhere. *)
Definition mem_of (base : ptr) (bs : list Z) : mem :=
  fun a => if (base <=? a) && (a <? base + Z.of_nat (length bs))
           then nth (Z.to_nat (a - base)) bs 0 else 0.

(** ** Vocabulary of the statements *)

(** The sixteen bytes at [p]. *)
Definition blk (m : mem) (p : ptr) : list Z :=
  memcpy_from m p (Z.to_nat uAES_BLOCK_SIZE).

(** The sixteen bytes at [p] are those of the array [b]. *)
Definition holds (m : mem) (p : ptr) (b : list Z) : Prop :=
  forall i, 0 <= i < 16 -> m (p + i) = nth (Z.to_nat i) b 0.

(** Byte-wise XOR of two sixteen-byte arrays. *)
Definition xor_block (a b : list Z) : list Z :=
  map (fun i => Z.lxor (nth i a 0) (nth i b 0)) (seq 0 16).

Definition byte (x : Z) : Prop := 0 <= x < 256.

(** Every cell of the store holds a byte. *)
Definition bytes (m : mem) : Prop := forall a, byte (m a).

Definition is_block (b : list Z) : Prop :=
  length b = 16%nat /\ Forall byte b.

(** [ceil(size / 16)] *)
Definition ceil16 (size : Z) : Z := (size + 15) / 16.

(** Address [a] lies in the [n] bytes from [p] on. *)
Definition within (p n a : Z) : Prop := p <= a < p + n.

(** The regions of [n] bytes at [p] and of [n'] bytes at [p'] do not
    overlap. *)
Definition apart (p n p' n' : Z) : Prop := p + n <= p' \/ p' + n' <= p.

(** The entry points of uaes.h and the arguments of a call; the
    single-block entry points have neither IV nor variant tag. *)
Inductive entry : Type :=
| ecb_encryption | ecb_decryption | cbc_encryption | cbc_decryption
| enc128 | enc192 | enc256 | dec128 | dec192 | dec256.

Record call : Type := Call {
  c_buf : ptr;
  c_size : Z;
  c_key : ptr;
  c_iv : ptr;
  c_mode : Z
}.

Definition run {ops : Ops} (e : entry) (m : mem) (c : call) : Z * mem :=
  match e with
  | ecb_encryption =>
      uaes_ecb_encryption m (c_buf c) (c_size c) (c_key c) (c_mode c)
  | ecb_decryption =>
      uaes_ecb_decryption m (c_buf c) (c_size c) (c_key c) (c_mode c)
  | cbc_encryption =>
      uaes_cbc_encryption m (c_buf c) (c_size c) (c_key c) (c_iv c) (c_mode c)
  | cbc_decryption =>
      uaes_cbc_decryption m (c_buf c) (c_size c) (c_key c) (c_iv c) (c_mode c)
  | enc128 => uaes128enc m (c_buf c) (c_key c) (c_size c)
  | enc192 => uaes192enc m (c_buf c) (c_key c) (c_size c)
  | enc256 => uaes256enc m (c_buf c) (c_key c) (c_size c)
  | dec128 => uaes128dec m (c_buf c) (c_key c) (c_size c)
  | dec192 => uaes192dec m (c_buf c) (c_key c) (c_size c)
  | dec256 => uaes256dec m (c_buf c) (c_key c) (c_size c)
  end.

Definition multi_block (e : entry) : bool :=
  match e with
  | ecb_encryption | ecb_decryption | cbc_encryption | cbc_decryption => true
  | _ => false
  end.

Definition takes_iv (e : entry) : bool :=
  match e with
  | cbc_encryption | cbc_decryption => true
  | _ => false
  end.

(** The size bound of an entry point. *)
Definition bound (e : entry) : Z :=
  if multi_block e then uAES_MAX_INPUT_SIZE else uAES_BLOCK_SIZE.

(** A call that has to be rejected. *)
Definition invalid (e : entry) (c : call) : Prop :=
  c_key c = NULL \/ c_buf c = NULL
  \/ (takes_iv e = true /\ c_iv c = NULL)
  \/ c_size c = 0 \/ c_size c > bound e
  \/ (multi_block e = true /\ c_mode c >= 3).

(** A call that has to be served. *)
Definition valid (e : entry) (c : call) : Prop :=
  c_key c <> NULL /\ c_buf c <> NULL
  /\ (takes_iv e = true -> c_iv c <> NULL)
  /\ 0 < c_size c <= bound e
  /\ (multi_block e = true -> 0 <= c_mode c < 3).

(** The schedule a multi-block entry point builds for variant [aes_mode]. *)
Definition schedule {ops : Ops} (m : mem) (key : ptr) (aes_mode : Z) : list Z :=
  key_expansion m key (kschd_init uAES_MAX_KSCHD_SIZE) (Nk_of aes_mode)
    (4 * (Nr_of aes_mode + 1)).

(** ** The walks as the specification words them

    These definitions follow sections 4.2 and 4.4.3 of the specification,
    not the loops of uaes.c; the proofs compare the two. *)

(** The rounds [lo], [lo + 1], ..., [hi - 1], in increasing order. *)
Definition upto (lo hi : Z) : list Z :=
  map (fun i => lo + Z.of_nat i) (seq 0 (Z.to_nat (hi - lo))).

Section Worded.
Context {ops : Ops}.

(** [sub_bytes; shift_rows; mix_columns; add_round_key(round)] *)
Definition full_round (kschd : list Z) (Nb : Z) (state : list Z) (round : Z)
  : list Z :=
  add_round_key (mix_columns (shift_rows (sub_block state Nb) Nb) Nb)
    kschd round Nb.

(** [sub_bytes; shift_rows; add_round_key(Nr)], without MixColumns. *)
Definition final_round (kschd : list Z) (Nb Nr : Z) (state : list Z)
  : list Z :=
  add_round_key (shift_rows (sub_block state Nb) Nb) kschd Nr Nb.

Definition forward_cipher_worded (state kschd : list Z) (Nb Nr : Z)
  : list Z :=
  let state := add_round_key state kschd 0 Nb in
  let state := fold_left (full_round kschd Nb) (upto 1 Nr) state in
  final_round kschd Nb Nr state.

(** [inv_shift_rows; inv_sub_bytes; add_round_key(round);
    inv_mix_columns] *)
Definition inverse_round (kschd : list Z) (Nb : Z) (state : list Z)
    (round : Z) : list Z :=
  inv_mix_columns
    (add_round_key (inv_sub_block (inv_shift_rows state Nb) Nb) kschd round Nb)
    Nb.

(** [block[idx] ^= block[idx-1]], then the forward cipher on
    [block[idx]]. *)
Definition cbc_encrypt_block (kschd : list Z) (Nk Nr : Z) (buf : ptr)
    (m : mem) (idx : Z) : mem :=
  let p := buf + uAES_BLOCK_SIZE * idx in
  let m := uaes_xor_iv m p (buf + uAES_BLOCK_SIZE * (idx - 1)) in
  uaes_foward_cipher m p kschd Nk 4 Nr.

(** [block[0] ^= IV], the forward cipher on [block[0]], then the
    blocks [1 .. offset-1] in increasing order. *)
Definition cbc_encrypt_worded (m : mem) (buf iv : ptr) (kschd : list Z)
    (Nk Nr offset : Z) : mem :=
  let m := uaes_xor_iv m buf iv in
  let m := uaes_foward_cipher m buf kschd Nk 4 Nr in
  fold_left (cbc_encrypt_block kschd Nk Nr buf) (upto 1 offset) m.

(** The inverse cipher on [block[idx]], then
    [block[idx] ^= block[idx-1]]. *)
Definition cbc_decrypt_block (kschd : list Z) (Nk Nr : Z) (buf : ptr)
    (m : mem) (idx : Z) : mem :=
  let p := buf + uAES_BLOCK_SIZE * idx in
  let m := uaes_inverse_cipher m p kschd Nk 4 Nr in
  uaes_xor_iv m p (buf + uAES_BLOCK_SIZE * (idx - 1)).

(** The blocks [offset-1 .. 1] in decreasing order, then the inverse
    cipher on [block[0]] and [block[0] ^= IV]. *)
Definition cbc_decrypt_worded (m : mem) (buf iv : ptr) (kschd : list Z)
    (Nk Nr offset : Z) : mem :=
  let m := fold_left (cbc_decrypt_block kschd Nk Nr buf)
             (rev (upto 1 offset)) m in
  let m := uaes_inverse_cipher m buf kschd Nk 4 Nr in
  uaes_xor_iv m buf iv.

End Worded.

(** ** The single-block entry points, by their constants *)

Definition decrypts (e : entry) : bool :=
  match e with
  | ecb_decryption | cbc_decryption | dec128 | dec192 | dec256 => true
  | _ => false
  end.

Definition single_Nk (e : entry) : Z :=
  match e with
  | enc128 | dec128 => 4
  | enc192 | dec192 => 6
  | _ => 8
  end.

Definition single_Nr (e : entry) : Z :=
  match e with
  | enc128 | dec128 => 10
  | enc192 | dec192 => 12
  | _ => 14
  end.

Definition single_kschd_size (e : entry) : Z :=
  match e with
  | enc128 | dec128 => uAES128_KSCHD_SIZE
  | enc192 | dec192 => uAES192_KSCHD_SIZE
  | _ => uAES256_KSCHD_SIZE
  end.

(** The single-block cipher of entry point [e] applied to the sixteen
    bytes at [buf], under the key at [key]. *)
Definition single_block_result {ops : Ops} (e : entry) (m : mem)
    (buf key : ptr) : list Z :=
  let kschd := key_expansion m key (kschd_init (single_kschd_size e))
                 (single_Nk e) (4 * (single_Nr e + 1)) in
  if decrypts e then inverse_block (blk m buf) kschd 4 (single_Nr e)
  else foward_block (blk m buf) kschd 4 (single_Nr e).

(** ** Stores and vectors the statements are tried on *)

(** FIPS-197, appendix B. *)
Definition fips_key : list Z :=
  [0x2b; 0x7e; 0x15; 0x16; 0x28; 0xae; 0xd2; 0xa6;
   0xab; 0xf7; 0x15; 0x88; 0x09; 0xcf; 0x4f; 0x3c].

Definition fips_plaintext : list Z :=
  [0x32; 0x43; 0xf6; 0xa8; 0x88; 0x5a; 0x30; 0x8d;
   0x31; 0x31; 0x98; 0xa2; 0xe0; 0x37; 0x07; 0x34].

Definition fips_ciphertext : list Z :=
  [0x39; 0x25; 0x84; 0x1d; 0x02; 0xdc; 0x09; 0xfb;
   0xdc; 0x11; 0x85; 0x97; 0x19; 0x6a; 0x0b; 0x32].

(** The key at address 4096 and the plaintext right after it. *)
Definition fips_store : mem := mem_of 4096 (fips_key ++ fips_plaintext).

Definition zero_store : mem := fun _ => 0.

(** ** uaes.c, the functions beside the ciphers *)

(** [trace_msk |= msk; return trace_msk;], the body of
    [uaes_set_trace_msk] under [__uAES_DEBUG__]; the global [trace_msk]
    is a [uint8_t].  The result is the returned value and the new
    [trace_msk]. *)
Definition uaes_set_trace_msk_debug (trace_msk msk : Z) : Z * Z :=
  let trace_msk := Z.land (Z.lor trace_msk msk) 255 in
  (trace_msk, trace_msk).

(** [return 0;], the body of [uaes_set_trace_msk] without
    [__uAES_DEBUG__]. *)
Definition uaes_set_trace_msk (trace_msk msk : Z) : Z * Z :=
  (0, trace_msk).

(** The loop [for (s = 0; (s < lim) && (str[s] != 0x00); s++);] of
    [uaes_strnlen], entered at [s]. *)
Fixpoint strnlen_loop (fuel : nat) (m : mem) (str : ptr) (lim s : Z) : Z :=
  match fuel with
  | O => s
  | S fuel' =>
      if (s <? lim) && negb (m (str + s) =? 0)
      then strnlen_loop fuel' m str lim (s + 1)
      else s
  end.

Definition uaes_strnlen (m : mem) (str : ptr) (lim : Z) : Z :=
  let s := 0 in
  if negb (NULL =? str) && (s <? lim)
  then strnlen_loop (Z.to_nat lim) m str lim 0
  else s.

(** The header macros of uaes.c, on a 16-bit header [h]. *)
Definition uAES_HEADER_KEY_MSK : Z := 0xFF00.
Definition uAES_HEADER_SIZE_MSK : Z := 0x00FF.

(** [(h & uAES_HEADER_KEY_MSK) >> 8] *)
Definition uAES_HEADER_GET_CRYPTO_MODE (h : Z) : Z :=
  Z.shiftr (Z.land h uAES_HEADER_KEY_MSK) 8.

(** [(h & uAES_HEADER_SIZE_MSK) >> 0] *)
Definition uAES_HEADER_GET_SIZE (h : Z) : Z :=
  Z.shiftr (Z.land h uAES_HEADER_SIZE_MSK) 0.

(** [h |= (uint16_t)(((uint8_t) kt) << 8)]; the result is the new [h]. *)
Definition uAES_HEADER_PUT_CRYPTO_MODE (h kt : Z) : Z :=
  Z.lor h (Z.land (Z.shiftl (Z.land kt 255) 8) 65535).

(** [h |= (uint16_t)(((uint8_t) l) << 0)]; the result is the new [h]. *)
Definition uAES_HEADER_PUT_SIZE (h l : Z) : Z :=
  Z.lor h (Z.land (Z.shiftl (Z.land l 255) 0) 65535).

(** ** More vocabulary *)

(** The bytes at the data pointer that a served call of [e] walks:
    [ceil(size/16)] blocks for a multi-block entry point, one block for
    a single-block one. *)
Definition footprint (e : entry) (c : call) : Z :=
  if multi_block e then 16 * ceil16 (c_size c) else 16.

(** The key length of a call of [e], in bytes. *)
Definition key_length (e : entry) (c : call) : Z :=
  if multi_block e then 4 * Nk_of (c_mode c) else 4 * single_Nk e.

(** The sixteen bytes at [p] are all zero. *)
Definition zero_block (m : mem) (p : ptr) : Prop :=
  forall i, 0 <= i < 16 -> m (p + i) = 0.

Section WordedInverse.
Context {ops : Ops}.


End WordedInverse.

(** ** The older revision of uaes.c (src/unnamed/part_001)

    Its ciphers build the schedule themselves and walk
    [data_length >> 4] blocks; its single-block entry points have no
    upper bound on the size. *)

Module Legacy.
Section Legacy.
Context {ops : Ops}.

Definition uAES_MAX_BLOCK_LEN : Z := 16.
Definition uAES_MAX_KSCHD_LEN : Z := 60.

(** [uaes_set_kbr]: the result is [( *Nk, *Nb, *Nr )]. *)
Definition uaes_set_kbr (key_type : Z) : Z * Z * Z :=
  if key_type =? uAES128 then (4, 4, 10)
  else if key_type =? uAES192 then (6, 4, 12)
  else if key_type =? uAES256 then (8, 4, 14)
  else (8, 4, 14).

Definition uaes_pad_data_length (data_length : Z) : Z :=
  let buffer_length := 16 in
  if data_length >? 48 then 64
  else if data_length >? 32 then 48
  else if data_length >? 16 then 32
  else buffer_length.

(** [memcpy(block, src, n)] into the local array [block] of sixteen
    bytes, whose bytes from [n] on stay. *)
Definition memcpy_into (block : list Z) (m : mem) (src : ptr) (n : nat)
  : list Z :=
  map (fun i => if (i <? n)%nat then m (src + Z.of_nat i) else nth i block 0)
    (seq 0 (Z.to_nat uAES_MAX_BLOCK_LEN)).

(** The loop [while (kdx < offset)] of [uaes_foward_cipher] or
    [uaes_inverse_cipher]; [rounds] is what the body does to [block]
    between the two [memcpy]. *)
Fixpoint cipher_loop (rounds : list Z -> list Z -> Z -> Z -> list Z)
    (fuel : nat) (m : mem) (block : list Z) (data : ptr) (kschd : list Z)
    (Nb Nr offset kdx : Z) : mem :=
  match fuel with
  | O => m
  | S fuel' =>
      if kdx <? offset then
        let block := memcpy_into block m (data + 16 * kdx)
                       (Z.to_nat (4 * Nb)) in
        let block := rounds block kschd Nb Nr in
        let m := memcpy_to m (data + 16 * kdx) (Z.to_nat (4 * Nb)) block in
        cipher_loop rounds fuel' m block data kschd Nb Nr offset (kdx + 1)
      else m
  end.

Definition uaes_foward_cipher (m : mem) (data : ptr) (data_length : Z)
    (key : ptr) (Nk Nb Nr : Z) : mem :=
  let block := repeat 0 (Z.to_nat uAES_MAX_BLOCK_LEN) in
  let kschd := kschd_init uAES_MAX_KSCHD_LEN in
  let offset := Z.shiftr data_length 4 in
  let kdx := 0 in
  let kschd := key_expansion m key kschd Nk (Nb * (Nr + 1)) in
  cipher_loop foward_block (Z.to_nat offset) m block data kschd Nb Nr
    offset kdx.

Definition uaes_inverse_cipher (m : mem) (data : ptr) (data_length : Z)
    (key : ptr) (Nk Nb Nr : Z) : mem :=
  let block := repeat 0 (Z.to_nat uAES_MAX_BLOCK_LEN) in
  let kschd := kschd_init uAES_MAX_KSCHD_LEN in
  let offset := Z.shiftr data_length 4 in
  let kdx := 0 in
  let kschd := key_expansion m key kschd Nk (Nb * (Nr + 1)) in
  cipher_loop inverse_block (Z.to_nat offset) m block data kschd Nb Nr
    offset kdx.

(** The guard of the single-block entry points of this revision. *)
Definition block_args_ok (buf key : ptr) (size : Z) : bool :=
  negb (NULL =? key) && negb (NULL =? buf) && (0 <? size).

(** The common body of [uaes128enc], [uaes192enc] and [uaes256enc]. *)
Definition uaes_enc (Nk Nr : Z) (m : mem) (plaintext key : ptr)
    (plaintext_size : Z) : Z * mem :=
  let err := -1 in
  let Nb := 4 in
  if block_args_ok plaintext key plaintext_size then
    let err := 0 in
    let m := uaes_foward_cipher m plaintext plaintext_size key Nk Nb Nr in
    (err, m)
  else (err, m).

Definition uaes128enc := uaes_enc 4 10.
Definition uaes192enc := uaes_enc 6 12.
Definition uaes256enc := uaes_enc 8 14.

(** The common body of [uaes128dec], [uaes192dec] and [uaes256dec]. *)
Definition uaes_dec (Nk Nr : Z) (m : mem) (ciphertext key : ptr)
    (ciphertext_size : Z) : Z * mem :=
  let err := -1 in
  let Nb := 4 in
  if block_args_ok ciphertext key ciphertext_size then
    let err := 0 in
    let m := uaes_inverse_cipher m ciphertext ciphertext_size key Nk Nb Nr in
    (err, m)
  else (err, m).

Definition uaes128dec := uaes_dec 4 10.
Definition uaes192dec := uaes_dec 6 12.
Definition uaes256dec := uaes_dec 8 14.

End Legacy.
End Legacy.

(** * Proofs *)

(** ** The store *)

Lemma upd_same (m : mem) (a v : Z) : upd m a v a = v.
Proof. unfold upd. now rewrite Z.eqb_refl. Qed.

Lemma upd_other (m : mem) (a v x : Z) : x <> a -> upd m a v x = m x.
Proof. unfold upd. intros H. apply Z.eqb_neq in H. now rewrite H. Qed.

Lemma memcpy_to_out (n : nat) :
  forall m p b a, ~ within p (Z.of_nat n) a -> memcpy_to m p n b a = m a.
Proof.
  unfold within. induction n as [|n IH]; intros m p b a Ha; [reflexivity|].
  cbn [memcpy_to]. rewrite IH by lia. apply upd_other. lia.
Qed.

Lemma memcpy_to_in (n : nat) :
  forall m p b i, 0 <= i < Z.of_nat n ->
    memcpy_to m p n b (p + i) = nth (Z.to_nat i) b 0.
Proof.
  induction n as [|n IH]; intros m p b i Hi; [lia|].
  cbn [memcpy_to]. destruct (Z.eq_dec i 0) as [->|Hne].
  - rewrite memcpy_to_out by (unfold within; lia).
    rewrite Z.add_0_r, upd_same. destruct b; reflexivity.
  - replace (p + i) with (p + 1 + (i - 1)) by lia.
    rewrite IH by lia.
    replace (Z.to_nat i) with (S (Z.to_nat (i - 1))) by lia.
    destruct b; [now destruct (Z.to_nat (i - 1))|reflexivity].
Qed.

Lemma memcpy_from_length (m : mem) (p : ptr) (n : nat) :
  length (memcpy_from m p n) = n.
Proof. unfold memcpy_from. now rewrite length_map, length_seq. Qed.

Lemma memcpy_from_nth (m : mem) (p : ptr) (n i : nat) :
  (i < n)%nat -> nth i (memcpy_from m p n) 0 = m (p + Z.of_nat i).
Proof.
  intros Hi. unfold memcpy_from.
  set (f := fun i => m (p + Z.of_nat i)).
  transitivity (nth i (map f (seq 0 n)) (f 0%nat)).
  - apply nth_indep. now rewrite length_map, length_seq.
  - rewrite map_nth, seq_nth by assumption. reflexivity.
Qed.

Lemma memcpy_from_ext (m m' : mem) (p : ptr) (n : nat) :
  (forall i, 0 <= i < Z.of_nat n -> m (p + i) = m' (p + i)) ->
  memcpy_from m p n = memcpy_from m' p n.
Proof.
  intros H. unfold memcpy_from. apply map_ext_in. intros i Hi.
  apply in_seq in Hi. apply H. lia.
Qed.

Lemma blk_length (m : mem) (p : ptr) : length (blk m p) = 16%nat.
Proof. apply memcpy_from_length. Qed.

Lemma blk_nth (m : mem) (p : ptr) (i : nat) :
  (i < 16)%nat -> nth i (blk m p) 0 = m (p + Z.of_nat i).
Proof. apply memcpy_from_nth. Qed.

Lemma blk_ext (m m' : mem) (p : ptr) :
  (forall a, within p 16 a -> m a = m' a) -> blk m p = blk m' p.
Proof.
  intros H. apply memcpy_from_ext. intros i Hi. apply H.
  unfold within. change (Z.of_nat (Z.to_nat uAES_BLOCK_SIZE)) with 16 in Hi.
  lia.
Qed.

Lemma holds_blk (m : mem) (p : ptr) : holds m p (blk m p).
Proof.
  intros i Hi. rewrite blk_nth by lia. f_equal. lia.
Qed.

(** Two arrays of sixteen bytes with the same entries are the same. *)
Lemma block_ext (a b : list Z) :
  length a = 16%nat -> length b = 16%nat ->
  (forall i, (i < 16)%nat -> nth i a 0 = nth i b 0) -> a = b.
Proof.
  intros Ha Hb H. apply nth_ext with (d := 0) (d' := 0); [congruence|].
  intros i Hi. apply H. lia.
Qed.

Lemma holds_eq (m : mem) (p : ptr) (b : list Z) :
  length b = 16%nat -> holds m p b -> blk m p = b.
Proof.
  intros Hb H. apply block_ext; [apply blk_length|assumption|].
  intros i Hi. rewrite blk_nth by assumption.
  rewrite (H (Z.of_nat i)) by lia. now rewrite Nat2Z.id.
Qed.

(** ** The XOR helper and the two ciphers, as store transformers *)

Section StoreFacts.
Context {ops : Ops}.

Lemma xor_fold_out (p iv : ptr) (l : list Z) :
  forall m a, ~ within p 16 a -> Forall (fun i => 0 <= i < 16) l ->
    fold_left (fun m i => xor_at m p iv i) l m a = m a.
Proof.
  unfold within. induction l as [|i l IH]; intros m a Ha Hl; [reflexivity|].
  inversion Hl; subst. cbn [fold_left]. rewrite IH by assumption.
  unfold xor_at. apply upd_other. lia.
Qed.

Lemma xor_fold_in (p iv : ptr) (n : nat) :
  forall (k : nat) m i, apart iv 16 p 16 -> (k + n <= 16)%nat ->
    0 <= i < 16 ->
    fold_left (fun m i => xor_at m p iv i) (map Z.of_nat (seq k n)) m
      (p + i)
    = if (Z.of_nat k <=? i) && (i <? Z.of_nat (k + n))
      then Z.lxor (m (p + i)) (m (iv + i)) else m (p + i).
Proof.
  unfold apart.
  induction n as [|n IH]; intros k m i Hd Hk Hi.
  - cbn [seq map fold_left].
    destruct (Z.leb_spec (Z.of_nat k) i), (Z.ltb_spec i (Z.of_nat (k + 0)));
      cbn; try reflexivity; lia.
  - cbn [seq map fold_left]. rewrite IH by (try assumption; lia).
    clear IH. unfold xor_at.
    assert (Hiv : iv + i <> p + Z.of_nat k) by (clear - Hd Hk Hi; lia).
    rewrite (upd_other _ _ _ (iv + i)) by exact Hiv.
    replace (Z.of_nat (S k + n)) with (Z.of_nat (k + S n)) by lia.
    destruct (Z.eq_dec i (Z.of_nat k)) as [->|Hne].
    + rewrite upd_same.
      replace (Z.of_nat (S k) <=? Z.of_nat k) with false by (symmetry; apply Z.leb_gt; lia).
      replace (Z.of_nat k <=? Z.of_nat k) with true by (symmetry; apply Z.leb_le; lia).
      replace (Z.of_nat k <? Z.of_nat (k + S n)) with true by (symmetry; apply Z.ltb_lt; lia).
      reflexivity.
    + rewrite upd_other by (clear - Hne; lia).
      replace (Z.of_nat (S k) <=? i) with (Z.of_nat k <=? i); [reflexivity|].
      clear - Hne.
      destruct (Z.leb_spec (Z.of_nat k) i), (Z.leb_spec (Z.of_nat (S k)) i);
        try reflexivity; lia.
Qed.

Lemma uaes_xor_iv_fold (m : mem) (p iv : ptr) :
  uaes_xor_iv m p iv
  = fold_left (fun m i => xor_at m p iv i) (map Z.of_nat (seq 0 16)) m.
Proof. reflexivity. Qed.

Lemma uaes_xor_iv_out (m : mem) (p iv : ptr) (a : Z) :
  ~ within p 16 a -> uaes_xor_iv m p iv a = m a.
Proof.
  intros Ha. rewrite uaes_xor_iv_fold. apply xor_fold_out; [assumption|].
  apply Forall_forall. intros i Hi. apply in_map_iff in Hi.
  destruct Hi as (j & <- & Hj). apply in_seq in Hj. lia.
Qed.

Lemma uaes_xor_iv_in (m : mem) (p iv : ptr) (i : Z) :
  apart iv 16 p 16 -> 0 <= i < 16 ->
  uaes_xor_iv m p iv (p + i) = Z.lxor (m (p + i)) (m (iv + i)).
Proof.
  intros Hd Hi. rewrite uaes_xor_iv_fold, xor_fold_in by (try assumption; lia).
  destruct (Z.leb_spec (Z.of_nat 0) i), (Z.ltb_spec i (Z.of_nat (0 + 16)));
    cbn [andb]; try reflexivity; lia.
Qed.

Lemma xor_block_length (a b : list Z) : length (xor_block a b) = 16%nat.
Proof. unfold xor_block. now rewrite length_map, length_seq. Qed.

Lemma xor_block_nth (a b : list Z) (i : nat) :
  (i < 16)%nat -> nth i (xor_block a b) 0 = Z.lxor (nth i a 0) (nth i b 0).
Proof.
  intros Hi. unfold xor_block.
  set (f := fun i => Z.lxor (nth i a 0) (nth i b 0)).
  transitivity (nth i (map f (seq 0 16)) (f 0%nat)).
  - apply nth_indep. now rewrite length_map, length_seq.
  - rewrite map_nth, seq_nth by assumption. reflexivity.
Qed.

(** The XOR helper, on regions that do not overlap, leaves at [p] the
    XOR of the two arrays. *)
Lemma uaes_xor_iv_holds (m : mem) (p iv : ptr) :
  apart iv 16 p 16 ->
  holds (uaes_xor_iv m p iv) p (xor_block (blk m p) (blk m iv)).
Proof.
  intros Hd i Hi. rewrite uaes_xor_iv_in by assumption.
  rewrite xor_block_nth, !blk_nth by lia. rewrite Z2Nat.id by lia. reflexivity.
Qed.

Lemma uaes_foward_cipher_out (m : mem) (p : ptr) (w : list Z) (Nk Nb Nr a : Z) :
  ~ within p 16 a -> uaes_foward_cipher m p w Nk Nb Nr a = m a.
Proof. intros Ha. unfold uaes_foward_cipher. now apply memcpy_to_out. Qed.

Lemma uaes_foward_cipher_holds (m : mem) (p : ptr) (w : list Z) (Nk Nb Nr : Z) :
  holds (uaes_foward_cipher m p w Nk Nb Nr) p (foward_block (blk m p) w Nb Nr).
Proof. intros i Hi. unfold uaes_foward_cipher. now apply memcpy_to_in. Qed.

Lemma uaes_inverse_cipher_out (m : mem) (p : ptr) (w : list Z) (Nk Nb Nr a : Z) :
  ~ within p 16 a -> uaes_inverse_cipher m p w Nk Nb Nr a = m a.
Proof. intros Ha. unfold uaes_inverse_cipher. now apply memcpy_to_out. Qed.

Lemma uaes_inverse_cipher_holds (m : mem) (p : ptr) (w : list Z) (Nk Nb Nr : Z) :
  holds (uaes_inverse_cipher m p w Nk Nb Nr) p (inverse_block (blk m p) w Nb Nr).
Proof. intros i Hi. unfold uaes_inverse_cipher. now apply memcpy_to_in. Qed.

End StoreFacts.

(** ** The block walks *)

Section WalkFacts.
Context {ops : Ops}.

Lemma block_count_ceil16 (size : Z) : 0 <= size -> block_count size = ceil16 size.
Proof.
  intros Hs. unfold block_count, ceil16, uAES_ALIGN, uAES_BLOCK_ALIGN,
    uAES_BLOCK_ALIGN_MASK.
  change 15 with (Z.ones 4) at 1. rewrite Z.land_ones by lia.
  rewrite !Z.shiftr_div_pow2 by lia. change (2 ^ 4) with 16.
  change (16 - 1) with 15.
  destruct (Z.eqb_spec 0 (size mod 16)) as [H0|H0]; cbn [negb].
  - pose proof (Z.div_mod size 16 ltac:(lia)) as Hd.
    rewrite <- H0 in Hd.
    replace (size + 15) with (15 + size / 16 * 16) by lia.
    rewrite Z.div_add by lia. reflexivity.
  - rewrite Z.div_mul by lia. reflexivity.
Qed.

Lemma ceil16_bounds (size : Z) :
  0 < size <= 64 -> 1 <= ceil16 size <= 4 /\ size <= 16 * ceil16 size.
Proof.
  intros Hs. unfold ceil16.
  pose proof (Z.div_mod (size + 15) 16 ltac:(lia)).
  pose proof (Z.mod_pos_bound (size + 15) 16 ltac:(lia)). lia.
Qed.

Section Ecb.
Variable cipher : mem -> ptr -> list Z -> Z -> Z -> Z -> mem.
Variable f : list Z -> list Z.
Variables (w : list Z) (Nk Nb Nr : Z).
Hypothesis cipher_out : forall m p a,
  ~ within p 16 a -> cipher m p w Nk Nb Nr a = m a.
Hypothesis cipher_holds : forall m p,
  holds (cipher m p w Nk Nb Nr) p (f (blk m p)).

Lemma ecb_loop_spec (buf : ptr) (offset : Z) (fuel : nat) :
  forall m idx, 0 <= idx -> (Z.to_nat (offset - idx) <= fuel)%nat ->
    (forall a, ~ within (buf + 16 * idx) (16 * (offset - idx)) a ->
       ecb_loop cipher fuel m buf w Nk Nb Nr offset idx a = m a)
    /\ (forall j, idx <= j < offset ->
       holds (ecb_loop cipher fuel m buf w Nk Nb Nr offset idx)
         (buf + 16 * j) (f (blk m (buf + 16 * j)))).
Proof.
  unfold within.
  induction fuel as [|fuel IH]; intros m idx Hidx Hfuel.
  - split; [reflexivity|]. intros j Hj. lia.
  - cbn [ecb_loop]. destruct (Z.gtb_spec offset idx) as [Hlt|Hge].
    + change uAES_BLOCK_SIZE with 16.
      destruct (IH (cipher m (buf + 16 * idx) w Nk Nb Nr) (idx + 1)
                  ltac:(lia) ltac:(lia)) as [Hout Hin].
      clear IH. split.
      * intros a Ha. rewrite Hout by lia.
        apply cipher_out. unfold within. lia.
      * intros j Hj. destruct (Z.eq_dec j idx) as [->|Hne].
        -- intros i Hi. rewrite Hout by lia. now apply cipher_holds.
        -- replace (blk m (buf + 16 * j))
             with (blk (cipher m (buf + 16 * idx) w Nk Nb Nr) (buf + 16 * j)).
           ++ apply Hin. lia.
           ++ apply blk_ext. unfold within. intros a Ha.
              apply cipher_out. unfold within. lia.
    + split; [reflexivity|]. intros j Hj. lia.
Qed.

End Ecb.

Section Cbc.
Variables (w : list Z) (Nk Nb Nr : Z).

Lemma cbc_encryption_loop_spec (buf : ptr) (offset : Z) (fuel : nat) :
  forall m idx, 1 <= idx -> (Z.to_nat (offset - idx) <= fuel)%nat ->
    (forall a, ~ within (buf + 16 * idx) (16 * (offset - idx)) a ->
       cbc_encryption_loop fuel m buf w Nk Nb Nr offset idx a = m a)
    /\ (forall j, idx <= j < offset ->
       holds (cbc_encryption_loop fuel m buf w Nk Nb Nr offset idx)
         (buf + 16 * j)
         (foward_block
            (xor_block (blk m (buf + 16 * j))
               (blk (cbc_encryption_loop fuel m buf w Nk Nb Nr offset idx)
                    (buf + 16 * (j - 1))))
            w Nb Nr)).
Proof.
  unfold within.
  induction fuel as [|fuel IH]; intros m idx Hidx Hfuel.
  - split; [reflexivity|]. intros j Hj. lia.
  - cbn [cbc_encryption_loop].
    destruct (Z.gtb_spec offset idx) as [Hlt|Hge].
    + change uAES_BLOCK_SIZE with 16.
      set (mx := uaes_xor_iv m (buf + 16 * idx) (buf + 16 * (idx - 1))).
      set (m1 := uaes_foward_cipher mx (buf + 16 * idx) w Nk Nb Nr).
      destruct (IH m1 (idx + 1) ltac:(lia) ltac:(lia)) as [Hout Hin].
      clear IH.
      set (m' := cbc_encryption_loop fuel m1 buf w Nk Nb Nr offset (idx + 1))
        in *.
      assert (Hm1 : forall a, ~ (buf + 16 * idx <= a < buf + 16 * idx + 16) ->
                m1 a = m a).
      { intros a Ha. unfold m1. rewrite uaes_foward_cipher_out by exact Ha.
        unfold mx. now rewrite uaes_xor_iv_out by exact Ha. }
      split.
      * intros a Ha. rewrite Hout by lia. apply Hm1. lia.
      * intros j Hj. destruct (Z.eq_dec j idx) as [->|Hne].
        -- intros i Hi. rewrite Hout by lia.
           unfold m1. rewrite (uaes_foward_cipher_holds mx _ w Nk Nb Nr i Hi).
           f_equal. f_equal. f_equal.
           rewrite (holds_eq mx (buf + 16 * idx)
                      (xor_block (blk m (buf + 16 * idx))
                                 (blk m (buf + 16 * (idx - 1))))).
           ++ f_equal. apply blk_ext. unfold within. intros a Ha.
              symmetry. rewrite Hout by lia. apply Hm1. lia.
           ++ apply xor_block_length.
           ++ apply uaes_xor_iv_holds. unfold apart. lia.
        -- replace (blk m (buf + 16 * j)) with (blk m1 (buf + 16 * j)).
           ++ apply Hin. lia.
           ++ apply blk_ext. unfold within. intros a Ha. apply Hm1. lia.
    + split; [reflexivity|]. intros j Hj. lia.
Qed.

Lemma cbc_decryption_loop_spec (buf : ptr) (fuel : nat) :
  forall m idx, 0 <= idx -> (Z.to_nat idx <= fuel)%nat ->
    snd (cbc_decryption_loop fuel m buf w Nk Nb Nr idx) = 0
    /\ (forall a, ~ within (buf + 16) (16 * idx) a ->
       fst (cbc_decryption_loop fuel m buf w Nk Nb Nr idx) a = m a)
    /\ (forall j, 1 <= j <= idx ->
       holds (fst (cbc_decryption_loop fuel m buf w Nk Nb Nr idx))
         (buf + 16 * j)
         (xor_block (inverse_block (blk m (buf + 16 * j)) w Nb Nr)
                    (blk m (buf + 16 * (j - 1))))).
Proof.
  unfold within.
  induction fuel as [|fuel IH]; intros m idx Hidx Hfuel.
  - cbn [cbc_decryption_loop fst snd].
    split; [lia|]. split; [reflexivity|]. intros j Hj. lia.
  - cbn [cbc_decryption_loop].
    destruct (Z.gtb_spec idx 0) as [Hlt|Hge].
    + change uAES_BLOCK_SIZE with 16.
      set (mi := uaes_inverse_cipher m (buf + 16 * idx) w Nk Nb Nr).
      set (m1 := uaes_xor_iv mi (buf + 16 * idx) (buf + 16 * (idx - 1))).
      destruct (IH m1 (idx - 1) ltac:(lia) ltac:(lia)) as (Hz & Hout & Hin).
      clear IH.
      set (r := cbc_decryption_loop fuel m1 buf w Nk Nb Nr (idx - 1)) in *.
      assert (Hmi : forall a, ~ (buf + 16 * idx <= a < buf + 16 * idx + 16) ->
                mi a = m a).
      { intros a Ha. unfold mi. now rewrite uaes_inverse_cipher_out by exact Ha. }
      assert (Hm1 : forall a, ~ (buf + 16 * idx <= a < buf + 16 * idx + 16) ->
                m1 a = m a).
      { intros a Ha. unfold m1. rewrite uaes_xor_iv_out by exact Ha.
        now apply Hmi. }
      split; [exact Hz|]. split.
      * intros a Ha. rewrite Hout by lia. apply Hm1. lia.
      * intros j Hj. destruct (Z.eq_dec j idx) as [->|Hne].
        -- intros i Hi. rewrite Hout by lia.
           unfold m1.
           rewrite (uaes_xor_iv_holds mi (buf + 16 * idx) (buf + 16 * (idx - 1))
                      ltac:(unfold apart; lia) i Hi).
           rewrite !xor_block_nth by lia. f_equal.
           ++ rewrite blk_nth by lia. rewrite Z2Nat.id by lia.
              unfold mi. apply uaes_inverse_cipher_holds. exact Hi.
           ++ f_equal. apply blk_ext. unfold within. intros a Ha.
              apply Hmi. lia.
        -- replace (blk m (buf + 16 * j)) with (blk m1 (buf + 16 * j)).
           replace (blk m (buf + 16 * (j - 1)))
             with (blk m1 (buf + 16 * (j - 1))).
           ++ apply Hin. lia.
           ++ apply blk_ext. unfold within. intros a Ha. apply Hm1. lia.
           ++ apply blk_ext. unfold within. intros a Ha. apply Hm1. lia.
    + cbn [fst snd].
      split; [lia|]. split; [reflexivity|]. intros j Hj. lia.
Qed.

End Cbc.

Lemma args_ok_true (buf : ptr) (size : Z) (key : ptr) (mode : Z) :
  args_ok buf size key mode = true <->
  key <> NULL /\ buf <> NULL /\ 0 < size <= 64 /\ mode < 3.
Proof.
  unfold args_ok, NULL, uAES_MAX_INPUT_SIZE, uAESRGE.
  rewrite !andb_true_iff, !negb_true_iff, !Z.eqb_neq, Z.ltb_lt, Z.geb_le,
    Z.gtb_lt. intuition lia.
Qed.

Lemma cbc_args_ok_true (buf : ptr) (size : Z) (key iv : ptr) (mode : Z) :
  cbc_args_ok buf size key iv mode = true <->
  key <> NULL /\ buf <> NULL /\ iv <> NULL /\ 0 < size <= 64 /\ mode < 3.
Proof.
  unfold cbc_args_ok, NULL, uAES_MAX_INPUT_SIZE, uAESRGE.
  rewrite !andb_true_iff, !negb_true_iff, !Z.eqb_neq, Z.ltb_lt, Z.geb_le,
    Z.gtb_lt. intuition lia.
Qed.

Lemma block_args_ok_true (buf key : ptr) (size : Z) :
  block_args_ok buf key size = true <->
  key <> NULL /\ buf <> NULL /\ 0 < size <= 16.
Proof.
  unfold block_args_ok, NULL, uAES_BLOCK_SIZE.
  rewrite !andb_true_iff, !negb_true_iff, !Z.eqb_neq, Z.ltb_lt, Z.geb_le.
  intuition lia.
Qed.

Lemma uaes_ecb_encryption_spec (m : mem) (buf : ptr) (size : Z) (key : ptr)
    (mode : Z) :
  args_ok buf size key mode = true ->
  fst (uaes_ecb_encryption m buf size key mode) = 0
  /\ (forall a, ~ within buf (16 * ceil16 size) a ->
        snd (uaes_ecb_encryption m buf size key mode) a = m a)
  /\ (forall j, 0 <= j < ceil16 size ->
        holds (snd (uaes_ecb_encryption m buf size key mode)) (buf + 16 * j)
          (foward_block (blk m (buf + 16 * j)) (schedule m key mode) 4
             (Nr_of mode))).
Proof.
  intros Hok. unfold uaes_ecb_encryption. rewrite Hok. cbn [fst snd].
  apply args_ok_true in Hok. rewrite block_count_ceil16 by lia.
  split; [reflexivity|].
  destruct (ecb_loop_spec uaes_foward_cipher
              (fun b => foward_block b (schedule m key mode) 4 (Nr_of mode))
              (schedule m key mode) (Nk_of mode) 4 (Nr_of mode)
              (fun m p a => uaes_foward_cipher_out m p _ _ _ _ a)
              (fun m p => uaes_foward_cipher_holds m p _ _ _ _)
              buf (ceil16 size) (Z.to_nat (ceil16 size)) m 0
              ltac:(lia) ltac:(lia)) as [Hout Hin].
  split.
  - intros a Ha. apply Hout. unfold within in *. lia.
  - exact Hin.
Qed.

Lemma uaes_ecb_decryption_spec (m : mem) (buf : ptr) (size : Z) (key : ptr)
    (mode : Z) :
  args_ok buf size key mode = true ->
  fst (uaes_ecb_decryption m buf size key mode) = 0
  /\ (forall a, ~ within buf (16 * ceil16 size) a ->
        snd (uaes_ecb_decryption m buf size key mode) a = m a)
  /\ (forall j, 0 <= j < ceil16 size ->
        holds (snd (uaes_ecb_decryption m buf size key mode)) (buf + 16 * j)
          (inverse_block (blk m (buf + 16 * j)) (schedule m key mode) 4
             (Nr_of mode))).
Proof.
  intros Hok. unfold uaes_ecb_decryption. rewrite Hok. cbn [fst snd].
  apply args_ok_true in Hok. rewrite block_count_ceil16 by lia.
  split; [reflexivity|].
  destruct (ecb_loop_spec uaes_inverse_cipher
              (fun b => inverse_block b (schedule m key mode) 4 (Nr_of mode))
              (schedule m key mode) (Nk_of mode) 4 (Nr_of mode)
              (fun m p a => uaes_inverse_cipher_out m p _ _ _ _ a)
              (fun m p => uaes_inverse_cipher_holds m p _ _ _ _)
              buf (ceil16 size) (Z.to_nat (ceil16 size)) m 0
              ltac:(lia) ltac:(lia)) as [Hout Hin].
  split.
  - intros a Ha. apply Hout. unfold within in *. lia.
  - exact Hin.
Qed.

Lemma uaes_cbc_encryption_spec (m : mem) (buf : ptr) (size : Z) (key iv : ptr)
    (mode : Z) :
  cbc_args_ok buf size key iv mode = true ->
  fst (uaes_cbc_encryption m buf size key iv mode) = 0
  /\ (forall a, ~ within buf (16 * ceil16 size) a ->
        snd (uaes_cbc_encryption m buf size key iv mode) a = m a)
  /\ (apart iv 16 buf 16 ->
        holds (snd (uaes_cbc_encryption m buf size key iv mode)) buf
          (foward_block (xor_block (blk m buf) (blk m iv))
             (schedule m key mode) 4 (Nr_of mode)))
  /\ (forall j, 1 <= j < ceil16 size ->
        holds (snd (uaes_cbc_encryption m buf size key iv mode)) (buf + 16 * j)
          (foward_block
             (xor_block (blk m (buf + 16 * j))
                (blk (snd (uaes_cbc_encryption m buf size key iv mode))
                     (buf + 16 * (j - 1))))
             (schedule m key mode) 4 (Nr_of mode))).
Proof.
  intros Hok. unfold uaes_cbc_encryption. rewrite Hok. cbn [fst snd].
  apply cbc_args_ok_true in Hok. rewrite block_count_ceil16 by lia.
  pose proof (ceil16_bounds size ltac:(lia)) as Hn.
  change uAES_BLOCK_SIZE with 16. rewrite Z.mul_0_r, Z.add_0_r.
  fold (schedule m key mode). change (0 + 1) with 1.
  set (w := schedule m key mode).
  set (mx := uaes_xor_iv m buf iv).
  set (m1 := uaes_foward_cipher mx buf w (Nk_of mode) 4 (Nr_of mode)).
  destruct (cbc_encryption_loop_spec w (Nk_of mode) 4 (Nr_of mode) buf
              (ceil16 size) (Z.to_nat (ceil16 size)) m1 1
              ltac:(lia) ltac:(lia)) as [Hout Hin].
  set (m' := cbc_encryption_loop _ m1 buf w _ _ _ _ 1) in *.
  assert (Hm1 : forall a, ~ within buf 16 a -> m1 a = m a).
  { intros a Ha. unfold m1. rewrite uaes_foward_cipher_out by exact Ha.
    unfold mx. now rewrite uaes_xor_iv_out by exact Ha. }
  unfold within in *.
  split; [reflexivity|]. split; [|split].
  - intros a Ha. rewrite Hout by lia. apply Hm1. lia.
  - intros Hap i Hi. rewrite Hout by lia. unfold m1.
    rewrite (uaes_foward_cipher_holds mx _ w _ _ _ i Hi).
    f_equal. f_equal. apply holds_eq; [apply xor_block_length|].
    now apply uaes_xor_iv_holds.
  - intros j Hj.
    replace (blk m (buf + 16 * j)) with (blk m1 (buf + 16 * j)).
    + apply Hin. lia.
    + apply blk_ext. unfold within. intros a Ha. apply Hm1. lia.
Qed.

Lemma uaes_cbc_decryption_spec (m : mem) (buf : ptr) (size : Z) (key iv : ptr)
    (mode : Z) :
  cbc_args_ok buf size key iv mode = true ->
  fst (uaes_cbc_decryption m buf size key iv mode) = 0
  /\ (forall a, ~ within buf (16 * ceil16 size) a ->
        snd (uaes_cbc_decryption m buf size key iv mode) a = m a)
  /\ (apart iv 16 buf (16 * ceil16 size) ->
        holds (snd (uaes_cbc_decryption m buf size key iv mode)) buf
          (xor_block
             (inverse_block (blk m buf) (schedule m key mode) 4 (Nr_of mode))
             (blk m iv)))
  /\ (forall j, 1 <= j < ceil16 size ->
        holds (snd (uaes_cbc_decryption m buf size key iv mode)) (buf + 16 * j)
          (xor_block
             (inverse_block (blk m (buf + 16 * j)) (schedule m key mode) 4
                (Nr_of mode))
             (blk m (buf + 16 * (j - 1))))).
Proof.
  intros Hok. unfold uaes_cbc_decryption. rewrite Hok.
  apply cbc_args_ok_true in Hok. rewrite block_count_ceil16 by lia.
  pose proof (ceil16_bounds size ltac:(lia)) as Hn.
  change uAES_BLOCK_SIZE with 16.
  fold (schedule m key mode). set (w := schedule m key mode).
  destruct (cbc_decryption_loop_spec w (Nk_of mode) 4 (Nr_of mode) buf
              (Z.to_nat (ceil16 size)) m (ceil16 size - 1)
              ltac:(lia) ltac:(lia)) as (Hz & Hout & Hin).
  destruct (cbc_decryption_loop _ m buf w _ _ _ _) as [m1 idx].
  cbn [fst snd] in *. subst idx. rewrite Z.mul_0_r, Z.add_0_r.
  set (mi := uaes_inverse_cipher m1 buf w (Nk_of mode) 4 (Nr_of mode)).
  assert (Hmi : forall a, ~ within buf 16 a -> mi a = m1 a).
  { intros a Ha. unfold mi. now rewrite uaes_inverse_cipher_out by exact Ha. }
  unfold within in *.
  split; [reflexivity|]. split; [|split].
  - intros a Ha. rewrite uaes_xor_iv_out by (unfold within; lia).
    rewrite Hmi by lia. apply Hout. lia.
  - intros Hap i Hi. unfold apart in Hap.
    rewrite (uaes_xor_iv_holds mi buf iv ltac:(unfold apart; lia) i Hi).
    rewrite !xor_block_nth by lia. f_equal.
    + rewrite blk_nth by lia. rewrite Z2Nat.id by lia. unfold mi.
      rewrite (uaes_inverse_cipher_holds m1 buf w _ _ _ i Hi).
      f_equal. f_equal. apply blk_ext. unfold within. intros a Ha.
      apply Hout. lia.
    + f_equal. apply blk_ext. unfold within. intros a Ha.
      rewrite Hmi by lia. apply Hout. lia.
  - intros j Hj i Hi.
    rewrite uaes_xor_iv_out by (unfold within; lia).
    rewrite Hmi by lia. apply Hin; [lia|exact Hi].
Qed.

End WalkFacts.

(** ** The loops of uaes.c against the worded walks *)

Lemma upto_nil (lo hi : Z) : hi <= lo -> upto lo hi = [].
Proof.
  intros H. unfold upto. replace (Z.to_nat (hi - lo)) with 0%nat by lia.
  reflexivity.
Qed.

Lemma upto_cons (lo hi : Z) : lo < hi -> upto lo hi = lo :: upto (lo + 1) hi.
Proof.
  intros H. unfold upto.
  replace (Z.to_nat (hi - lo)) with (S (Z.to_nat (hi - (lo + 1)))) by lia.
  cbn [seq map]. f_equal; [lia|].
  rewrite <- seq_shift, map_map. apply map_ext. intros i. lia.
Qed.

Lemma upto_snoc (lo hi : Z) : lo <= hi -> upto lo (hi + 1) = upto lo hi ++ [hi].
Proof.
  intros H. unfold upto.
  replace (Z.to_nat (hi + 1 - lo)) with (Z.to_nat (hi - lo) + 1)%nat by lia.
  rewrite seq_app, map_app. cbn [seq map]. do 2 f_equal. lia.
Qed.

Section LoopFacts.
Context {ops : Ops}.

Lemma foward_rounds_fold (kschd : list Z) (Nb Nr : Z) (fuel : nat) :
  forall block round, (Z.to_nat (Nr - round) <= fuel)%nat ->
    foward_rounds fuel block kschd round Nb Nr
    = fold_left (full_round kschd Nb) (upto round Nr) block.
Proof.
  induction fuel as [|fuel IH]; intros block round Hfuel.
  - rewrite upto_nil by lia. reflexivity.
  - cbn [foward_rounds]. destruct (Z.ltb_spec round Nr) as [Hlt|Hge].
    + rewrite upto_cons by lia. cbn [fold_left]. apply IH. lia.
    + rewrite upto_nil by lia. reflexivity.
Qed.

Lemma foward_block_worded (block kschd : list Z) (Nb Nr : Z) :
  foward_block block kschd Nb Nr = forward_cipher_worded block kschd Nb Nr.
Proof.
  unfold foward_block, forward_cipher_worded, final_round.
  rewrite foward_rounds_fold by lia. reflexivity.
Qed.

Lemma cbc_encryption_loop_fold (buf : ptr) (kschd : list Z) (Nk Nr offset : Z)
    (fuel : nat) :
  forall m idx, (Z.to_nat (offset - idx) <= fuel)%nat ->
    cbc_encryption_loop fuel m buf kschd Nk 4 Nr offset idx
    = fold_left (cbc_encrypt_block kschd Nk Nr buf) (upto idx offset) m.
Proof.
  induction fuel as [|fuel IH]; intros m idx Hfuel.
  - rewrite upto_nil by lia. reflexivity.
  - cbn [cbc_encryption_loop]. destruct (Z.gtb_spec offset idx) as [Hlt|Hge].
    + rewrite upto_cons by lia. cbn [fold_left]. apply IH. lia.
    + rewrite upto_nil by lia. reflexivity.
Qed.

Lemma cbc_decryption_loop_fold (buf : ptr) (kschd : list Z) (Nk Nr : Z)
    (fuel : nat) :
  forall m idx, 0 <= idx -> (Z.to_nat idx <= fuel)%nat ->
    cbc_decryption_loop fuel m buf kschd Nk 4 Nr idx
    = (fold_left (cbc_decrypt_block kschd Nk Nr buf) (rev (upto 1 (idx + 1))) m,
       0).
Proof.
  induction fuel as [|fuel IH]; intros m idx Hidx Hfuel.
  - assert (idx = 0) as -> by lia. reflexivity.
  - cbn [cbc_decryption_loop]. destruct (Z.gtb_spec idx 0) as [Hlt|Hge].
    + rewrite upto_snoc by lia. rewrite rev_app_distr. cbn [rev app fold_left].
      rewrite IH by lia. replace (idx - 1 + 1) with idx by lia. reflexivity.
    + assert (idx = 0) as -> by lia. reflexivity.
Qed.

End LoopFacts.

(** ** Validation *)

Section Claims.
Context {ops : Ops}.

Lemma valid_guard (e : entry) (c : call) :
  valid e c ->
  (if multi_block e
   then if takes_iv e
        then cbc_args_ok (c_buf c) (c_size c) (c_key c) (c_iv c) (c_mode c)
        else args_ok (c_buf c) (c_size c) (c_key c) (c_mode c)
   else block_args_ok (c_buf c) (c_key c) (c_size c)) = true.
Proof.
  unfold valid, bound. intros (Hk & Hb & Hiv & Hs & Hm).
  destruct e; cbn [multi_block takes_iv] in *;
    first [apply cbc_args_ok_true | apply args_ok_true
          | apply block_args_ok_true];
    change uAES_MAX_INPUT_SIZE with 64 in Hs;
    change uAES_BLOCK_SIZE with 16 in Hs;
    repeat split; auto; try lia; specialize (Hm eq_refl); lia.
Qed.

Lemma invalid_guard (e : entry) (c : call) :
  invalid e c ->
  (if multi_block e
   then if takes_iv e
        then cbc_args_ok (c_buf c) (c_size c) (c_key c) (c_iv c) (c_mode c)
        else args_ok (c_buf c) (c_size c) (c_key c) (c_mode c)
   else block_args_ok (c_buf c) (c_key c) (c_size c)) = false.
Proof.
  unfold invalid, bound. intros H.
  apply not_true_is_false. intros Hg.
  destruct e; cbn [multi_block takes_iv] in *;
    first [apply cbc_args_ok_true in Hg | apply args_ok_true in Hg
          | apply block_args_ok_true in Hg];
    change uAES_MAX_INPUT_SIZE with 64 in H;
    change uAES_BLOCK_SIZE with 16 in H;
    intuition (try discriminate; lia).
Qed.

Lemma run_guard_false (e : entry) (m : mem) (c : call) :
  (if multi_block e
   then if takes_iv e
        then cbc_args_ok (c_buf c) (c_size c) (c_key c) (c_iv c) (c_mode c)
        else args_ok (c_buf c) (c_size c) (c_key c) (c_mode c)
   else block_args_ok (c_buf c) (c_key c) (c_size c)) = false ->
  run e m c = (-1, m).
Proof.
  intros H.
  destruct e; cbn [multi_block takes_iv run] in *;
    unfold uaes_ecb_encryption, uaes_ecb_decryption, uaes_cbc_encryption,
      uaes_cbc_decryption, uaes128enc, uaes192enc, uaes256enc, uaes128dec,
      uaes192dec, uaes256dec, uaes_enc, uaes_dec;
    rewrite H; reflexivity.
Qed.

Lemma run_guard_true (e : entry) (m : mem) (c : call) :
  (if multi_block e
   then if takes_iv e
        then cbc_args_ok (c_buf c) (c_size c) (c_key c) (c_iv c) (c_mode c)
        else args_ok (c_buf c) (c_size c) (c_key c) (c_mode c)
   else block_args_ok (c_buf c) (c_key c) (c_size c)) = true ->
  fst (run e m c) = 0.
Proof.
  intros H.
  destruct e; cbn [multi_block takes_iv run] in *;
    unfold uaes_ecb_encryption, uaes_ecb_decryption, uaes_cbc_encryption,
      uaes_cbc_decryption, uaes128enc, uaes192enc, uaes256enc, uaes128dec,
      uaes192dec, uaes256dec, uaes_enc, uaes_dec;
    rewrite H; try reflexivity.
  destruct (cbc_decryption_loop _ _ _ _ _ _ _ _); reflexivity.
Qed.

(** A call that returns 0 passed the guard of its entry point. *)
Lemma success_guard (e : entry) (m : mem) (c : call) :
  fst (run e m c) = 0 ->
  (if multi_block e
   then if takes_iv e
        then cbc_args_ok (c_buf c) (c_size c) (c_key c) (c_iv c) (c_mode c)
        else args_ok (c_buf c) (c_size c) (c_key c) (c_mode c)
   else block_args_ok (c_buf c) (c_key c) (c_size c)) = true.
Proof.
  intros H. apply not_false_is_true. intros Hg.
  rewrite (run_guard_false e m c Hg) in H. discriminate H.
Qed.

(** C3. A call to any entry point with a null key, data or (CBC) IV
    pointer, a size of 0, a size above the bound of the entry point
    (64 for the multi-block ones, 16 for the single-block ones), or a
    variant tag of 3 or more returns -1 and leaves the whole store, hence
    every caller buffer, as it was; a valid call returns 0. *)
Theorem rejection_leaves_store (e : entry) (m : mem) (c : call) :
  (invalid e c -> run e m c = (-1, m))
  /\ (valid e c -> fst (run e m c) = 0).
Proof.
  split; intros H.
  - apply run_guard_false, invalid_guard, H.
  - apply run_guard_true, valid_guard, H.
Qed.

(** C4. The forward cipher on the block at [buf] is: add_round_key with
    round 0; for each round from 1 to Nr-1, in this order, sub_bytes,
    shift_rows, mix_columns, add_round_key(round); then sub_bytes,
    shift_rows, add_round_key(Nr) without mix_columns; the sixteen bytes
    of the result are written back at [buf] and nothing else is
    written. *)
Theorem foward_cipher_rounds (m : mem) (buf : ptr) (kschd : list Z)
    (Nk Nb Nr : Z) :
  uaes_foward_cipher m buf kschd Nk Nb Nr
  = memcpy_to m buf 16 (forward_cipher_worded (blk m buf) kschd Nb Nr)
  /\ holds (uaes_foward_cipher m buf kschd Nk Nb Nr) buf
       (forward_cipher_worded (blk m buf) kschd Nb Nr)
  /\ (forall a, ~ within buf 16 a ->
        uaes_foward_cipher m buf kschd Nk Nb Nr a = m a).
Proof.
  split; [|split].
  - unfold uaes_foward_cipher. rewrite foward_block_worded. reflexivity.
  - rewrite <- foward_block_worded. apply uaes_foward_cipher_holds.
  - intros a Ha. now apply uaes_foward_cipher_out.
Qed.

(** C5. A valid CBC encryption call walks [ceil(size/16)] blocks in
    increasing order: block 0 is XORed with the IV and then put through
    the forward cipher; each later block [idx] is XORed with block
    [idx-1] as the walk has just left it, the ciphertext of that block,
    and then put through the forward cipher. *)
Theorem cbc_encryption_chain (m : mem) (buf : ptr) (size : Z) (key iv : ptr)
    (mode : Z) :
  valid cbc_encryption (Call buf size key iv mode) ->
  let w := schedule m key mode in
  let r := uaes_cbc_encryption m buf size key iv mode in
  r = (0, cbc_encrypt_worded m buf iv w (Nk_of mode) (Nr_of mode)
            (ceil16 size))
  /\ (apart iv 16 buf 16 ->
      holds (snd r) buf
        (foward_block (xor_block (blk m buf) (blk m iv)) w 4 (Nr_of mode)))
  /\ (forall idx, 1 <= idx < ceil16 size ->
      holds (snd r) (buf + 16 * idx)
        (foward_block
           (xor_block (blk m (buf + 16 * idx))
                      (blk (snd r) (buf + 16 * (idx - 1))))
           w 4 (Nr_of mode))).
Proof.
  intros Hv w r. pose proof (valid_guard _ _ Hv) as Hg.
  cbn [multi_block takes_iv c_buf c_size c_key c_iv c_mode] in Hg.
  destruct (uaes_cbc_encryption_spec m buf size key iv mode Hg)
    as (_ & _ & H0 & Hi).
  split; [|split; assumption].
  subst r. unfold uaes_cbc_encryption. rewrite Hg.
  apply cbc_args_ok_true in Hg. rewrite block_count_ceil16 by lia.
  rewrite cbc_encryption_loop_fold by lia.
  unfold cbc_encrypt_worded. change uAES_BLOCK_SIZE with 16.
  rewrite Z.mul_0_r, Z.add_0_r. reflexivity.
Qed.

(** C6. A valid CBC decryption call walks the blocks in decreasing
    order: for [idx] from [ceil(size/16) - 1] down to 1 the inverse
    cipher is applied to block [idx], which is then XORed with block
    [idx-1], still the ciphertext the call was given; last, the inverse
    cipher is applied to block 0, which is then XORed with the IV. *)
Theorem cbc_decryption_chain (m : mem) (buf : ptr) (size : Z) (key iv : ptr)
    (mode : Z) :
  valid cbc_decryption (Call buf size key iv mode) ->
  let w := schedule m key mode in
  let r := uaes_cbc_decryption m buf size key iv mode in
  r = (0, cbc_decrypt_worded m buf iv w (Nk_of mode) (Nr_of mode)
            (ceil16 size))
  /\ (forall idx, 1 <= idx < ceil16 size ->
      holds (snd r) (buf + 16 * idx)
        (xor_block (inverse_block (blk m (buf + 16 * idx)) w 4 (Nr_of mode))
                   (blk m (buf + 16 * (idx - 1)))))
  /\ (apart iv 16 buf (16 * ceil16 size) ->
      holds (snd r) buf
        (xor_block (inverse_block (blk m buf) w 4 (Nr_of mode)) (blk m iv))).
Proof.
  intros Hv w r. pose proof (valid_guard _ _ Hv) as Hg.
  cbn [multi_block takes_iv c_buf c_size c_key c_iv c_mode] in Hg.
  destruct (uaes_cbc_decryption_spec m buf size key iv mode Hg)
    as (_ & _ & H0 & Hi).
  split; [|split; assumption].
  subst r. unfold uaes_cbc_decryption. rewrite Hg.
  apply cbc_args_ok_true in Hg. rewrite block_count_ceil16 by lia.
  pose proof (ceil16_bounds size ltac:(lia)) as Hn.
  rewrite cbc_decryption_loop_fold by lia.
  unfold cbc_decrypt_worded. change uAES_BLOCK_SIZE with 16.
  rewrite Z.mul_0_r, Z.add_0_r.
  replace (ceil16 size - 1 + 1) with (ceil16 size) by lia. reflexivity.
Qed.

(** C7. A single-block entry point called with non-null key and buffer
    and a size [s] between 1 and 16 returns 0, leaves at the buffer the
    single-block cipher of all sixteen bytes that were there, whatever
    [s] is, and writes nothing else; with [s = 0] or [s > 16] it returns
    -1 and writes nothing. *)
Theorem single_block_whole (e : entry) (m : mem) (buf key iv : ptr)
    (s mode : Z) :
  multi_block e = false -> key <> NULL -> buf <> NULL ->
  (1 <= s <= 16 ->
     run e m (Call buf s key iv mode)
     = (0, memcpy_to m buf 16 (single_block_result e m buf key))
     /\ holds (snd (run e m (Call buf s key iv mode))) buf
          (single_block_result e m buf key)
     /\ (forall a, ~ within buf 16 a ->
           snd (run e m (Call buf s key iv mode)) a = m a))
  /\ (s = 0 \/ s > 16 -> run e m (Call buf s key iv mode) = (-1, m)).
Proof.
  intros He Hk Hb. split.
  - intros Hs.
    assert (Hg : block_args_ok buf key s = true)
      by (apply block_args_ok_true; repeat split; auto; lia).
    assert (Hr : run e m (Call buf s key iv mode)
                 = (0, memcpy_to m buf 16 (single_block_result e m buf key))).
    { destruct e; try discriminate He;
        cbn [run c_buf c_size c_key c_iv c_mode];
        unfold uaes128enc, uaes192enc, uaes256enc, uaes128dec, uaes192dec,
          uaes256dec, uaes_enc, uaes_dec; rewrite Hg; reflexivity. }
    rewrite Hr. cbn [snd]. split; [reflexivity|]. split.
    + intros i Hi. now apply memcpy_to_in.
    + intros a Ha. now apply memcpy_to_out.
  - intros Hs.
    assert (Hi : invalid e (Call buf s key iv mode)).
    { unfold invalid, bound. rewrite He. cbn [c_size].
      change uAES_BLOCK_SIZE with 16. lia. }
    apply invalid_guard in Hi. rewrite He in Hi.
    destruct e; try discriminate He;
      cbn [run c_buf c_size c_key c_iv c_mode] in *;
      unfold uaes128enc, uaes192enc, uaes256enc, uaes128dec, uaes192dec,
        uaes256dec, uaes_enc, uaes_dec; rewrite Hi; reflexivity.
Qed.

Lemma multi_block_frame (e : entry) (m : mem) (c : call) :
  multi_block e = true -> fst (run e m c) = 0 ->
  forall a, ~ within (c_buf c) (16 * ceil16 (c_size c)) a ->
    snd (run e m c) a = m a.
Proof.
  intros He Hv. pose proof (success_guard _ _ _ Hv) as Hg. rewrite He in Hg.
  destruct e; try discriminate He; cbn [takes_iv run] in *.
  - now apply uaes_ecb_encryption_spec.
  - now apply uaes_ecb_decryption_spec.
  - now apply uaes_cbc_encryption_spec.
  - now apply uaes_cbc_decryption_spec.
Qed.

(** C9. A successful multi-block call (ECB or CBC, either direction)
    with size [s] writes only inside the first [16 * ceil(s/16)] bytes
    of the data buffer: every byte of the buffer at an offset of
    [16 * ceil(s/16)] or more, and every byte of the store outside that
    region, holds after the call what it held before. *)
Theorem walk_stays_in_blocks (e : entry) (m : mem) (c : call) :
  multi_block e = true -> fst (run e m c) = 0 ->
  (forall off, 16 * ceil16 (c_size c) <= off ->
     snd (run e m c) (c_buf c + off) = m (c_buf c + off))
  /\ (forall a, ~ within (c_buf c) (16 * ceil16 (c_size c)) a ->
        snd (run e m c) a = m a).
Proof.
  intros He Hv. split.
  - intros off Hoff. apply multi_block_frame; try assumption.
    unfold within. lia.
  - now apply multi_block_frame.
Qed.

(** C10. A successful CBC decryption call leaves the sixteen bytes of
    the IV buffer, a buffer of its own that shares no byte with the data
    blocks, as they were: the IV is only read. *)
Theorem cbc_decryption_keeps_iv (m : mem) (buf : ptr) (size : Z)
    (key iv : ptr) (mode : Z) :
  fst (uaes_cbc_decryption m buf size key iv mode) = 0 ->
  apart iv 16 buf (16 * ceil16 size) ->
  blk (snd (uaes_cbc_decryption m buf size key iv mode)) iv = blk m iv
  /\ (forall i, 0 <= i < 16 ->
        snd (uaes_cbc_decryption m buf size key iv mode) (iv + i)
        = m (iv + i)).
Proof.
  intros Hv Hap.
  pose proof (success_guard cbc_decryption m (Call buf size key iv mode) Hv)
    as Hg.
  cbn [multi_block takes_iv c_buf c_size c_key c_iv c_mode] in Hg.
  destruct (uaes_cbc_decryption_spec m buf size key iv mode Hg)
    as (_ & Hout & _).
  unfold apart, within in *. split.
  - apply blk_ext. unfold within. intros a Ha. apply Hout. lia.
  - intros i Hi. apply Hout. lia.
Qed.

End Claims.

(** ** Bytes and the field arithmetic *)

Module RijndaelFacts.
Import Rijndael.

(** A property of bytes that is checked on the 256 of them. *)
Lemma byte_cases (P : Z -> bool) :
  forallb P (map Z.of_nat (seq 0 256)) = true ->
  forall x, byte x -> P x = true.
Proof.
  intros H x Hx. rewrite forallb_forall in H. apply H.
  apply in_map_iff. exists (Z.to_nat x). unfold byte in Hx.
  split; [lia|]. apply in_seq. lia.
Qed.

Lemma byte_land (x : Z) : byte (Z.land x 255).
Proof.
  unfold byte. change 255 with (Z.ones 8). rewrite Z.land_ones by lia.
  apply Z.mod_pos_bound. lia.
Qed.

Lemma byte_land_id (x : Z) : byte x -> Z.land x 255 = x.
Proof.
  unfold byte. intros Hx. change 255 with (Z.ones 8).
  rewrite Z.land_ones by lia. apply Z.mod_small. lia.
Qed.

Lemma land_lxor_distr (x y z : Z) :
  Z.land (Z.lxor x y) z = Z.lxor (Z.land x z) (Z.land y z).
Proof.
  apply Z.bits_inj'. intros n Hn.
  rewrite !Z.lxor_spec, !Z.land_spec, Z.lxor_spec. btauto.
Qed.

Lemma byte_lxor (x y : Z) : byte x -> byte y -> byte (Z.lxor x y).
Proof.
  intros Hx Hy. rewrite <- (byte_land_id x Hx), <- (byte_land_id y Hy).
  rewrite <- land_lxor_distr. apply byte_land.
Qed.

Lemma byte_0 : byte 0.
Proof. unfold byte. lia. Qed.

Lemma InvSBox_SBox (x : Z) : byte x -> InvSBox (SBox x) = x.
Proof.
  intros Hx. apply Z.eqb_eq.
  apply (byte_cases (fun x => InvSBox (SBox x) =? x)); [|exact Hx].
  vm_compute. reflexivity.
Qed.

Lemma byte_SBox (x : Z) : byte x -> byte (SBox x).
Proof.
  intros Hx.
  pose proof (byte_cases (fun x => (0 <=? SBox x) && (SBox x <? 256))
                ltac:(vm_compute; reflexivity) x Hx) as H.
  apply andb_true_iff in H. destruct H as [H1 H2].
  apply Z.leb_le in H1. apply Z.ltb_lt in H2. split; assumption.
Qed.

Lemma byte_InvSBox (x : Z) : byte x -> byte (InvSBox x).
Proof.
  intros Hx.
  pose proof (byte_cases (fun x => (0 <=? InvSBox x) && (InvSBox x <? 256))
                ltac:(vm_compute; reflexivity) x Hx) as H.
  apply andb_true_iff in H. destruct H as [H1 H2].
  apply Z.leb_le in H1. apply Z.ltb_lt in H2. split; assumption.
Qed.

Lemma byte_xtime (x : Z) : byte (xtime x).
Proof. apply byte_land. Qed.

Lemma xtime_lxor (x y : Z) : xtime (Z.lxor x y) = Z.lxor (xtime x) (xtime y).
Proof.
  unfold xtime. rewrite Z.lxor_spec, Z.shiftl_lxor.
  destruct (Z.testbit x 7), (Z.testbit y 7); cbn [xorb];
    apply Z.bits_inj'; intros n Hn;
    repeat rewrite ?Z.land_spec, ?Z.lxor_spec, ?Z.bits_0; btauto.
Qed.

Lemma gmul_fuel_lxor (fuel : nat) :
  forall k x y, gmul_fuel fuel k (Z.lxor x y)
                = Z.lxor (gmul_fuel fuel k x) (gmul_fuel fuel k y).
Proof.
  induction fuel as [|fuel IH]; intros k x y; [reflexivity|].
  cbn [gmul_fuel]. rewrite xtime_lxor, IH.
  destruct (Z.testbit k 0); apply Z.bits_inj'; intros n Hn;
    rewrite !Z.lxor_spec; try rewrite Z.bits_0; btauto.
Qed.

Lemma gmul_lxor (k x y : Z) :
  gmul k (Z.lxor x y) = Z.lxor (gmul k x) (gmul k y).
Proof. apply gmul_fuel_lxor. Qed.

Lemma byte_gmul_fuel (fuel : nat) :
  forall k x, byte x -> byte (gmul_fuel fuel k x).
Proof.
  induction fuel as [|fuel IH]; intros k x Hx; [apply byte_0|].
  cbn [gmul_fuel]. apply byte_lxor.
  - destruct (Z.testbit k 0); [exact Hx|apply byte_0].
  - apply IH, byte_xtime.
Qed.

Lemma byte_gmul (k x : Z) : byte x -> byte (gmul k x).
Proof. apply byte_gmul_fuel. Qed.

(** Sum over the rows of the row sums, as the sum over the columns of
    the column sums. *)
Lemma lxor_transpose
    (t00 t01 t02 t03 t10 t11 t12 t13 t20 t21 t22 t23 t30 t31 t32 t33 : Z) :
  Z.lxor
    (Z.lxor (Z.lxor (Z.lxor t00 t01) (Z.lxor t02 t03))
            (Z.lxor (Z.lxor t10 t11) (Z.lxor t12 t13)))
    (Z.lxor (Z.lxor (Z.lxor t20 t21) (Z.lxor t22 t23))
            (Z.lxor (Z.lxor t30 t31) (Z.lxor t32 t33)))
  = Z.lxor
      (Z.lxor (Z.lxor (Z.lxor t00 t10) (Z.lxor t20 t30))
              (Z.lxor (Z.lxor t01 t11) (Z.lxor t21 t31)))
      (Z.lxor (Z.lxor (Z.lxor t02 t12) (Z.lxor t22 t32))
              (Z.lxor (Z.lxor t03 t13) (Z.lxor t23 t33))).
Proof.
  apply Z.bits_inj'. intros n Hn. rewrite !Z.lxor_spec. btauto.
Qed.

(** One entry of the product of two matrices of constants, applied to a
    byte: the entry is [1] ([d = true]) or [0]. *)
Lemma product_entry (k0 c0 k1 c1 k2 c2 k3 c3 : Z) (d : bool) :
  forallb (fun a =>
      Z.lxor (Z.lxor (gmul k0 (gmul c0 a)) (gmul k1 (gmul c1 a)))
             (Z.lxor (gmul k2 (gmul c2 a)) (gmul k3 (gmul c3 a)))
      =? (if d then a else 0))
    (map Z.of_nat (seq 0 256)) = true ->
  forall a, byte a ->
    Z.lxor (Z.lxor (gmul k0 (gmul c0 a)) (gmul k1 (gmul c1 a)))
           (Z.lxor (gmul k2 (gmul c2 a)) (gmul k3 (gmul c3 a)))
    = (if d then a else 0).
Proof.
  intros H a Ha. apply Z.eqb_eq.
  exact (byte_cases _ H a Ha).
Qed.

(** The product of the row [k0 k1 k2 k3] with the column
    [MDS * (a0 a1 a2 a3)]. *)
Lemma row_of_product (k0 k1 k2 k3 a0 a1 a2 a3 : Z)
    (c00 c01 c02 c03 c10 c11 c12 c13 c20 c21 c22 c23 c30 c31 c32 c33 : Z) :
  Z.lxor
    (Z.lxor
       (gmul k0 (Z.lxor (Z.lxor (gmul c00 a0) (gmul c01 a1))
                        (Z.lxor (gmul c02 a2) (gmul c03 a3))))
       (gmul k1 (Z.lxor (Z.lxor (gmul c10 a0) (gmul c11 a1))
                        (Z.lxor (gmul c12 a2) (gmul c13 a3)))))
    (Z.lxor
       (gmul k2 (Z.lxor (Z.lxor (gmul c20 a0) (gmul c21 a1))
                        (Z.lxor (gmul c22 a2) (gmul c23 a3))))
       (gmul k3 (Z.lxor (Z.lxor (gmul c30 a0) (gmul c31 a1))
                        (Z.lxor (gmul c32 a2) (gmul c33 a3)))))
  = Z.lxor
      (Z.lxor
         (Z.lxor (Z.lxor (gmul k0 (gmul c00 a0)) (gmul k1 (gmul c10 a0)))
                 (Z.lxor (gmul k2 (gmul c20 a0)) (gmul k3 (gmul c30 a0))))
         (Z.lxor (Z.lxor (gmul k0 (gmul c01 a1)) (gmul k1 (gmul c11 a1)))
                 (Z.lxor (gmul k2 (gmul c21 a1)) (gmul k3 (gmul c31 a1)))))
      (Z.lxor
         (Z.lxor (Z.lxor (gmul k0 (gmul c02 a2)) (gmul k1 (gmul c12 a2)))
                 (Z.lxor (gmul k2 (gmul c22 a2)) (gmul k3 (gmul c32 a2))))
         (Z.lxor (Z.lxor (gmul k0 (gmul c03 a3)) (gmul k1 (gmul c13 a3)))
                 (Z.lxor (gmul k2 (gmul c23 a3)) (gmul k3 (gmul c33 a3))))).
Proof. rewrite !gmul_lxor. apply lxor_transpose. Qed.

End RijndaelFacts.

(** ** The block primitives *)

Module BlockFacts.
Import Rijndael RijndaelFacts.

Lemma tabulate_length (f : nat -> Z) : length (tabulate f) = 16%nat.
Proof. unfold tabulate. now rewrite length_map, length_seq. Qed.

Lemma byte_at_tabulate (f : nat -> Z) (i : nat) :
  (i < 16)%nat -> byte_at (tabulate f) i = f i.
Proof.
  intros Hi. unfold byte_at, tabulate.
  transitivity (nth i (map f (seq 0 16)) (f 0%nat)).
  - apply nth_indep. now rewrite length_map, length_seq.
  - rewrite map_nth, seq_nth by assumption. reflexivity.
Qed.

Lemma tabulate_ext (f g : nat -> Z) :
  (forall i, (i < 16)%nat -> f i = g i) -> tabulate f = tabulate g.
Proof.
  intros H. unfold tabulate. apply map_ext_in. intros i Hi.
  apply in_seq in Hi. apply H. lia.
Qed.

Lemma tabulate_byte_at (b : list Z) :
  length b = 16%nat -> tabulate (byte_at b) = b.
Proof.
  intros Hb. apply block_ext; [apply tabulate_length|assumption|].
  intros i Hi. now apply byte_at_tabulate.
Qed.

Lemma is_block_tabulate (f : nat -> Z) :
  (forall i, (i < 16)%nat -> byte (f i)) -> is_block (tabulate f).
Proof.
  intros H. split; [apply tabulate_length|].
  unfold tabulate. apply Forall_forall. intros x Hx.
  apply in_map_iff in Hx. destruct Hx as (i & <- & Hi).
  apply in_seq in Hi. apply H. lia.
Qed.

Lemma byte_byte_at (b : list Z) (i : nat) : Forall byte b -> byte (byte_at b i).
Proof.
  intros Hb. unfold byte_at.
  destruct (Nat.lt_ge_cases i (length b)) as [Hi|Hi].
  - rewrite Forall_forall in Hb. apply Hb. now apply nth_In.
  - rewrite nth_overflow by assumption. apply byte_0.
Qed.

Lemma is_block_blk (m : mem) (p : ptr) : bytes m -> is_block (blk m p).
Proof.
  intros Hm. split; [apply blk_length|].
  unfold blk, memcpy_from. apply Forall_forall. intros x Hx.
  apply in_map_iff in Hx. destruct Hx as (i & <- & _). apply Hm.
Qed.

Lemma is_block_xor_block (a b : list Z) :
  is_block a -> is_block b -> is_block (xor_block a b).
Proof.
  intros [_ Ha] [_ Hb]. split; [apply xor_block_length|].
  unfold xor_block. apply Forall_forall. intros x Hx.
  apply in_map_iff in Hx. destruct Hx as (i & <- & _).
  apply byte_lxor; [exact (byte_byte_at a i Ha)|exact (byte_byte_at b i Hb)].
Qed.

Lemma xor_block_cancel (a b : list Z) :
  length a = 16%nat -> xor_block (xor_block a b) b = a.
Proof.
  intros Ha. apply block_ext; [apply xor_block_length|assumption|].
  intros i Hi. rewrite !xor_block_nth by assumption.
  now rewrite Z.lxor_assoc, Z.lxor_nilpotent, Z.lxor_0_r.
Qed.

(** *** SubBytes *)

Lemma is_block_sub_block (b : list Z) (Nb : Z) :
  is_block b -> is_block (sub_block b Nb).
Proof.
  intros [_ Hb]. apply is_block_tabulate. intros i _.
  apply byte_SBox, byte_byte_at, Hb.
Qed.

Lemma inv_sub_block_sub_block (b : list Z) (Nb Nb' : Z) :
  is_block b -> inv_sub_block (sub_block b Nb) Nb' = b.
Proof.
  intros [Hl Hb]. rewrite <- (tabulate_byte_at b Hl) at 2.
  apply tabulate_ext. intros i Hi. unfold sub_block.
  rewrite byte_at_tabulate by assumption.
  apply InvSBox_SBox, byte_byte_at, Hb.
Qed.

(** *** ShiftRows *)

Lemma is_block_shift_rows (b : list Z) (Nb : Z) :
  is_block b -> is_block (shift_rows b Nb).
Proof.
  intros [_ Hb]. apply is_block_tabulate. intros i _.
  apply byte_byte_at, Hb.
Qed.

Lemma inv_shift_rows_shift_rows (b : list Z) (Nb Nb' : Z) :
  length b = 16%nat -> inv_shift_rows (shift_rows b Nb) Nb' = b.
Proof.
  intros Hl. rewrite <- (tabulate_byte_at b Hl) at 2.
  apply tabulate_ext. intros i Hi.
  do 16 (destruct i as [|i]; [reflexivity|]). lia.
Qed.

(** *** AddRoundKey *)

Lemma byte_word_byte (w j : Z) : byte (word_byte w j).
Proof. apply byte_land. Qed.

Lemma is_block_add_round_key (b w : list Z) (round Nb : Z) :
  is_block b -> is_block (add_round_key b w round Nb).
Proof.
  intros [_ Hb]. apply is_block_tabulate. intros i _.
  apply byte_lxor; [apply byte_byte_at, Hb|apply byte_word_byte].
Qed.

Lemma add_round_key_twice (b w : list Z) (round Nb : Z) :
  length b = 16%nat ->
  add_round_key (add_round_key b w round Nb) w round Nb = b.
Proof.
  intros Hl. rewrite <- (tabulate_byte_at b Hl) at 2.
  apply tabulate_ext. intros i Hi. unfold add_round_key.
  rewrite byte_at_tabulate by assumption.
  now rewrite Z.lxor_assoc, Z.lxor_nilpotent, Z.lxor_0_r.
Qed.

(** *** MixColumns *)

Lemma byte_mat_row (M : list (list Z)) (b : list Z) (c r : nat) :
  Forall byte b -> byte (mat_row M b c r).
Proof.
  intros Hb. unfold mat_row.
  apply byte_lxor; apply byte_lxor; apply byte_gmul, byte_byte_at, Hb.
Qed.

Lemma is_block_mix_columns (b : list Z) (Nb : Z) :
  is_block b -> is_block (mix_columns b Nb).
Proof.
  intros [_ Hb]. apply is_block_tabulate. intros i _.
  now apply byte_mat_row.
Qed.

(** Rewrites one entry of [InvMDS * MDS], applied to a byte of the
    state, to that byte or to [0], by trying the 256 bytes. *)
Ltac product_entries :=
  repeat match goal with
  | |- context [Z.lxor (Z.lxor (gmul ?k0 (gmul ?c0 ?a)) (gmul ?k1 (gmul ?c1 ?a)))
                       (Z.lxor (gmul ?k2 (gmul ?c2 ?a)) (gmul ?k3 (gmul ?c3 ?a)))] =>
      first
        [ rewrite (product_entry k0 c0 k1 c1 k2 c2 k3 c3 true
                     ltac:(vm_compute; reflexivity) a)
            by (apply byte_byte_at; assumption)
        | rewrite (product_entry k0 c0 k1 c1 k2 c2 k3 c3 false
                     ltac:(vm_compute; reflexivity) a)
            by (apply byte_byte_at; assumption) ]
  end.

Lemma inv_mix_columns_mix_columns (b : list Z) (Nb Nb' : Z) :
  is_block b -> inv_mix_columns (mix_columns b Nb) Nb' = b.
Proof.
  intros [Hl Hb]. rewrite <- (tabulate_byte_at b Hl) at 2.
  apply tabulate_ext. intros i Hi.
  do 16 (destruct i as [|i];
    [etransitivity; [apply row_of_product|]; product_entries;
     cbn [xorb]; rewrite ?Z.lxor_0_r, ?Z.lxor_0_l; reflexivity|]).
  lia.
Qed.

End BlockFacts.

(** ** The inverse cipher undoes the forward cipher *)

Lemma inverse_rounds_fold {ops : Ops} (kschd : list Z) (Nb : Z) (fuel : nat) :
  forall block round, (Z.to_nat round <= fuel)%nat ->
    inverse_rounds fuel block kschd round Nb
    = fold_left (inverse_round kschd Nb) (rev (upto 1 (round + 1))) block.
Proof.
  induction fuel as [|fuel IH]; intros block round Hfuel.
  - rewrite upto_nil by lia. reflexivity.
  - cbn [inverse_rounds]. destruct (Z.gtb_spec round 0) as [Hlt|Hge].
    + rewrite upto_snoc by lia. rewrite rev_app_distr. cbn [rev app fold_left].
      rewrite IH by lia. replace (round - 1 + 1) with round by lia.
      reflexivity.
    + rewrite upto_nil by lia. reflexivity.
Qed.

Module CipherFacts.
Import RijndaelFacts BlockFacts.

Lemma byte_table (t : list Z) (x : Z) :
  forallb (fun y => (0 <=? y) && (y <? 256)) t = true ->
  byte (nth (Z.to_nat x) t 0).
Proof.
  intros H. destruct (Nat.lt_ge_cases (Z.to_nat x) (length t)) as [Hi|Hi].
  - rewrite forallb_forall in H.
    specialize (H _ (nth_In t 0 Hi)). apply andb_true_iff in H.
    destruct H as [H1 H2]. apply Z.leb_le in H1. apply Z.ltb_lt in H2.
    split; assumption.
  - rewrite nth_overflow by assumption. apply byte_0.
Qed.

Lemma byte_SBox_any (x : Z) : byte (Rijndael.SBox x).
Proof. apply byte_table. vm_compute. reflexivity. Qed.

Lemma byte_InvSBox_any (x : Z) : byte (Rijndael.InvSBox x).
Proof. apply byte_table. vm_compute. reflexivity. Qed.

(** Whatever the local array holds, both ciphers leave sixteen bytes. *)
Lemma is_block_foward_block (b w : list Z) (Nb Nr : Z) :
  is_block (foward_block b w Nb Nr).
Proof.
  unfold foward_block. cbn [add_round_key shift_rows sub_block rijndael_ops].
  apply is_block_add_round_key, is_block_shift_rows.
  apply is_block_tabulate. intros i _. apply byte_SBox_any.
Qed.

Lemma is_block_inverse_block (b w : list Z) (Nb Nr : Z) :
  is_block (inverse_block b w Nb Nr).
Proof.
  unfold inverse_block.
  cbn [add_round_key inv_shift_rows inv_sub_block rijndael_ops].
  apply is_block_add_round_key.
  apply is_block_tabulate. intros i _. apply byte_InvSBox_any.
Qed.

Lemma is_block_full_round (w : list Z) (Nb : Z) (b : list Z) (round : Z) :
  is_block b -> is_block (full_round w Nb b round).
Proof.
  intros Hb. unfold full_round.
  cbn [add_round_key mix_columns shift_rows sub_block rijndael_ops].
  now apply is_block_add_round_key, is_block_mix_columns,
    is_block_shift_rows, is_block_sub_block.
Qed.

(** One inverse round, after SubBytes and ShiftRows, undoes one full
    round. *)
Lemma inverse_round_full_round (w : list Z) (b : list Z) (round : Z) :
  is_block b ->
  inverse_round w 4
    (Rijndael.shift_rows (Rijndael.sub_block (full_round w 4 b round) 4) 4)
    round
  = Rijndael.shift_rows (Rijndael.sub_block b 4) 4.
Proof.
  intros Hb. unfold inverse_round, full_round.
  cbn [add_round_key mix_columns shift_rows sub_block inv_mix_columns
       inv_shift_rows inv_sub_block rijndael_ops].
  assert (H1 : is_block (Rijndael.shift_rows (Rijndael.sub_block b 4) 4))
    by now apply is_block_shift_rows, is_block_sub_block.
  assert (H2 : is_block (Rijndael.mix_columns
                           (Rijndael.shift_rows (Rijndael.sub_block b 4) 4) 4))
    by now apply is_block_mix_columns.
  pose proof (is_block_add_round_key _ w round 4 H2) as H3.
  rewrite inv_shift_rows_shift_rows by apply tabulate_length.
  rewrite inv_sub_block_sub_block by exact H3.
  rewrite add_round_key_twice by apply H2.
  now apply inv_mix_columns_mix_columns.
Qed.

Lemma rounds_cancel (w : list Z) (l : list Z) :
  forall b, is_block b ->
    fold_left (inverse_round w 4) (rev l)
      (Rijndael.shift_rows
         (Rijndael.sub_block (fold_left (full_round w 4) l b) 4) 4)
    = Rijndael.shift_rows (Rijndael.sub_block b 4) 4.
Proof.
  induction l as [|r l IH]; intros b Hb; [reflexivity|].
  cbn [rev fold_left]. rewrite fold_left_app. cbn [fold_left].
  rewrite IH by now apply is_block_full_round.
  now apply inverse_round_full_round.
Qed.

Lemma inverse_block_foward_block (b w : list Z) (Nr : Z) :
  is_block b -> inverse_block (foward_block b w 4 Nr) w 4 Nr = b.
Proof.
  intros Hb. unfold inverse_block, foward_block.
  rewrite foward_rounds_fold, inverse_rounds_fold by lia.
  replace (Nr - 1 + 1) with Nr by lia.
  cbn [add_round_key shift_rows sub_block inv_shift_rows inv_sub_block
       rijndael_ops].
  pose proof (is_block_add_round_key b w 0 4 Hb) as H0.
  rewrite add_round_key_twice by apply tabulate_length.
  rewrite rounds_cancel by exact H0.
  rewrite inv_shift_rows_shift_rows by apply tabulate_length.
  rewrite inv_sub_block_sub_block by exact H0.
  apply add_round_key_twice, Hb.
Qed.

Lemma foward_block_inj (b b' w : list Z) (Nr : Z) :
  is_block b -> is_block b' ->
  foward_block b w 4 Nr = foward_block b' w 4 Nr -> b = b'.
Proof.
  intros Hb Hb' H.
  rewrite <- (inverse_block_foward_block b w Nr Hb).
  rewrite <- (inverse_block_foward_block b' w Nr Hb').
  now rewrite H.
Qed.

(** The schedule reads the key bytes and nothing else. *)
Lemma fold_left_ext_in (A B : Type) (f g : A -> B -> A) (l : list B) :
  (forall a x, In x l -> f a x = g a x) ->
  forall a, fold_left f l a = fold_left g l a.
Proof.
  induction l as [|x l IH]; intros H a; [reflexivity|].
  cbn [fold_left]. rewrite H by now left.
  apply IH. intros a' y Hy. apply H. now right.
Qed.

Lemma expand_key_ext (k k' : Z -> Z) (w : list Z) (Nk n : Z) :
  (forall i, 0 <= i < 4 * Nk -> k i = k' i) ->
  Rijndael.expand_key k w Nk n = Rijndael.expand_key k' w Nk n.
Proof.
  intros H. unfold Rijndael.expand_key. f_equal. unfold Rijndael.copy_key.
  apply fold_left_ext_in. intros a i Hi. apply in_seq in Hi.
  rewrite !H by lia. reflexivity.
Qed.

Lemma schedule_ext (m m' : mem) (key : ptr) (mode : Z) :
  (forall a, within key (4 * Nk_of mode) a -> m a = m' a) ->
  schedule m key mode = schedule m' key mode.
Proof.
  intros H. unfold schedule. cbn [key_expansion rijndael_ops].
  unfold Rijndael.key_expansion. apply expand_key_ext.
  intros i Hi. apply H. unfold within. lia.
Qed.

End CipherFacts.

(** ** Round trip, known answer and propagation, on the primitives of
    ops.c *)

Module ModeFacts.
Import RijndaelFacts BlockFacts CipherFacts.

(** An address inside [n] blocks is a byte of one of them. *)
Lemma within_block (buf n a : Z) :
  within buf (16 * n) a ->
  exists j i, 0 <= j < n /\ 0 <= i < 16 /\ a = buf + 16 * j + i.
Proof.
  unfold within. intros Ha.
  exists ((a - buf) / 16), ((a - buf) mod 16).
  pose proof (Z.div_mod (a - buf) 16 ltac:(lia)) as Hd.
  pose proof (Z.mod_pos_bound (a - buf) 16 ltac:(lia)) as Hm.
  repeat split; lia.
Qed.

Lemma bytes_after (m m' : mem) (buf n : Z) :
  bytes m ->
  (forall a, ~ within buf (16 * n) a -> m' a = m a) ->
  (forall j, 0 <= j < n ->
     exists b, Forall byte b /\ holds m' (buf + 16 * j) b) ->
  bytes m'.
Proof.
  intros Hm Hout Hin a.
  destruct (Z.le_gt_cases buf a) as [H1|H1];
    [destruct (Z.lt_ge_cases a (buf + 16 * n)) as [H2|H2]|].
  - destruct (within_block buf n a ltac:(unfold within; lia))
      as (j & i & Hj & Hi & ->).
    destruct (Hin j Hj) as (b & Hb & Hh).
    rewrite <- Z.add_assoc, Z.add_assoc. rewrite (Hh i Hi).
    apply (byte_byte_at b (Z.to_nat i) Hb).
  - rewrite Hout by (unfold within; lia). apply Hm.
  - rewrite Hout by (unfold within; lia). apply Hm.
Qed.

Lemma restored (m m' : mem) (buf n : Z) :
  (forall a, ~ within buf (16 * n) a -> m' a = m a) ->
  (forall j, 0 <= j < n -> holds m' (buf + 16 * j) (blk m (buf + 16 * j))) ->
  forall a, m' a = m a.
Proof.
  intros Hout Hin a.
  destruct (Z.le_gt_cases buf a) as [H1|H1];
    [destruct (Z.lt_ge_cases a (buf + 16 * n)) as [H2|H2]|].
  - destruct (within_block buf n a ltac:(unfold within; lia))
      as (j & i & Hj & Hi & ->).
    rewrite (Hin j Hj i Hi). rewrite blk_nth by lia. f_equal. lia.
  - apply Hout. unfold within. lia.
  - apply Hout. unfold within. lia.
Qed.

Lemma ceil16_multiple (size : Z) : size mod 16 = 0 -> 16 * ceil16 size = size.
Proof.
  intros H. unfold ceil16.
  pose proof (Z.div_mod size 16 ltac:(lia)) as Hd. rewrite H in Hd.
  replace (size + 15) with (15 + size / 16 * 16) by lia.
  rewrite Z.div_add by lia. change (15 / 16) with 0. lia.
Qed.

Lemma ecb_round_trip (m : mem) (buf : ptr) (size : Z) (key : ptr) (mode : Z) :
  bytes m -> args_ok buf size key mode = true ->
  apart key (4 * Nk_of mode) buf (16 * ceil16 size) ->
  fst (uaes_ecb_encryption m buf size key mode) = 0
  /\ fst (uaes_ecb_decryption (snd (uaes_ecb_encryption m buf size key mode))
            buf size key mode) = 0
  /\ forall a,
       snd (uaes_ecb_decryption (snd (uaes_ecb_encryption m buf size key mode))
              buf size key mode) a = m a.
Proof.
  intros Hm Hok Hkey.
  destruct (uaes_ecb_encryption_spec m buf size key mode Hok)
    as (He & Hout1 & Hin1).
  set (m1 := snd (uaes_ecb_encryption m buf size key mode)) in *.
  destruct (uaes_ecb_decryption_spec m1 buf size key mode Hok)
    as (Hd & Hout2 & Hin2).
  set (m2 := snd (uaes_ecb_decryption m1 buf size key mode)) in *.
  assert (Hw : schedule m1 key mode = schedule m key mode).
  { apply schedule_ext. unfold within, apart in *. intros a Ha.
    apply Hout1. unfold within. lia. }
  split; [exact He|]. split; [exact Hd|].
  apply (restored m m2 buf (ceil16 size)).
  - intros a Ha. rewrite Hout2 by exact Ha. now apply Hout1.
  - intros j Hj i Hi. rewrite (Hin2 j Hj i Hi). rewrite Hw.
    rewrite (holds_eq m1 _ _ (proj1 (is_block_foward_block _ _ _ _))
               (Hin1 j Hj)).
    rewrite inverse_block_foward_block by now apply is_block_blk.
    reflexivity.
Qed.

Lemma cbc_encryption_bytes (m : mem) (buf : ptr) (size : Z) (key iv : ptr)
    (mode : Z) :
  bytes m -> cbc_args_ok buf size key iv mode = true ->
  apart iv 16 buf 16 ->
  bytes (snd (uaes_cbc_encryption m buf size key iv mode)).
Proof.
  intros Hm Hok Hiv.
  destruct (uaes_cbc_encryption_spec m buf size key iv mode Hok)
    as (_ & Hout & H0 & Hin).
  apply (bytes_after m _ buf (ceil16 size) Hm Hout).
  intros j Hj. destruct (Z.eq_dec j 0) as [->|Hne].
  - eexists. split; [|rewrite Z.mul_0_r, Z.add_0_r; exact (H0 Hiv)].
    apply is_block_foward_block.
  - eexists. split; [|exact (Hin j ltac:(lia))].
    apply is_block_foward_block.
Qed.

Lemma cbc_round_trip (m : mem) (buf : ptr) (size : Z) (key iv : ptr)
    (mode : Z) :
  bytes m -> cbc_args_ok buf size key iv mode = true ->
  apart key (4 * Nk_of mode) buf (16 * ceil16 size) ->
  apart iv 16 buf (16 * ceil16 size) ->
  fst (uaes_cbc_encryption m buf size key iv mode) = 0
  /\ fst (uaes_cbc_decryption
            (snd (uaes_cbc_encryption m buf size key iv mode))
            buf size key iv mode) = 0
  /\ forall a,
       snd (uaes_cbc_decryption
              (snd (uaes_cbc_encryption m buf size key iv mode))
              buf size key iv mode) a = m a.
Proof.
  intros Hm Hok Hkey Hiv.
  pose proof (proj1 (cbc_args_ok_true _ _ _ _ _) Hok) as Hargs.
  pose proof (ceil16_bounds size ltac:(lia)) as Hn.
  assert (Hiv0 : apart iv 16 buf 16) by (unfold apart in *; lia).
  pose proof (cbc_encryption_bytes m buf size key iv mode Hm Hok Hiv0) as Hm1.
  destruct (uaes_cbc_encryption_spec m buf size key iv mode Hok)
    as (He & Hout1 & H01 & Hin1).
  specialize (H01 Hiv0).
  set (m1 := snd (uaes_cbc_encryption m buf size key iv mode)) in *.
  destruct (uaes_cbc_decryption_spec m1 buf size key iv mode Hok)
    as (Hd & Hout2 & H02 & Hin2).
  specialize (H02 Hiv).
  set (m2 := snd (uaes_cbc_decryption m1 buf size key iv mode)) in *.
  assert (Hw : schedule m1 key mode = schedule m key mode).
  { apply schedule_ext. unfold within, apart in *. intros a Ha.
    apply Hout1. unfold within. lia. }
  assert (Hiv1 : blk m1 iv = blk m iv).
  { apply blk_ext. unfold within, apart in *. intros a Ha.
    apply Hout1. unfold within. lia. }
  split; [exact He|]. split; [exact Hd|].
  apply (restored m m2 buf (ceil16 size)).
  - intros a Ha. rewrite Hout2 by exact Ha. now apply Hout1.
  - intros j Hj i Hi. destruct (Z.eq_dec j 0) as [->|Hne].
    + rewrite Z.mul_0_r, Z.add_0_r in *. rewrite (H02 i Hi), Hw, Hiv1.
      rewrite (holds_eq m1 _ _ (proj1 (is_block_foward_block _ _ _ _)) H01).
      rewrite inverse_block_foward_block
        by (apply is_block_xor_block; now apply is_block_blk).
      rewrite xor_block_cancel by apply blk_length. reflexivity.
    + rewrite (Hin2 j ltac:(lia) i Hi), Hw.
      rewrite (holds_eq m1 _ _ (proj1 (is_block_foward_block _ _ _ _))
                 (Hin1 j ltac:(lia))).
      rewrite inverse_block_foward_block
        by (apply is_block_xor_block; now apply is_block_blk).
      rewrite xor_block_cancel by apply blk_length. reflexivity.
Qed.

(** C1. For each variant, a key of the matching length, a data buffer
    whose length is a multiple of 16 and at most 64, and (CBC) a 16-byte
    IV, the buffers sharing no byte with the data: decrypting what the
    encryption entry point left, with the same key (and IV), succeeds
    and restores the data, and the whole store, exactly, in ECB and in
    CBC. *)
Theorem decryption_restores (m : mem) (buf : ptr) (size : Z) (key iv : ptr)
    (mode : Z) :
  bytes m ->
  0 <= mode < 3 -> key <> NULL -> buf <> NULL ->
  0 < size <= 64 -> size mod 16 = 0 ->
  apart key (4 * Nk_of mode) buf size ->
  (let e := uaes_ecb_encryption m buf size key mode in
   let d := uaes_ecb_decryption (snd e) buf size key mode in
   fst e = 0 /\ fst d = 0 /\ forall a, snd d a = m a)
  /\ (iv <> NULL -> apart iv 16 buf size ->
      let e := uaes_cbc_encryption m buf size key iv mode in
      let d := uaes_cbc_decryption (snd e) buf size key iv mode in
      fst e = 0 /\ fst d = 0 /\ forall a, snd d a = m a).
Proof.
  intros Hm Hmode Hk Hb Hs H16 Hkey.
  rewrite <- (ceil16_multiple size H16) in Hkey.
  split.
  - apply ecb_round_trip; try assumption.
    apply args_ok_true. repeat split; auto; lia.
  - intros Hiv Hap. rewrite <- (ceil16_multiple size H16) in Hap.
    apply cbc_round_trip; try assumption.
    apply cbc_args_ok_true. repeat split; auto; lia.
Qed.

Lemma zero_store_bytes : bytes zero_store.
Proof. intros a. unfold zero_store, byte. lia. Qed.

Lemma decryption_restores_witness :
  let e := uaes_cbc_encryption zero_store 4096 64 8192 8224 2 in
  let d := uaes_cbc_decryption (snd e) 4096 64 8192 8224 2 in
  fst e = 0 /\ fst d = 0 /\ forall a, snd d a = zero_store a.
Proof.
  apply (decryption_restores zero_store 4096 64 8192 8224 2).
  - exact zero_store_bytes.
  - lia.
  - unfold NULL; lia.
  - unfold NULL; lia.
  - lia.
  - reflexivity.
  - unfold apart. vm_compute. right. discriminate.
  - unfold NULL; lia.
  - unfold apart. vm_compute. right. discriminate.
Defined.

(** C2. AES-128 single-block encryption of the plaintext
    3243f6a8885a308d313198a2e0370734 under the key
    2b7e151628aed2a6abf7158809cf4f3c (FIPS-197, appendix B) returns 0 and
    leaves 3925841d02dc09fbdc118597196a0b32 in the buffer. *)
Theorem fips197_appendix_b (m : mem) (buf key : ptr) :
  key <> NULL -> buf <> NULL ->
  memcpy_from m key 16 = fips_key ->
  memcpy_from m buf 16 = fips_plaintext ->
  fst (uaes128enc m buf key 16) = 0
  /\ memcpy_from (snd (uaes128enc m buf key 16)) buf 16 = fips_ciphertext.
Proof.
  intros Hk Hb Hkey Hpt.
  assert (Hg : block_args_ok buf key 16 = true)
    by (apply block_args_ok_true; repeat split; auto; lia).
  unfold uaes128enc, uaes_enc. rewrite Hg. cbn [fst snd].
  split; [reflexivity|].
  apply (holds_eq _ buf fips_ciphertext eq_refl).
  intros i Hi. rewrite uaes_foward_cipher_holds by exact Hi.
  f_equal. unfold blk. change (Z.to_nat uAES_BLOCK_SIZE) with 16%nat.
  rewrite Hpt. cbn [key_expansion rijndael_ops].
  unfold Rijndael.key_expansion.
  rewrite (expand_key_ext _ (fun i => nth (Z.to_nat i) fips_key 0)).
  - vm_compute. reflexivity.
  - intros j Hj. rewrite <- Hkey.
    rewrite memcpy_from_nth by lia. f_equal. lia.
Qed.

Lemma fips197_appendix_b_witness :
  fst (uaes128enc fips_store 4112 4096 16) = 0
  /\ memcpy_from (snd (uaes128enc fips_store 4112 4096 16)) 4112 16
     = fips_ciphertext.
Proof.
  apply (fips197_appendix_b fips_store 4112 4096).
  - unfold NULL; lia.
  - unfold NULL; lia.
  - vm_compute; reflexivity.
  - vm_compute; reflexivity.
Defined.

Lemma xor_block_comm (a b : list Z) : xor_block a b = xor_block b a.
Proof.
  unfold xor_block. apply map_ext. intros i. apply Z.lxor_comm.
Qed.

Lemma xor_block_inj_l (a a' b : list Z) :
  length a = 16%nat -> length a' = 16%nat ->
  xor_block a b = xor_block a' b -> a = a'.
Proof.
  intros Ha Ha' H. rewrite <- (xor_block_cancel a b Ha).
  rewrite <- (xor_block_cancel a' b Ha'). now rewrite H.
Qed.

Lemma xor_block_inj_r (a b b' : list Z) :
  length b = 16%nat -> length b' = 16%nat ->
  xor_block a b = xor_block a b' -> b = b'.
Proof.
  intros Hb Hb' H. rewrite !(xor_block_comm a) in H.
  now apply xor_block_inj_l in H.
Qed.

(** C8. Two data buffers of the same length, a multiple of 16 and at
    most 64, that differ in block [i] and nowhere else, encrypted in CBC
    with the same key and IV (buffers sharing no byte with the data),
    give the same ciphertext blocks before [i] and different ciphertext
    blocks at [i] and at every block after it. *)
Theorem cbc_change_propagates (m m' : mem) (buf : ptr) (size : Z)
    (key iv : ptr) (mode i : Z) :
  bytes m -> bytes m' ->
  0 <= mode < 3 -> key <> NULL -> buf <> NULL -> iv <> NULL ->
  0 < size <= 64 -> size mod 16 = 0 ->
  apart key (4 * Nk_of mode) buf size -> apart iv 16 buf size ->
  0 <= i < ceil16 size ->
  (forall a, ~ within (buf + 16 * i) 16 a -> m' a = m a) ->
  blk m' (buf + 16 * i) <> blk m (buf + 16 * i) ->
  let c := snd (uaes_cbc_encryption m buf size key iv mode) in
  let c' := snd (uaes_cbc_encryption m' buf size key iv mode) in
  (forall j, 0 <= j < i -> blk c' (buf + 16 * j) = blk c (buf + 16 * j))
  /\ (forall j, i <= j < ceil16 size ->
        blk c' (buf + 16 * j) <> blk c (buf + 16 * j)).
Proof.
  intros Hm Hm' Hmode Hk Hb Hiv Hs H16 Hkey Hivap Hi Hsame Hdiff c c'.
  rewrite <- (ceil16_multiple size H16) in Hkey, Hivap.
  assert (Hok : cbc_args_ok buf size key iv mode = true)
    by (apply cbc_args_ok_true; repeat split; auto; lia).
  assert (Hiv0 : apart iv 16 buf 16).
  { pose proof (ceil16_bounds size Hs). unfold apart in *. lia. }
  destruct (uaes_cbc_encryption_spec m buf size key iv mode Hok)
    as (_ & _ & H0 & Hin).
  destruct (uaes_cbc_encryption_spec m' buf size key iv mode Hok)
    as (_ & _ & H0' & Hin').
  specialize (H0 Hiv0). specialize (H0' Hiv0).
  fold c in H0, Hin. fold c' in H0', Hin'.
  assert (Hw : schedule m' key mode = schedule m key mode).
  { apply schedule_ext. unfold within, apart in *. intros a Ha.
    apply Hsame. unfold within. lia. }
  assert (HIV : blk m' iv = blk m iv).
  { apply blk_ext. unfold within, apart in *. intros a Ha.
    apply Hsame. unfold within. lia. }
  assert (HP : forall j, j <> i -> blk m' (buf + 16 * j) = blk m (buf + 16 * j)).
  { intros j Hj. apply blk_ext. unfold within. intros a Ha.
    apply Hsame. unfold within. lia. }
  rewrite Hw, HIV in *.
  set (w := schedule m key mode) in *.
  assert (HC0 : blk c buf
                = foward_block (xor_block (blk m buf) (blk m iv)) w 4
                    (Nr_of mode))
    by (apply holds_eq; [apply is_block_foward_block|exact H0]).
  assert (HC0' : blk c' buf
                 = foward_block (xor_block (blk m' buf) (blk m iv)) w 4
                     (Nr_of mode))
    by (apply holds_eq; [apply is_block_foward_block|exact H0']).
  assert (HC : forall j, 1 <= j < ceil16 size ->
             blk c (buf + 16 * j)
             = foward_block (xor_block (blk m (buf + 16 * j))
                               (blk c (buf + 16 * (j - 1)))) w 4 (Nr_of mode))
    by (intros j Hj; apply holds_eq;
        [apply is_block_foward_block|exact (Hin j Hj)]).
  assert (HC' : forall j, 1 <= j < ceil16 size ->
             blk c' (buf + 16 * j)
             = foward_block (xor_block (blk m' (buf + 16 * j))
                               (blk c' (buf + 16 * (j - 1)))) w 4 (Nr_of mode))
    by (intros j Hj; apply holds_eq;
        [apply is_block_foward_block|exact (Hin' j Hj)]).
  clear H0 H0' Hin Hin'.
  assert (Hall : forall k : nat, Z.of_nat k < ceil16 size ->
            (Z.of_nat k < i ->
               blk c' (buf + 16 * Z.of_nat k) = blk c (buf + 16 * Z.of_nat k))
            /\ (i <= Z.of_nat k ->
               blk c' (buf + 16 * Z.of_nat k) <> blk c (buf + 16 * Z.of_nat k))).
  { induction k as [|k IH]; intros Hk'.
    - change (Z.of_nat 0) with 0. rewrite Z.mul_0_r, Z.add_0_r.
      rewrite HC0, HC0'. split.
      + intros Hlt. specialize (HP 0 ltac:(lia)).
        rewrite Z.mul_0_r, Z.add_0_r in HP. now rewrite HP.
      + intros Hle. assert (i = 0) as -> by lia.
        rewrite Z.mul_0_r, Z.add_0_r in Hdiff. intros Heq.
        apply foward_block_inj in Heq;
          try (apply is_block_xor_block; now apply is_block_blk).
        apply xor_block_inj_l in Heq; try apply blk_length.
        now apply Hdiff.
    - destruct (IH ltac:(lia)) as [IHeq IHne]. clear IH.
      rewrite (HC (Z.of_nat (S k))), (HC' (Z.of_nat (S k))) by lia.
      replace (Z.of_nat (S k) - 1) with (Z.of_nat k) by lia.
      split.
      + intros Hlt. rewrite IHeq by lia. now rewrite HP by lia.
      + intros Hle. intros Heq.
        apply foward_block_inj in Heq;
          try (apply is_block_xor_block;
               [now apply is_block_blk|split; [apply blk_length|]]).
        * destruct (Z.eq_dec (Z.of_nat (S k)) i) as [He|He].
          -- rewrite IHeq in Heq by lia.
             apply xor_block_inj_l in Heq; try apply blk_length.
             apply Hdiff. now rewrite <- He.
          -- rewrite HP in Heq by lia.
             apply xor_block_inj_r in Heq; try apply blk_length.
             apply IHne; [lia|exact Heq].
        * apply (is_block_blk c').
          now apply cbc_encryption_bytes.
        * apply (is_block_blk c).
          now apply cbc_encryption_bytes. }
  split.
  - intros j Hj. replace j with (Z.of_nat (Z.to_nat j)) by lia.
    apply Hall; lia.
  - intros j Hj. replace j with (Z.of_nat (Z.to_nat j)) by lia.
    apply Hall; lia.
Qed.

End ModeFacts.

(** ** The statements at concrete calls *)

Lemma rejection_leaves_store_witness :
  (invalid cbc_encryption (Call 4096 0 8192 8224 0)
   /\ run cbc_encryption zero_store (Call 4096 0 8192 8224 0)
      = (-1, zero_store))
  /\ (valid cbc_encryption (Call 4096 64 8192 8224 0)
      /\ fst (run cbc_encryption zero_store (Call 4096 64 8192 8224 0)) = 0).
Proof.
  assert (Hi : invalid cbc_encryption (Call 4096 0 8192 8224 0))
    by (unfold invalid; cbn; tauto).
  assert (Hv : valid cbc_encryption (Call 4096 64 8192 8224 0))
    by (unfold valid, bound, NULL; cbn; intuition (try discriminate; lia)).
  split; split; try assumption.
  - exact (proj1 (rejection_leaves_store cbc_encryption zero_store _) Hi).
  - exact (proj2 (rejection_leaves_store cbc_encryption zero_store _) Hv).
Defined.

Lemma cbc_encryption_chain_witness :
  valid cbc_encryption (Call 4096 64 8192 8224 0)
  /\ fst (uaes_cbc_encryption zero_store 4096 64 8192 8224 0) = 0.
Proof.
  assert (Hv : valid cbc_encryption (Call 4096 64 8192 8224 0))
    by (unfold valid, bound, NULL; cbn; intuition (try discriminate; lia)).
  split; [exact Hv|].
  destruct (cbc_encryption_chain zero_store 4096 64 8192 8224 0 Hv) as [H _].
  rewrite H. reflexivity.
Defined.

Lemma cbc_decryption_chain_witness :
  valid cbc_decryption (Call 4096 64 8192 8224 0)
  /\ fst (uaes_cbc_decryption zero_store 4096 64 8192 8224 0) = 0.
Proof.
  assert (Hv : valid cbc_decryption (Call 4096 64 8192 8224 0))
    by (unfold valid, bound, NULL; cbn; intuition (try discriminate; lia)).
  split; [exact Hv|].
  destruct (cbc_decryption_chain zero_store 4096 64 8192 8224 0 Hv) as [H _].
  rewrite H. reflexivity.
Defined.

Lemma single_block_whole_witness :
  run enc192 zero_store (Call 4096 5 8192 0 0)
  = (0, memcpy_to zero_store 4096 16
          (single_block_result enc192 zero_store 4096 8192))
  /\ run enc192 zero_store (Call 4096 17 8192 0 0) = (-1, zero_store).
Proof.
  destruct (single_block_whole enc192 zero_store 4096 8192 0 5 0 eq_refl
              ltac:(unfold NULL; lia) ltac:(unfold NULL; lia)) as [H5 _].
  destruct (single_block_whole enc192 zero_store 4096 8192 0 17 0 eq_refl
              ltac:(unfold NULL; lia) ltac:(unfold NULL; lia)) as [_ H17].
  split.
  - exact (proj1 (H5 ltac:(lia))).
  - apply H17. right. lia.
Defined.

Lemma walk_stays_in_blocks_witness :
  fst (run ecb_decryption zero_store (Call 4096 20 8192 0 1)) = 0
  /\ snd (run ecb_decryption zero_store (Call 4096 20 8192 0 1)) (4096 + 32)
     = zero_store (4096 + 32).
Proof.
  assert (H0 : fst (run ecb_decryption zero_store (Call 4096 20 8192 0 1)) = 0)
    by (vm_compute; reflexivity).
  split; [exact H0|].
  apply (proj1 (walk_stays_in_blocks ecb_decryption zero_store
                  (Call 4096 20 8192 0 1) eq_refl H0) 32).
  vm_compute. discriminate.
Defined.

Lemma cbc_decryption_keeps_iv_witness :
  fst (uaes_cbc_decryption zero_store 4096 64 8192 8224 0) = 0
  /\ apart 8224 16 4096 (16 * ceil16 64)
  /\ blk (snd (uaes_cbc_decryption zero_store 4096 64 8192 8224 0)) 8224
     = blk zero_store 8224.
Proof.
  assert (H0 : fst (uaes_cbc_decryption zero_store 4096 64 8192 8224 0) = 0)
    by (vm_compute; reflexivity).
  assert (Ha : apart 8224 16 4096 (16 * ceil16 64))
    by (unfold apart; vm_compute; right; discriminate).
  split; [exact H0|]. split; [exact Ha|].
  exact (proj1 (cbc_decryption_keeps_iv zero_store 4096 64 8192 8224 0 H0 Ha)).
Defined.

Lemma changed_store_bytes : bytes (upd zero_store 4115 1).
Proof.
  intros a. unfold upd, zero_store, byte. destruct (a =? 4115); lia.
Qed.

Lemma cbc_change_propagates_witness :
  let c := snd (uaes_cbc_encryption zero_store 4096 64 8192 8224 0) in
  let c' := snd (uaes_cbc_encryption (upd zero_store 4115 1) 4096 64 8192
                   8224 0) in
  (forall j, 0 <= j < 1 -> blk c' (4096 + 16 * j) = blk c (4096 + 16 * j))
  /\ (forall j, 1 <= j < ceil16 64 ->
        blk c' (4096 + 16 * j) <> blk c (4096 + 16 * j)).
Proof.
  apply (ModeFacts.cbc_change_propagates zero_store (upd zero_store 4115 1)
           4096 64 8192 8224 0 1).
  - exact ModeFacts.zero_store_bytes.
  - exact changed_store_bytes.
  - lia.
  - unfold NULL; lia.
  - unfold NULL; lia.
  - unfold NULL; lia.
  - lia.
  - reflexivity.
  - unfold apart. vm_compute. right. discriminate.
  - unfold apart. vm_compute. right. discriminate.
  - change (ceil16 64) with 4. lia.
  - intros a Ha. unfold upd. destruct (Z.eqb_spec a 4115) as [->|]; [|reflexivity].
    exfalso. apply Ha. unfold within. lia.
  - vm_compute. discriminate.
Defined.

(** * More of uaes.c *)

(** ** The XOR helper, the inverse cipher and the ECB walk *)

Section MoreDriver.
Context {ops : Ops}.

(** X1. On two regions that do not overlap, [uaes_xor_iv] applied twice
    with the same second argument leaves the whole store as it was. *)
Theorem uaes_xor_iv_twice (m : mem) (p iv : ptr) :
  apart iv 16 p 16 ->
  forall a, uaes_xor_iv (uaes_xor_iv m p iv) p iv a = m a.
Proof.
  intros Hap a.
  destruct (Z.le_gt_cases p a) as [H1|H1];
    [destruct (Z.lt_ge_cases a (p + 16)) as [H2|H2]|].
  - replace a with (p + (a - p)) by lia.
    rewrite !uaes_xor_iv_in by (try assumption; lia).
    rewrite (uaes_xor_iv_out m p iv (iv + (a - p)))
      by (unfold within, apart in *; lia).
    now rewrite Z.lxor_assoc, Z.lxor_nilpotent, Z.lxor_0_r.
  - rewrite !uaes_xor_iv_out by (unfold within; lia). reflexivity.
  - rewrite !uaes_xor_iv_out by (unfold within; lia). reflexivity.
Qed.


(** X3. After an ECB call that returned 0, each of the [ceil(size/16)]
    blocks holds the cipher (forward for encryption, inverse for
    decryption) of what the same block held before the call, under the
    one schedule of the call: no block depends on another. *)
Theorem ecb_block_by_block (m : mem) (buf : ptr) (size : Z) (key : ptr)
    (mode : Z) :
  (fst (uaes_ecb_encryption m buf size key mode) = 0 ->
   forall j, 0 <= j < ceil16 size ->
     holds (snd (uaes_ecb_encryption m buf size key mode)) (buf + 16 * j)
       (foward_block (blk m (buf + 16 * j)) (schedule m key mode) 4
          (Nr_of mode)))
  /\ (fst (uaes_ecb_decryption m buf size key mode) = 0 ->
      forall j, 0 <= j < ceil16 size ->
        holds (snd (uaes_ecb_decryption m buf size key mode)) (buf + 16 * j)
          (inverse_block (blk m (buf + 16 * j)) (schedule m key mode) 4
             (Nr_of mode))).
Proof.
  split; intros H0.
  - pose proof (success_guard ecb_encryption m (Call buf size key 0 mode) H0)
      as Hg.
    now apply uaes_ecb_encryption_spec.
  - pose proof (success_guard ecb_decryption m (Call buf size key 0 mode) H0)
      as Hg.
    now apply uaes_ecb_decryption_spec.
Qed.

(** X4. ECB encryption shows which plaintext blocks repeat: two blocks
    of the buffer that hold the same sixteen bytes before a successful
    call hold the same sixteen bytes after it. *)
Theorem ecb_repeats_show (m : mem) (buf : ptr) (size : Z) (key : ptr)
    (mode j k : Z) :
  fst (uaes_ecb_encryption m buf size key mode) = 0 ->
  0 <= j < ceil16 size -> 0 <= k < ceil16 size ->
  blk m (buf + 16 * j) = blk m (buf + 16 * k) ->
  blk (snd (uaes_ecb_encryption m buf size key mode)) (buf + 16 * j)
  = blk (snd (uaes_ecb_encryption m buf size key mode)) (buf + 16 * k).
Proof.
  intros H0 Hj Hk Heq.
  pose proof (success_guard ecb_encryption m (Call buf size key 0 mode) H0)
    as Hg.
  destruct (uaes_ecb_encryption_spec m buf size key mode Hg) as (_ & _ & Hin).
  apply block_ext; try apply blk_length.
  intros i Hi. rewrite !blk_nth by assumption.
  rewrite (Hin j Hj (Z.of_nat i)), (Hin k Hk (Z.of_nat i)) by lia.
  now rewrite Heq.
Qed.

(** X5. ECB is local: when two stores give the same schedule and differ
    inside block [i] of the buffer only, what a successful ECB call
    (either direction) leaves differs inside block [i] only. *)
Theorem ecb_change_stays_local (m m' : mem) (buf : ptr) (size : Z)
    (key : ptr) (mode i : Z) :
  0 <= i < ceil16 size ->
  schedule m' key mode = schedule m key mode ->
  (forall a, ~ within (buf + 16 * i) 16 a -> m' a = m a) ->
  (fst (uaes_ecb_encryption m buf size key mode) = 0 ->
   forall a, ~ within (buf + 16 * i) 16 a ->
     snd (uaes_ecb_encryption m' buf size key mode) a
     = snd (uaes_ecb_encryption m buf size key mode) a)
  /\ (fst (uaes_ecb_decryption m buf size key mode) = 0 ->
      forall a, ~ within (buf + 16 * i) 16 a ->
        snd (uaes_ecb_decryption m' buf size key mode) a
        = snd (uaes_ecb_decryption m buf size key mode) a).
Proof.
  intros Hi Hw Hsame.
  assert (Hblk : forall j, j <> i ->
            blk m' (buf + 16 * j) = blk m (buf + 16 * j)).
  { intros j Hj. apply blk_ext. unfold within. intros a Ha.
    apply Hsame. unfold within. lia. }
  split; intros H0 a Ha.
  - pose proof (success_guard ecb_encryption m (Call buf size key 0 mode) H0)
      as Hg. cbn [multi_block takes_iv c_buf c_size c_key c_mode] in Hg.
    destruct (uaes_ecb_encryption_spec m buf size key mode Hg)
      as (_ & Hout & Hin).
    destruct (uaes_ecb_encryption_spec m' buf size key mode Hg)
      as (_ & Hout' & Hin').
    destruct (Z.le_gt_cases buf a) as [H1|H1];
      [destruct (Z.lt_ge_cases a (buf + 16 * ceil16 size)) as [H2|H2]|].
    + destruct (ModeFacts.within_block buf (ceil16 size) a
                  ltac:(unfold within; lia)) as (j & k & Hj & Hk & ->).
      assert (j <> i) by (unfold within in Ha; lia).
      rewrite (Hin j Hj k Hk), (Hin' j Hj k Hk), Hw, Hblk by assumption.
      reflexivity.
    + rewrite Hout, Hout' by (unfold within; lia). now apply Hsame.
    + rewrite Hout, Hout' by (unfold within; lia). now apply Hsame.
  - pose proof (success_guard ecb_decryption m (Call buf size key 0 mode) H0)
      as Hg. cbn [multi_block takes_iv c_buf c_size c_key c_mode] in Hg.
    destruct (uaes_ecb_decryption_spec m buf size key mode Hg)
      as (_ & Hout & Hin).
    destruct (uaes_ecb_decryption_spec m' buf size key mode Hg)
      as (_ & Hout' & Hin').
    destruct (Z.le_gt_cases buf a) as [H1|H1];
      [destruct (Z.lt_ge_cases a (buf + 16 * ceil16 size)) as [H2|H2]|].
    + destruct (ModeFacts.within_block buf (ceil16 size) a
                  ltac:(unfold within; lia)) as (j & k & Hj & Hk & ->).
      assert (j <> i) by (unfold within in Ha; lia).
      rewrite (Hin j Hj k Hk), (Hin' j Hj k Hk), Hw, Hblk by assumption.
      reflexivity.
    + rewrite Hout, Hout' by (unfold within; lia). now apply Hsame.
    + rewrite Hout, Hout' by (unfold within; lia). now apply Hsame.
Qed.

(** X6. In CBC decryption a changed ciphertext block reaches two
    plaintext blocks and no more: when two stores give the same
    schedule and differ inside block [i] of the buffer only, the IV
    buffer sharing no byte with the data, what a successful call leaves
    differs inside blocks [i] and [i+1] only. *)
Theorem cbc_decryption_change_reaches_two (m m' : mem) (buf : ptr)
    (size : Z) (key iv : ptr) (mode i : Z) :
  0 <= i < ceil16 size ->
  schedule m' key mode = schedule m key mode ->
  (forall a, ~ within (buf + 16 * i) 16 a -> m' a = m a) ->
  apart iv 16 buf (16 * ceil16 size) ->
  fst (uaes_cbc_decryption m buf size key iv mode) = 0 ->
  forall a, ~ within (buf + 16 * i) 32 a ->
    snd (uaes_cbc_decryption m' buf size key iv mode) a
    = snd (uaes_cbc_decryption m buf size key iv mode) a.
Proof.
  intros Hi Hw Hsame Hap H0 a Ha.
  assert (Hblk : forall j, j <> i ->
            blk m' (buf + 16 * j) = blk m (buf + 16 * j)).
  { intros j Hj. apply blk_ext. unfold within. intros x Hx.
    apply Hsame. unfold within. lia. }
  assert (Hiv : blk m' iv = blk m iv).
  { apply blk_ext. unfold within, apart in *. intros x Hx.
    apply Hsame. unfold within. lia. }
  pose proof (success_guard cbc_decryption m (Call buf size key iv mode) H0)
    as Hg. cbn [multi_block takes_iv c_buf c_size c_key c_iv c_mode] in Hg.
  destruct (uaes_cbc_decryption_spec m buf size key iv mode Hg)
    as (_ & Hout & Hz & Hin).
  destruct (uaes_cbc_decryption_spec m' buf size key iv mode Hg)
    as (_ & Hout' & Hz' & Hin').
  specialize (Hz Hap). specialize (Hz' Hap).
  destruct (Z.le_gt_cases buf a) as [H1|H1];
    [destruct (Z.lt_ge_cases a (buf + 16 * ceil16 size)) as [H2|H2]|].
  - destruct (ModeFacts.within_block buf (ceil16 size) a
                ltac:(unfold within; lia)) as (j & k & Hj & Hk & ->).
    assert (j <> i /\ j - 1 <> i) as [Hji Hji1]
      by (unfold within in Ha; lia).
    destruct (Z.eq_dec j 0) as [->|Hj0].
    + rewrite Z.mul_0_r, Z.add_0_r in *.
      rewrite (Hz k Hk), (Hz' k Hk), Hw, Hiv.
      specialize (Hblk 0 Hji). rewrite Z.mul_0_r, Z.add_0_r in Hblk.
      now rewrite Hblk.
    + rewrite (Hin j ltac:(lia) k Hk), (Hin' j ltac:(lia) k Hk), Hw.
      now rewrite !Hblk by assumption.
  - rewrite Hout, Hout' by (unfold within; lia). apply Hsame.
    unfold within in *. lia.
  - rewrite Hout, Hout' by (unfold within; lia). apply Hsame.
    unfold within in *. lia.
Qed.

(** X7. No call of any entry point, served or rejected, writes outside
    the blocks it walks: every address outside the footprint of the call
    keeps its value; hence a key buffer, and for the CBC entry points
    an IV buffer, that shares no byte with the footprint is left as it
    was. *)
Theorem writes_stay_in_footprint (e : entry) (m : mem) (c : call) :
  (forall a, ~ within (c_buf c) (footprint e c) a ->
     snd (run e m c) a = m a)
  /\ (apart (c_key c) (key_length e c) (c_buf c) (footprint e c) ->
      forall i, 0 <= i < key_length e c ->
        snd (run e m c) (c_key c + i) = m (c_key c + i))
  /\ (apart (c_iv c) 16 (c_buf c) (footprint e c) ->
      blk (snd (run e m c)) (c_iv c) = blk m (c_iv c)).
Proof.
  assert (Hframe : forall a, ~ within (c_buf c) (footprint e c) a ->
            snd (run e m c) a = m a).
  { intros a Ha.
    destruct (if multi_block e
              then if takes_iv e
                   then cbc_args_ok (c_buf c) (c_size c) (c_key c) (c_iv c)
                          (c_mode c)
                   else args_ok (c_buf c) (c_size c) (c_key c) (c_mode c)
              else block_args_ok (c_buf c) (c_key c) (c_size c)) eqn:Hg.
    - unfold footprint in Ha.
      destruct e; cbn [multi_block takes_iv run] in *.
      + now apply uaes_ecb_encryption_spec.
      + now apply uaes_ecb_decryption_spec.
      + now apply uaes_cbc_encryption_spec.
      + now apply uaes_cbc_decryption_spec.
      + unfold uaes128enc, uaes_enc. rewrite Hg. cbn [snd].
        now apply uaes_foward_cipher_out.
      + unfold uaes192enc, uaes_enc. rewrite Hg. cbn [snd].
        now apply uaes_foward_cipher_out.
      + unfold uaes256enc, uaes_enc. rewrite Hg. cbn [snd].
        now apply uaes_foward_cipher_out.
      + unfold uaes128dec, uaes_dec. rewrite Hg. cbn [snd].
        now apply uaes_inverse_cipher_out.
      + unfold uaes192dec, uaes_dec. rewrite Hg. cbn [snd].
        now apply uaes_inverse_cipher_out.
      + unfold uaes256dec, uaes_dec. rewrite Hg. cbn [snd].
        now apply uaes_inverse_cipher_out.
    - now rewrite (run_guard_false e m c Hg). }
  split; [exact Hframe|]. split.
  - intros Hap i Hi. apply Hframe. unfold within, apart in *. lia.
  - intros Hap. apply blk_ext. unfold within, apart in *. intros a Ha.
    apply Hframe. unfold within. lia.
Qed.

End MoreDriver.

Section MoreDriver2.
Context {ops : Ops}.

(** X8. A multi-block entry point uses the size through the block count
    only: two served calls that differ in the size alone, the two sizes
    having the same [ceil(size/16)], return the same code and leave the
    same store. *)
Theorem size_counts_in_blocks (e : entry) (m : mem) (buf : ptr) (s s' : Z)
    (key iv : ptr) (mode : Z) :
  multi_block e = true ->
  0 < s <= 64 -> 0 < s' <= 64 -> ceil16 s = ceil16 s' ->
  run e m (Call buf s key iv mode) = run e m (Call buf s' key iv mode).
Proof.
  intros He Hs Hs' Hc.
  assert (Hlt : (0 <? s) = (0 <? s'))
    by (transitivity true; [|symmetry]; apply Z.ltb_lt; lia).
  assert (Hge : (uAES_MAX_INPUT_SIZE >=? s) = (uAES_MAX_INPUT_SIZE >=? s'))
    by (transitivity true; [|symmetry]; apply Z.geb_le;
        unfold uAES_MAX_INPUT_SIZE; lia).
  assert (Hb : block_count s = block_count s')
    by (rewrite !block_count_ceil16 by lia; exact Hc).
  destruct e; try discriminate He;
    cbn [run c_buf c_size c_key c_iv c_mode];
    unfold uaes_ecb_encryption, uaes_ecb_decryption, uaes_cbc_encryption,
      uaes_cbc_decryption, args_ok, cbc_args_ok;
    rewrite Hlt, Hge, Hb; reflexivity.
Qed.

Lemma xor_fold_zero (m0 : mem) (p iv : ptr) (l : list Z) :
  zero_block m0 iv -> Forall (fun i => 0 <= i < 16) l ->
  forall m, (forall a, m a = m0 a) ->
    forall a, fold_left (fun m i => xor_at m p iv i) l m a = m0 a.
Proof.
  intros Hz. induction l as [|i l IH]; intros Hl m Hm a; [apply Hm|].
  inversion Hl; subst. cbn [fold_left]. apply IH; [assumption|].
  intros x. unfold xor_at, upd. destruct (Z.eqb_spec x (p + i)) as [->|_].
  - rewrite (Hm (iv + i)), (Hz i) by assumption.
    rewrite Z.lxor_0_r. apply Hm.
  - apply Hm.
Qed.

(** XOR with sixteen zero bytes changes nothing, wherever they lie. *)
Lemma uaes_xor_iv_zero (m : mem) (p iv : ptr) :
  zero_block m iv -> forall a, uaes_xor_iv m p iv a = m a.
Proof.
  intros Hz a. rewrite uaes_xor_iv_fold.
  apply (xor_fold_zero m p iv); try assumption; [|reflexivity].
  apply Forall_forall. intros i Hi. apply in_map_iff in Hi.
  destruct Hi as (j & <- & Hj). apply in_seq in Hj. lia.
Qed.

Lemma uaes_foward_cipher_ext (m m' : mem) (p : ptr) (w : list Z)
    (Nk Nb Nr : Z) :
  (forall a, m a = m' a) ->
  forall a, uaes_foward_cipher m p w Nk Nb Nr a
            = uaes_foward_cipher m' p w Nk Nb Nr a.
Proof.
  intros H a.
  destruct (Z.le_gt_cases p a) as [H1|H1];
    [destruct (Z.lt_ge_cases a (p + 16)) as [H2|H2]|].
  - replace a with (p + (a - p)) by lia.
    rewrite !(uaes_foward_cipher_holds _ p w Nk Nb Nr (a - p)) by lia.
    now rewrite (blk_ext m m' p (fun x _ => H x)).
  - rewrite !uaes_foward_cipher_out by (unfold within; lia). apply H.
  - rewrite !uaes_foward_cipher_out by (unfold within; lia). apply H.
Qed.

(** X9. CBC with an IV of sixteen zero bytes, on a buffer of one block,
    is ECB: for a size of 1 to 16 and non-null pointers, the two
    encryption entry points return the same code and leave the same
    store, and so do the two decryption entry points. *)
Theorem cbc_zero_iv_one_block (m : mem) (buf : ptr) (size : Z)
    (key iv : ptr) (mode : Z) :
  key <> NULL -> buf <> NULL -> iv <> NULL -> 0 < size <= 16 -> mode < 3 ->
  zero_block m iv ->
  (fst (uaes_cbc_encryption m buf size key iv mode)
   = fst (uaes_ecb_encryption m buf size key mode)
   /\ forall a, snd (uaes_cbc_encryption m buf size key iv mode) a
                = snd (uaes_ecb_encryption m buf size key mode) a)
  /\ (apart iv 16 buf 16 ->
      fst (uaes_cbc_decryption m buf size key iv mode)
      = fst (uaes_ecb_decryption m buf size key mode)
      /\ forall a, snd (uaes_cbc_decryption m buf size key iv mode) a
                   = snd (uaes_ecb_decryption m buf size key mode) a).
Proof.
  intros Hk Hb Hiv Hs Hm Hz.
  assert (Hg : args_ok buf size key mode = true)
    by (apply args_ok_true; repeat split; auto; lia).
  assert (Hgc : cbc_args_ok buf size key iv mode = true)
    by (apply cbc_args_ok_true; repeat split; auto; lia).
  assert (Hn : block_count size = 1).
  { rewrite block_count_ceil16 by lia. unfold ceil16.
    pose proof (Z.div_mod (size + 15) 16 ltac:(lia)).
    pose proof (Z.mod_pos_bound (size + 15) 16 ltac:(lia)). lia. }
  split.
  - unfold uaes_cbc_encryption, uaes_ecb_encryption.
    rewrite Hg, Hgc, Hn. cbn [fst snd]. split; [reflexivity|].
    change (Z.to_nat 1) with 1%nat. change (0 + 1) with 1.
    cbn [cbc_encryption_loop ecb_loop].
    change (1 >? 1) with false. change (1 >? 0) with true. cbv iota.
    change (1 >? 0 + 1) with false. cbv iota.
    intros a. apply uaes_foward_cipher_ext. intros x.
    now apply uaes_xor_iv_zero.
  - intros Hap.
    unfold uaes_cbc_decryption, uaes_ecb_decryption.
    rewrite Hg, Hgc, Hn. cbn [fst snd].
    change (Z.to_nat 1) with 1%nat. change (1 - 1) with 0.
    cbn [cbc_decryption_loop ecb_loop].
    change (0 >? 0) with false. change (1 >? 0) with true. cbv iota.
    change (1 >? 0 + 1) with false. cbv iota. cbn [fst snd].
    split; [reflexivity|]. intros a.
    change uAES_BLOCK_SIZE with 16. rewrite Z.mul_0_r, Z.add_0_r.
    apply uaes_xor_iv_zero. intros i Hi.
    rewrite uaes_inverse_cipher_out by (unfold within, apart in *; lia).
    now apply Hz.
Qed.

End MoreDriver2.

(** ** [uaes_strnlen], the trace mask and the header macros *)

Lemma strnlen_loop_spec (m : mem) (str : ptr) (lim : Z) (fuel : nat) :
  forall s, 0 <= s <= lim -> (Z.to_nat (lim - s) <= fuel)%nat ->
    (forall i, 0 <= i < s -> m (str + i) <> 0) ->
    s <= strnlen_loop fuel m str lim s <= lim
    /\ (forall i, 0 <= i < strnlen_loop fuel m str lim s -> m (str + i) <> 0)
    /\ (strnlen_loop fuel m str lim s < lim ->
        m (str + strnlen_loop fuel m str lim s) = 0).
Proof.
  induction fuel as [|fuel IH]; intros s Hs Hfuel Hnz.
  - cbn [strnlen_loop]. split; [lia|]. split; [exact Hnz|]. intros; lia.
  - cbn [strnlen_loop].
    destruct (Z.ltb_spec s lim) as [Hlt|Hge]; cbn [andb].
    + destruct (Z.eqb_spec (m (str + s)) 0) as [H0|H0]; cbn [negb].
      * split; [lia|]. split; [exact Hnz|]. intros _; exact H0.
      * destruct (IH (s + 1) ltac:(lia) ltac:(lia)) as (H1 & H2 & H3).
        { intros i Hi. destruct (Z.eq_dec i s) as [->|]; [exact H0|].
          apply Hnz. lia. }
        split; [lia|]. split; assumption.
    + split; [lia|]. split; [exact Hnz|]. intros; lia.
Qed.

(** X10. [uaes_strnlen] returns the place of the first zero byte of the
    string among its first [lim] bytes, or [lim] when there is none:
    the result is between 0 and [lim], every byte before it is not
    zero, and the byte at it is zero when the result is below [lim]; a
    null string gives 0. *)
Theorem uaes_strnlen_first_zero (m : mem) (str : ptr) (lim : Z) :
  0 <= lim ->
  0 <= uaes_strnlen m str lim <= lim
  /\ (str = NULL -> uaes_strnlen m str lim = 0)
  /\ (str <> NULL ->
      (forall i, 0 <= i < uaes_strnlen m str lim -> m (str + i) <> 0)
      /\ (uaes_strnlen m str lim < lim ->
          m (str + uaes_strnlen m str lim) = 0)).
Proof.
  intros Hlim. unfold uaes_strnlen, NULL.
  destruct (Z.eqb_spec 0 str) as [Hn|Hn]; cbn [negb andb].
  - split; [lia|]. split; [reflexivity|]. intros H. congruence.
  - destruct (Z.ltb_spec 0 lim) as [Hlt|Hge].
    + destruct (strnlen_loop_spec m str lim (Z.to_nat lim) 0
                  ltac:(lia) ltac:(lia) ltac:(intros; lia))
        as (H1 & H2 & H3).
      split; [lia|]. split; [intros H; congruence|]. intros _.
      split; assumption.
    + split; [lia|]. split; [reflexivity|]. intros _.
      split; intros; lia.
Qed.

Lemma byte_bit (t n : Z) :
  byte t -> Z.testbit t n = true -> Z.testbit 255 n = true.
Proof.
  intros Ht Hb. rewrite <- (RijndaelFacts.byte_land_id t Ht) in Hb.
  rewrite Z.land_spec in Hb. now apply andb_true_iff in Hb.
Qed.

(** X11. Under [__uAES_DEBUG__] the trace mask only grows: after any
    sequence of calls of [uaes_set_trace_msk] every bit that was set in
    the mask is still set, every bit below 8 of every argument is set,
    and the last call returned the mask; without [__uAES_DEBUG__] each
    call returns 0 and leaves the mask. *)
Theorem trace_mask_grows (t : Z) (msks : list Z) :
  byte t ->
  let t' := fold_left (fun t msk => snd (uaes_set_trace_msk_debug t msk))
              msks t in
  byte t'
  /\ (forall n, Z.testbit t n = true -> Z.testbit t' n = true)
  /\ (forall msk n, In msk msks -> 0 <= n < 8 ->
        Z.testbit msk n = true -> Z.testbit t' n = true)
  /\ (forall msk, fst (uaes_set_trace_msk_debug t msk)
                  = snd (uaes_set_trace_msk_debug t msk))
  /\ (forall msk, uaes_set_trace_msk t msk = (0, t)).
Proof.
  intros Ht t'. subst t'. revert t Ht.
  induction msks as [|k l IH]; intros t Ht.
  - cbn [fold_left]. split; [exact Ht|]. split; [intros n Hn; exact Hn|].
    split; [intros msk n []|]. split; reflexivity.
  - cbn [fold_left uaes_set_trace_msk_debug snd].
    assert (Hb : byte (Z.land (Z.lor t k) 255))
      by apply RijndaelFacts.byte_land.
    destruct (IH _ Hb) as (H1 & H2 & H3 & _ & _).
    split; [exact H1|]. split; [|split; [|split; reflexivity]].
    + intros n Hn. apply H2.
      rewrite Z.land_spec, Z.lor_spec, Hn, (byte_bit t n Ht Hn). reflexivity.
    + intros msk n [<-|Hin] Hn8 Hbit.
      * apply H2. rewrite Z.land_spec, Z.lor_spec, Hbit, orb_true_r.
        change 255 with (Z.ones 8).
        rewrite Z.testbit_ones_nonneg by lia.
        cbn [andb]. apply Z.ltb_lt. lia.
      * now apply (H3 msk n).
Qed.

Lemma mask_low_bit (n : Z) : 0 <= n -> Z.testbit 255 n = (n <? 8).
Proof.
  intros Hn. change 255 with (Z.ones 8).
  now rewrite Z.testbit_ones_nonneg by lia.
Qed.

Lemma mask_high_bit (n : Z) :
  0 <= n -> Z.testbit 65280 n = (8 <=? n) && (n <? 16).
Proof.
  intros Hn. change 65280 with (Z.shiftl (Z.ones 8) 8).
  destruct (Z.leb_spec 8 n) as [H8|H8]; cbn [andb].
  - rewrite Z.shiftl_spec by lia.
    rewrite Z.testbit_ones_nonneg by lia.
    destruct (Z.ltb_spec (n - 8) 8), (Z.ltb_spec n 16); try reflexivity; lia.
  - rewrite Z.shiftl_spec by lia. apply Z.testbit_neg_r. lia.
Qed.

Lemma mask_word_bit (n : Z) : 0 <= n -> Z.testbit 65535 n = (n <? 16).
Proof.
  intros Hn. change 65535 with (Z.ones 16).
  now rewrite Z.testbit_ones_nonneg by lia.
Qed.

(** X12. The header macros keep the two fields apart: putting a
    value ORs its low eight bits into its own field and leaves the
    other field; so on a header whose two fields are empty, putting a
    size and a crypto mode and getting them back gives the low eight
    bits of each. *)
Theorem header_fields (h kt l : Z) :
  uAES_HEADER_GET_CRYPTO_MODE (uAES_HEADER_PUT_CRYPTO_MODE h kt)
  = Z.lor (uAES_HEADER_GET_CRYPTO_MODE h) (kt mod 256)
  /\ uAES_HEADER_GET_SIZE (uAES_HEADER_PUT_CRYPTO_MODE h kt)
     = uAES_HEADER_GET_SIZE h
  /\ uAES_HEADER_GET_SIZE (uAES_HEADER_PUT_SIZE h l)
     = Z.lor (uAES_HEADER_GET_SIZE h) (l mod 256)
  /\ uAES_HEADER_GET_CRYPTO_MODE (uAES_HEADER_PUT_SIZE h l)
     = uAES_HEADER_GET_CRYPTO_MODE h
  /\ (uAES_HEADER_GET_CRYPTO_MODE h = 0 -> uAES_HEADER_GET_SIZE h = 0 ->
      let h' := uAES_HEADER_PUT_CRYPTO_MODE (uAES_HEADER_PUT_SIZE h l) kt in
      uAES_HEADER_GET_SIZE h' = l mod 256
      /\ uAES_HEADER_GET_CRYPTO_MODE h' = kt mod 256).
Proof.
  assert (Hmod : forall x, x mod 256 = Z.land x 255).
  { intros x. change 255 with (Z.ones 8). now rewrite Z.land_ones by lia. }
  assert (H1 : forall h kt,
            uAES_HEADER_GET_CRYPTO_MODE (uAES_HEADER_PUT_CRYPTO_MODE h kt)
            = Z.lor (uAES_HEADER_GET_CRYPTO_MODE h) (kt mod 256)).
  { clear h kt l. intros h kt. rewrite Hmod.
    unfold uAES_HEADER_GET_CRYPTO_MODE, uAES_HEADER_PUT_CRYPTO_MODE,
      uAES_HEADER_KEY_MSK.
    apply Z.bits_inj'. intros n Hn.
    rewrite Z.lor_spec, !Z.shiftr_spec, !Z.land_spec, Z.lor_spec,
      Z.land_spec, Z.shiftl_spec, Z.land_spec by lia.
    replace (n + 8 - 8) with n by lia.
    rewrite mask_high_bit, mask_word_bit, mask_low_bit by lia.
    destruct (Z.leb_spec 8 (n + 8)), (Z.ltb_spec (n + 8) 16),
      (Z.ltb_spec n 8); try lia; cbn [andb]; btauto. }
  assert (H2 : forall h kt,
            uAES_HEADER_GET_SIZE (uAES_HEADER_PUT_CRYPTO_MODE h kt)
            = uAES_HEADER_GET_SIZE h).
  { clear h kt l. intros h kt.
    unfold uAES_HEADER_GET_SIZE, uAES_HEADER_PUT_CRYPTO_MODE,
      uAES_HEADER_SIZE_MSK.
    apply Z.bits_inj'. intros n Hn.
    rewrite !Z.shiftr_spec, !Z.land_spec, Z.lor_spec, Z.land_spec by lia.
    rewrite Z.add_0_r, mask_low_bit by lia.
    destruct (Z.ltb_spec n 8) as [H8|H8].
    - rewrite Z.shiftl_spec by lia. rewrite (Z.testbit_neg_r _ (n - 8)) by lia.
      btauto.
    - btauto. }
  assert (H3 : forall h l,
            uAES_HEADER_GET_SIZE (uAES_HEADER_PUT_SIZE h l)
            = Z.lor (uAES_HEADER_GET_SIZE h) (l mod 256)).
  { clear h kt l. intros h l. rewrite Hmod.
    unfold uAES_HEADER_GET_SIZE, uAES_HEADER_PUT_SIZE, uAES_HEADER_SIZE_MSK.
    rewrite Z.shiftl_0_r, !Z.shiftr_0_r.
    apply Z.bits_inj'. intros n Hn.
    rewrite Z.lor_spec, !Z.land_spec, Z.lor_spec, !Z.land_spec.
    rewrite mask_word_bit, mask_low_bit by lia.
    destruct (Z.ltb_spec n 16), (Z.ltb_spec n 8); try lia; btauto. }
  assert (H4 : forall h l,
            uAES_HEADER_GET_CRYPTO_MODE (uAES_HEADER_PUT_SIZE h l)
            = uAES_HEADER_GET_CRYPTO_MODE h).
  { clear h kt l. intros h l.
    unfold uAES_HEADER_GET_CRYPTO_MODE, uAES_HEADER_PUT_SIZE,
      uAES_HEADER_KEY_MSK.
    rewrite Z.shiftl_0_r.
    apply Z.bits_inj'. intros n Hn.
    rewrite !Z.shiftr_spec, !Z.land_spec, Z.lor_spec, !Z.land_spec by lia.
    rewrite mask_low_bit by lia.
    destruct (Z.ltb_spec (n + 8) 8); try lia. btauto. }
  split; [apply H1|]. split; [apply H2|]. split; [apply H3|].
  split; [apply H4|].
  intros Hm0 Hs0 h'. subst h'. split.
  - rewrite H2, H3, Hs0. reflexivity.
  - rewrite H1, H4, Hm0. reflexivity.
Qed.

(** ** The forward cipher undoes the inverse cipher *)

Module PermutationFacts.
Import RijndaelFacts BlockFacts CipherFacts.

Lemma SBox_InvSBox (x : Z) : byte x -> Rijndael.SBox (Rijndael.InvSBox x) = x.
Proof.
  intros Hx. apply Z.eqb_eq.
  apply (byte_cases (fun x => Rijndael.SBox (Rijndael.InvSBox x) =? x));
    [|exact Hx].
  vm_compute. reflexivity.
Qed.

Lemma is_block_inv_sub_block (b : list Z) (Nb : Z) :
  is_block (Rijndael.inv_sub_block b Nb).
Proof. apply is_block_tabulate. intros i _. apply byte_InvSBox_any. Qed.

Lemma is_block_inv_shift_rows (b : list Z) (Nb : Z) :
  is_block b -> is_block (Rijndael.inv_shift_rows b Nb).
Proof.
  intros [_ Hb]. apply is_block_tabulate. intros i _.
  apply byte_byte_at, Hb.
Qed.

Lemma is_block_inv_mix_columns (b : list Z) (Nb : Z) :
  is_block b -> is_block (Rijndael.inv_mix_columns b Nb).
Proof.
  intros [_ Hb]. apply is_block_tabulate. intros i _.
  now apply byte_mat_row.
Qed.

Lemma sub_block_inv_sub_block (b : list Z) (Nb Nb' : Z) :
  is_block b -> Rijndael.sub_block (Rijndael.inv_sub_block b Nb) Nb' = b.
Proof.
  intros [Hl Hb]. rewrite <- (tabulate_byte_at b Hl) at 2.
  apply tabulate_ext. intros i Hi. unfold Rijndael.inv_sub_block.
  rewrite byte_at_tabulate by assumption.
  apply SBox_InvSBox, byte_byte_at, Hb.
Qed.

Lemma shift_rows_inv_shift_rows (b : list Z) (Nb Nb' : Z) :
  length b = 16%nat ->
  Rijndael.shift_rows (Rijndael.inv_shift_rows b Nb) Nb' = b.
Proof.
  intros Hl. rewrite <- (tabulate_byte_at b Hl) at 2.
  apply tabulate_ext. intros i Hi.
  do 16 (destruct i as [|i]; [reflexivity|]). lia.
Qed.

Lemma mix_columns_inv_mix_columns (b : list Z) (Nb Nb' : Z) :
  is_block b ->
  Rijndael.mix_columns (Rijndael.inv_mix_columns b Nb) Nb' = b.
Proof.
  intros [Hl Hb]. rewrite <- (tabulate_byte_at b Hl) at 2.
  apply tabulate_ext. intros i Hi.
  do 16 (destruct i as [|i];
    [etransitivity; [apply row_of_product|]; product_entries;
     cbn [xorb]; rewrite ?Z.lxor_0_r, ?Z.lxor_0_l; reflexivity|]).
  lia.
Qed.

Lemma is_block_inverse_round (w : list Z) (Nb : Z) (b : list Z) (round : Z) :
  is_block (inverse_round w Nb b round).
Proof.
  unfold inverse_round.
  cbn [add_round_key inv_mix_columns inv_shift_rows inv_sub_block
       rijndael_ops].
  apply is_block_inv_mix_columns, is_block_add_round_key,
    is_block_inv_sub_block.
Qed.

Lemma is_block_inverse_rounds (w : list Z) (Nb : Z) (l : list Z) :
  forall b, is_block b -> is_block (fold_left (inverse_round w Nb) l b).
Proof.
  induction l as [|r l IH]; intros b Hb; [exact Hb|].
  cbn [fold_left]. apply IH, is_block_inverse_round.
Qed.

(** One full round, after the inverse of SubBytes and ShiftRows, undoes
    one inverse round. *)
Lemma full_round_inverse_round (w : list Z) (b : list Z) (round : Z) :
  is_block b ->
  full_round w 4
    (Rijndael.inv_sub_block
       (Rijndael.inv_shift_rows (inverse_round w 4 b round) 4) 4)
    round
  = Rijndael.inv_sub_block (Rijndael.inv_shift_rows b 4) 4.
Proof.
  intros Hb. unfold inverse_round, full_round.
  cbn [add_round_key mix_columns shift_rows sub_block inv_mix_columns
       inv_shift_rows inv_sub_block rijndael_ops].
  set (x := Rijndael.inv_sub_block (Rijndael.inv_shift_rows b 4) 4).
  assert (Hx : is_block x) by apply is_block_inv_sub_block.
  pose proof (is_block_add_round_key x w round 4 Hx) as Hk.
  pose proof (is_block_inv_mix_columns _ 4 Hk) as Hm.
  rewrite sub_block_inv_sub_block by now apply is_block_inv_shift_rows.
  rewrite shift_rows_inv_shift_rows by apply Hm.
  rewrite mix_columns_inv_mix_columns by exact Hk.
  apply add_round_key_twice, Hx.
Qed.

Lemma fold_left_cons (A B : Type) (f : A -> B -> A) (x : B) (l : list B)
    (a : A) :
  fold_left f (x :: l) a = fold_left f l (f a x).
Proof. reflexivity. Qed.

Lemma fold_left_one (A B : Type) (f : A -> B -> A) (x : B) (a : A) :
  fold_left f [x] a = f a x.
Proof. reflexivity. Qed.

Lemma inverse_rounds_cancel (w : list Z) (l : list Z) :
  forall b, is_block b ->
    fold_left (full_round w 4) l
      (Rijndael.inv_sub_block
         (Rijndael.inv_shift_rows
            (fold_left (inverse_round w 4) (rev l) b) 4) 4)
    = Rijndael.inv_sub_block (Rijndael.inv_shift_rows b 4) 4.
Proof.
  induction l as [|r l IH]; intros b Hb; [reflexivity|].
  change (rev (r :: l)) with (rev l ++ [r]).
  rewrite fold_left_app, fold_left_one, fold_left_cons.
  rewrite full_round_inverse_round by now apply is_block_inverse_rounds.
  now apply IH.
Qed.

Lemma foward_block_inverse_block (b w : list Z) (Nr : Z) :
  is_block b -> foward_block (inverse_block b w 4 Nr) w 4 Nr = b.
Proof.
  intros Hb. unfold inverse_block, foward_block.
  rewrite foward_rounds_fold, inverse_rounds_fold by lia.
  replace (Nr - 1 + 1) with Nr by lia.
  cbn [add_round_key shift_rows sub_block inv_shift_rows inv_sub_block
       rijndael_ops].
  pose proof (is_block_add_round_key b w Nr 4 Hb) as Hk.
  rewrite add_round_key_twice by apply tabulate_length.
  rewrite inverse_rounds_cancel by exact Hk.
  rewrite sub_block_inv_sub_block by now apply is_block_inv_shift_rows.
  rewrite shift_rows_inv_shift_rows by apply Hk.
  apply add_round_key_twice, Hb.
Qed.


Lemma single_schedule_ext (m m' : mem) (key : ptr) (w : list Z) (Nk n : Z) :
  (forall a, within key (4 * Nk) a -> m a = m' a) ->
  key_expansion m key w Nk n = key_expansion m' key w Nk n.
Proof.
  intros H. cbn [key_expansion rijndael_ops].
  unfold Rijndael.key_expansion. apply expand_key_ext.
  intros i Hi. apply H. unfold within. lia.
Qed.

Lemma block_restored (m m' : mem) (buf : ptr) :
  (forall a, ~ within buf 16 a -> m' a = m a) ->
  holds m' buf (blk m buf) -> forall a, m' a = m a.
Proof.
  intros Hout Hin. apply (ModeFacts.restored m m' buf 1).
  - exact Hout.
  - intros j Hj. assert (j = 0) as -> by lia.
    now rewrite Z.mul_0_r, Z.add_0_r.
Qed.

Lemma single_round_trips (Nk Nr ks : Z) (m : mem) (buf key : ptr)
    (s s' : Z) :
  bytes m -> key <> NULL -> buf <> NULL ->
  1 <= s <= 16 -> 1 <= s' <= 16 ->
  apart key (4 * Nk) buf 16 ->
  (fst (uaes_enc Nk Nr ks m buf key s) = 0
   /\ fst (uaes_dec Nk Nr ks (snd (uaes_enc Nk Nr ks m buf key s)) buf key s')
      = 0
   /\ forall a,
        snd (uaes_dec Nk Nr ks (snd (uaes_enc Nk Nr ks m buf key s))
               buf key s') a = m a)
  /\ (fst (uaes_dec Nk Nr ks m buf key s) = 0
      /\ fst (uaes_enc Nk Nr ks (snd (uaes_dec Nk Nr ks m buf key s))
                buf key s') = 0
      /\ forall a,
           snd (uaes_enc Nk Nr ks (snd (uaes_dec Nk Nr ks m buf key s))
                  buf key s') a = m a).
Proof.
  intros Hm Hk Hb Hs Hs' Hap.
  assert (Hg : block_args_ok buf key s = true)
    by (apply block_args_ok_true; repeat split; auto; lia).
  assert (Hg' : block_args_ok buf key s' = true)
    by (apply block_args_ok_true; repeat split; auto; lia).
  unfold uaes_enc, uaes_dec. rewrite Hg. cbn [fst snd]. rewrite Hg'.
  cbn [fst snd].
  set (w := key_expansion m key (kschd_init ks) Nk (4 * (Nr + 1))).
  split.
  - set (m1 := uaes_foward_cipher m buf w Nk 4 Nr).
    assert (Hout1 : forall a, ~ within buf 16 a -> m1 a = m a)
      by (intros a Ha; now apply uaes_foward_cipher_out).
    assert (Hw : key_expansion m1 key (kschd_init ks) Nk (4 * (Nr + 1)) = w).
    { apply single_schedule_ext. unfold within, apart in *. intros a Ha.
      apply Hout1. unfold within. lia. }
    rewrite Hw. split; [reflexivity|]. split; [reflexivity|].
    apply (block_restored m _ buf).
    + intros a Ha. rewrite uaes_inverse_cipher_out by exact Ha.
      now apply Hout1.
    + intros i Hi. rewrite (uaes_inverse_cipher_holds m1 buf w Nk 4 Nr i Hi).
      unfold m1.
      rewrite (holds_eq _ buf _ (proj1 (is_block_foward_block _ _ _ _))
                 (uaes_foward_cipher_holds m buf w Nk 4 Nr)).
      now rewrite inverse_block_foward_block by now apply is_block_blk.
  - set (m1 := uaes_inverse_cipher m buf w Nk 4 Nr).
    assert (Hout1 : forall a, ~ within buf 16 a -> m1 a = m a)
      by (intros a Ha; now apply uaes_inverse_cipher_out).
    assert (Hw : key_expansion m1 key (kschd_init ks) Nk (4 * (Nr + 1)) = w).
    { apply single_schedule_ext. unfold within, apart in *. intros a Ha.
      apply Hout1. unfold within. lia. }
    rewrite Hw. split; [reflexivity|]. split; [reflexivity|].
    apply (block_restored m _ buf).
    + intros a Ha. rewrite uaes_foward_cipher_out by exact Ha.
      now apply Hout1.
    + intros i Hi. rewrite (uaes_foward_cipher_holds m1 buf w Nk 4 Nr i Hi).
      unfold m1.
      rewrite (holds_eq _ buf _ (proj1 (is_block_inverse_block _ _ _ _))
                 (uaes_inverse_cipher_holds m buf w Nk 4 Nr)).
      now rewrite foward_block_inverse_block by now apply is_block_blk.
Qed.

(** X14. The single-block entry points of one key length undo each
    other, in both orders and whatever the two sizes between 1 and 16:
    on a store of bytes, the key buffer sharing no byte with the block,
    decoding after encoding, and encoding after decoding, return 0
    twice and leave the whole store as it was. *)
Theorem single_block_round_trips (m : mem) (buf key : ptr) (s s' : Z) :
  bytes m -> key <> NULL -> buf <> NULL ->
  1 <= s <= 16 -> 1 <= s' <= 16 ->
  (apart key 16 buf 16 ->
   (fst (uaes128enc m buf key s) = 0
    /\ fst (uaes128dec (snd (uaes128enc m buf key s)) buf key s') = 0
    /\ forall a, snd (uaes128dec (snd (uaes128enc m buf key s)) buf key s') a
                 = m a)
   /\ (fst (uaes128dec m buf key s) = 0
       /\ fst (uaes128enc (snd (uaes128dec m buf key s)) buf key s') = 0
       /\ forall a,
            snd (uaes128enc (snd (uaes128dec m buf key s)) buf key s') a
            = m a))
  /\ (apart key 24 buf 16 ->
      (fst (uaes192enc m buf key s) = 0
       /\ fst (uaes192dec (snd (uaes192enc m buf key s)) buf key s') = 0
       /\ forall a,
            snd (uaes192dec (snd (uaes192enc m buf key s)) buf key s') a
            = m a)
      /\ (fst (uaes192dec m buf key s) = 0
          /\ fst (uaes192enc (snd (uaes192dec m buf key s)) buf key s') = 0
          /\ forall a,
               snd (uaes192enc (snd (uaes192dec m buf key s)) buf key s') a
               = m a))
  /\ (apart key 32 buf 16 ->
      (fst (uaes256enc m buf key s) = 0
       /\ fst (uaes256dec (snd (uaes256enc m buf key s)) buf key s') = 0
       /\ forall a,
            snd (uaes256dec (snd (uaes256enc m buf key s)) buf key s') a
            = m a)
      /\ (fst (uaes256dec m buf key s) = 0
          /\ fst (uaes256enc (snd (uaes256dec m buf key s)) buf key s') = 0
          /\ forall a,
               snd (uaes256enc (snd (uaes256dec m buf key s)) buf key s') a
               = m a)).
Proof.
  intros Hm Hk Hb Hs Hs'. split; [|split]; intros Hap.
  - now apply (single_round_trips 4 10 uAES128_KSCHD_SIZE).
  - now apply (single_round_trips 6 12 uAES192_KSCHD_SIZE).
  - now apply (single_round_trips 8 14 uAES256_KSCHD_SIZE).
Qed.

End PermutationFacts.

(** ** Encrypting what was decrypted *)

Module ReverseTrip.
Import RijndaelFacts BlockFacts CipherFacts PermutationFacts.

Lemma ecb_reverse_trip (m : mem) (buf : ptr) (size : Z) (key : ptr)
    (mode : Z) :
  bytes m -> args_ok buf size key mode = true ->
  apart key (4 * Nk_of mode) buf (16 * ceil16 size) ->
  fst (uaes_ecb_decryption m buf size key mode) = 0
  /\ fst (uaes_ecb_encryption (snd (uaes_ecb_decryption m buf size key mode))
            buf size key mode) = 0
  /\ forall a,
       snd (uaes_ecb_encryption (snd (uaes_ecb_decryption m buf size key mode))
              buf size key mode) a = m a.
Proof.
  intros Hm Hok Hkey.
  destruct (uaes_ecb_decryption_spec m buf size key mode Hok)
    as (He & Hout1 & Hin1).
  set (m1 := snd (uaes_ecb_decryption m buf size key mode)) in *.
  destruct (uaes_ecb_encryption_spec m1 buf size key mode Hok)
    as (Hd & Hout2 & Hin2).
  set (m2 := snd (uaes_ecb_encryption m1 buf size key mode)) in *.
  assert (Hw : schedule m1 key mode = schedule m key mode).
  { apply schedule_ext. unfold within, apart in *. intros a Ha.
    apply Hout1. unfold within. lia. }
  split; [exact He|]. split; [exact Hd|].
  apply (ModeFacts.restored m m2 buf (ceil16 size)).
  - intros a Ha. rewrite Hout2 by exact Ha. now apply Hout1.
  - intros j Hj i Hi. rewrite (Hin2 j Hj i Hi). rewrite Hw.
    rewrite (holds_eq m1 _ _ (proj1 (is_block_inverse_block _ _ _ _))
               (Hin1 j Hj)).
    rewrite foward_block_inverse_block by now apply is_block_blk.
    reflexivity.
Qed.

Lemma cbc_reverse_trip (m : mem) (buf : ptr) (size : Z) (key iv : ptr)
    (mode : Z) :
  bytes m -> cbc_args_ok buf size key iv mode = true ->
  apart key (4 * Nk_of mode) buf (16 * ceil16 size) ->
  apart iv 16 buf (16 * ceil16 size) ->
  fst (uaes_cbc_decryption m buf size key iv mode) = 0
  /\ fst (uaes_cbc_encryption
            (snd (uaes_cbc_decryption m buf size key iv mode))
            buf size key iv mode) = 0
  /\ forall a,
       snd (uaes_cbc_encryption
              (snd (uaes_cbc_decryption m buf size key iv mode))
              buf size key iv mode) a = m a.
Proof.
  intros Hm Hok Hkey Hiv.
  pose proof (proj1 (cbc_args_ok_true _ _ _ _ _) Hok) as Hargs.
  pose proof (ceil16_bounds size ltac:(lia)) as Hn.
  assert (Hiv0 : apart iv 16 buf 16) by (unfold apart in *; lia).
  destruct (uaes_cbc_decryption_spec m buf size key iv mode Hok)
    as (He & Hout1 & H01 & Hin1).
  specialize (H01 Hiv).
  set (m1 := snd (uaes_cbc_decryption m buf size key iv mode)) in *.
  destruct (uaes_cbc_encryption_spec m1 buf size key iv mode Hok)
    as (Hd & Hout2 & H02 & Hin2).
  specialize (H02 Hiv0).
  set (m2 := snd (uaes_cbc_encryption m1 buf size key iv mode)) in *.
  assert (Hw : schedule m1 key mode = schedule m key mode).
  { apply schedule_ext. unfold within, apart in *. intros a Ha.
    apply Hout1. unfold within. lia. }
  assert (Hiv1 : blk m1 iv = blk m iv).
  { apply blk_ext. unfold within, apart in *. intros a Ha.
    apply Hout1. unfold within. lia. }
  rewrite Hw, Hiv1 in *.
  set (w := schedule m key mode) in *.
  assert (HP0 : blk m1 buf
                = xor_block (inverse_block (blk m buf) w 4 (Nr_of mode))
                    (blk m iv))
    by (apply holds_eq; [apply xor_block_length|exact H01]).
  assert (HP : forall j, 1 <= j < ceil16 size ->
            blk m1 (buf + 16 * j)
            = xor_block (inverse_block (blk m (buf + 16 * j)) w 4 (Nr_of mode))
                (blk m (buf + 16 * (j - 1))))
    by (intros j Hj; apply holds_eq;
        [apply xor_block_length|exact (Hin1 j Hj)]).
  assert (Hall : forall k : nat, Z.of_nat k < ceil16 size ->
            blk m2 (buf + 16 * Z.of_nat k) = blk m (buf + 16 * Z.of_nat k)).
  { induction k as [|k IH]; intros Hk.
    - change (Z.of_nat 0) with 0. rewrite Z.mul_0_r, Z.add_0_r.
      rewrite (holds_eq m2 _ _ (proj1 (is_block_foward_block _ _ _ _)) H02).
      rewrite HP0.
      rewrite xor_block_cancel by apply is_block_inverse_block.
      now apply foward_block_inverse_block, is_block_blk.
    - specialize (IH ltac:(lia)).
      rewrite (holds_eq m2 _ _ (proj1 (is_block_foward_block _ _ _ _))
                 (Hin2 (Z.of_nat (S k)) ltac:(lia))).
      rewrite HP by lia.
      replace (Z.of_nat (S k) - 1) with (Z.of_nat k) by lia.
      rewrite IH.
      rewrite xor_block_cancel by apply is_block_inverse_block.
      now apply foward_block_inverse_block, is_block_blk. }
  split; [exact He|]. split; [exact Hd|].
  apply (ModeFacts.restored m m2 buf (ceil16 size)).
  - intros a Ha. rewrite Hout2 by exact Ha. now apply Hout1.
  - intros j Hj. replace j with (Z.of_nat (Z.to_nat j)) by lia.
    rewrite <- Hall by lia. apply holds_blk.
Qed.

(** X15. Encryption undoes decryption as well: for each variant, a key
    of the matching length, a data buffer whose length is a multiple of
    16 and at most 64 and (CBC) a 16-byte IV, the buffers sharing no
    byte with the data, encrypting what the decryption entry point
    left, with the same key (and IV), succeeds and restores the whole
    store, in ECB and in CBC. *)
Theorem encryption_restores (m : mem) (buf : ptr) (size : Z) (key iv : ptr)
    (mode : Z) :
  bytes m ->
  0 <= mode < 3 -> key <> NULL -> buf <> NULL ->
  0 < size <= 64 -> size mod 16 = 0 ->
  apart key (4 * Nk_of mode) buf size ->
  (let d := uaes_ecb_decryption m buf size key mode in
   let e := uaes_ecb_encryption (snd d) buf size key mode in
   fst d = 0 /\ fst e = 0 /\ forall a, snd e a = m a)
  /\ (iv <> NULL -> apart iv 16 buf size ->
      let d := uaes_cbc_decryption m buf size key iv mode in
      let e := uaes_cbc_encryption (snd d) buf size key iv mode in
      fst d = 0 /\ fst e = 0 /\ forall a, snd e a = m a).
Proof.
  intros Hm Hmode Hk Hb Hs H16 Hkey.
  rewrite <- (ModeFacts.ceil16_multiple size H16) in Hkey.
  split.
  - apply ecb_reverse_trip; try assumption.
    apply args_ok_true. repeat split; auto; lia.
  - intros Hiv Hap. rewrite <- (ModeFacts.ceil16_multiple size H16) in Hap.
    apply cbc_reverse_trip; try assumption.
    apply cbc_args_ok_true. repeat split; auto; lia.
Qed.

End ReverseTrip.

(** ** The older revision *)

Section LegacyFacts.
Context {ops : Ops}.

(** X16. [uaes_set_kbr] of the older revision always gives one of the
    three parameter sets of AES, with [Nb = 4] and [Nr = Nk + 6]; a tag
    that is none of the three variants gives the parameters of AES-256;
    on the three variants it gives the [Nk] and [Nr] that the
    multi-block entry points of uaes.c derive. *)
Theorem set_kbr_parameters (key_type : Z) :
  let '(Nk, Nb, Nr) := Legacy.uaes_set_kbr key_type in
  Nb = 4 /\ Nr = Nk + 6 /\ (Nk = 4 \/ Nk = 6 \/ Nk = 8)
  /\ (key_type <> uAES128 -> key_type <> uAES192 ->
      (Nk, Nb, Nr) = (8, 4, 14))
  /\ (0 <= key_type < 3 -> Nk = Nk_of key_type /\ Nr = Nr_of key_type).
Proof.
  unfold Legacy.uaes_set_kbr, Nk_of, Nr_of, uAES128, uAES192, uAES256.
  destruct (Z.eqb_spec key_type 0) as [->|H0]; [cbn; intuition lia|].
  destruct (Z.eqb_spec key_type 1) as [->|H1]; [cbn; intuition lia|].
  destruct (Z.eqb_spec key_type 2) as [->|H2]; [cbn; intuition lia|].
  repeat split; try lia; try tauto.
Qed.

(** X17. [uaes_pad_data_length] gives 16, 32, 48 or 64; for a length of
    1 to 64 that is the least multiple of 16 not below the length, the
    length 0 gives 16, and a length above 64 is cut to 64. *)
Theorem pad_data_length_rounds_up (data_length : Z) :
  0 <= data_length ->
  let n := Legacy.uaes_pad_data_length data_length in
  (n = 16 \/ n = 32 \/ n = 48 \/ n = 64)
  /\ (0 < data_length <= 64 ->
      n = 16 * ceil16 data_length /\ data_length <= n < data_length + 16)
  /\ (data_length = 0 -> n = 16)
  /\ (64 < data_length -> n = 64).
Proof.
  intros H0 n. subst n. unfold Legacy.uaes_pad_data_length, ceil16.
  pose proof (Z.div_mod (data_length + 15) 16 ltac:(lia)) as Hd.
  pose proof (Z.mod_pos_bound (data_length + 15) 16 ltac:(lia)) as Hm.
  destruct (Z.gtb_spec data_length 48); [|
  destruct (Z.gtb_spec data_length 32); [|
  destruct (Z.gtb_spec data_length 16)]];
    (split; [lia|]; split; [lia|]; split; lia).
Qed.

Lemma memcpy_into_whole (block : list Z) (m : mem) (p : ptr) :
  Legacy.memcpy_into block m p 16 = blk m p.
Proof.
  unfold Legacy.memcpy_into, blk, memcpy_from, Legacy.uAES_MAX_BLOCK_LEN,
    uAES_BLOCK_SIZE.
  apply map_ext_in. intros i Hi. apply in_seq in Hi.
  destruct (Nat.ltb_spec i 16); [reflexivity|lia].
Qed.

Lemma memcpy_to_ext (m m' : mem) (p : ptr) (n : nat) (b : list Z) :
  (forall a, m a = m' a) ->
  forall a, memcpy_to m p n b a = memcpy_to m' p n b a.
Proof.
  intros H a.
  destruct (Z.le_gt_cases p a) as [H1|H1];
    [destruct (Z.lt_ge_cases a (p + Z.of_nat n)) as [H2|H2]|].
  - replace a with (p + (a - p)) by lia.
    now rewrite !memcpy_to_in by lia.
  - rewrite !memcpy_to_out by (unfold within; lia). apply H.
  - rewrite !memcpy_to_out by (unfold within; lia). apply H.
Qed.

Lemma legacy_loop_is_ecb_loop
    (rounds : list Z -> list Z -> Z -> Z -> list Z)
    (cipher : mem -> ptr -> list Z -> Z -> Z -> Z -> mem)
    (buf : ptr) (w : list Z) (Nk Nr offset : Z) :
  (forall m p, cipher m p w Nk 4 Nr
               = memcpy_to m p 16 (rounds (blk m p) w 4 Nr)) ->
  forall fuel m m' block kdx,
    (forall a, m a = m' a) ->
    forall a,
      Legacy.cipher_loop rounds fuel m block buf w 4 Nr offset kdx a
      = ecb_loop cipher fuel m' buf w Nk 4 Nr offset kdx a.
Proof.
  intros Hc. induction fuel as [|fuel IH]; intros m m' block kdx Hm a.
  - apply Hm.
  - cbn [Legacy.cipher_loop ecb_loop].
    rewrite Z.gtb_ltb. destruct (kdx <? offset); [|apply Hm].
    apply IH. intros x. rewrite Hc.
    change (Z.to_nat (4 * 4)) with 16%nat. change uAES_BLOCK_SIZE with 16.
    rewrite memcpy_into_whole.
    rewrite (blk_ext m m' _ (fun y _ => Hm y)).
    now apply memcpy_to_ext.
Qed.

Lemma legacy_enc_is_ecb (m : mem) (buf key : ptr) (s mode : Z) :
  key <> NULL -> buf <> NULL -> 0 < s <= 64 -> s mod 16 = 0 ->
  0 <= mode < 3 ->
  fst (Legacy.uaes_enc (Nk_of mode) (Nr_of mode) m buf key s)
  = fst (uaes_ecb_encryption m buf s key mode)
  /\ forall a,
       snd (Legacy.uaes_enc (Nk_of mode) (Nr_of mode) m buf key s) a
       = snd (uaes_ecb_encryption m buf s key mode) a.
Proof.
  intros Hk Hb Hs H16 Hmode.
  assert (Hg : args_ok buf s key mode = true)
    by (apply args_ok_true; repeat split; auto; lia).
  assert (Hl : Legacy.block_args_ok buf key s = true).
  { unfold Legacy.block_args_ok, NULL in *.
    rewrite !andb_true_iff, !negb_true_iff, !Z.eqb_neq, Z.ltb_lt. lia. }
  assert (Hn : block_count s = Z.shiftr s 4).
  { rewrite block_count_ceil16 by lia. rewrite Z.shiftr_div_pow2 by lia.
    change (2 ^ 4) with 16. pose proof (ModeFacts.ceil16_multiple s H16).
    pose proof (Z.div_mod s 16 ltac:(lia)). lia. }
  unfold Legacy.uaes_enc, uaes_ecb_encryption, Legacy.uaes_foward_cipher.
  rewrite Hg, Hl, Hn. cbn [fst snd]. split; [reflexivity|]. intros a.
  apply (legacy_loop_is_ecb_loop foward_block uaes_foward_cipher);
    reflexivity.
Qed.

Lemma legacy_dec_is_ecb (m : mem) (buf key : ptr) (s mode : Z) :
  key <> NULL -> buf <> NULL -> 0 < s <= 64 -> s mod 16 = 0 ->
  0 <= mode < 3 ->
  fst (Legacy.uaes_dec (Nk_of mode) (Nr_of mode) m buf key s)
  = fst (uaes_ecb_decryption m buf s key mode)
  /\ forall a,
       snd (Legacy.uaes_dec (Nk_of mode) (Nr_of mode) m buf key s) a
       = snd (uaes_ecb_decryption m buf s key mode) a.
Proof.
  intros Hk Hb Hs H16 Hmode.
  assert (Hg : args_ok buf s key mode = true)
    by (apply args_ok_true; repeat split; auto; lia).
  assert (Hl : Legacy.block_args_ok buf key s = true).
  { unfold Legacy.block_args_ok, NULL in *.
    rewrite !andb_true_iff, !negb_true_iff, !Z.eqb_neq, Z.ltb_lt. lia. }
  assert (Hn : block_count s = Z.shiftr s 4).
  { rewrite block_count_ceil16 by lia. rewrite Z.shiftr_div_pow2 by lia.
    change (2 ^ 4) with 16. pose proof (ModeFacts.ceil16_multiple s H16).
    pose proof (Z.div_mod s 16 ltac:(lia)). lia. }
  unfold Legacy.uaes_dec, uaes_ecb_decryption, Legacy.uaes_inverse_cipher.
  rewrite Hg, Hl, Hn. cbn [fst snd]. split; [reflexivity|]. intros a.
  apply (legacy_loop_is_ecb_loop inverse_block uaes_inverse_cipher);
    reflexivity.
Qed.

(** X18. The single-block entry points of the older revision are the
    ECB entry points of uaes.c: with non-null pointers and a size that
    is a multiple of 16 and at most 64, [uaes128enc], [uaes192enc] and
    [uaes256enc] of the older revision return the code and leave the
    store that [uaes_ecb_encryption] does for the matching variant, and
    the three decoders those of [uaes_ecb_decryption]. *)
Theorem legacy_single_block_is_ecb (m : mem) (buf key : ptr) (s : Z) :
  key <> NULL -> buf <> NULL -> 0 < s <= 64 -> s mod 16 = 0 ->
  (fst (Legacy.uaes128enc m buf key s)
   = fst (uaes_ecb_encryption m buf s key uAES128)
   /\ forall a, snd (Legacy.uaes128enc m buf key s) a
                = snd (uaes_ecb_encryption m buf s key uAES128) a)
  /\ (fst (Legacy.uaes192enc m buf key s)
      = fst (uaes_ecb_encryption m buf s key uAES192)
      /\ forall a, snd (Legacy.uaes192enc m buf key s) a
                   = snd (uaes_ecb_encryption m buf s key uAES192) a)
  /\ (fst (Legacy.uaes256enc m buf key s)
      = fst (uaes_ecb_encryption m buf s key uAES256)
      /\ forall a, snd (Legacy.uaes256enc m buf key s) a
                   = snd (uaes_ecb_encryption m buf s key uAES256) a)
  /\ (fst (Legacy.uaes128dec m buf key s)
      = fst (uaes_ecb_decryption m buf s key uAES128)
      /\ forall a, snd (Legacy.uaes128dec m buf key s) a
                   = snd (uaes_ecb_decryption m buf s key uAES128) a)
  /\ (fst (Legacy.uaes192dec m buf key s)
      = fst (uaes_ecb_decryption m buf s key uAES192)
      /\ forall a, snd (Legacy.uaes192dec m buf key s) a
                   = snd (uaes_ecb_decryption m buf s key uAES192) a)
  /\ (fst (Legacy.uaes256dec m buf key s)
      = fst (uaes_ecb_decryption m buf s key uAES256)
      /\ forall a, snd (Legacy.uaes256dec m buf key s) a
                   = snd (uaes_ecb_decryption m buf s key uAES256) a).
Proof.
  intros Hk Hb Hs H16.
  split; [|split; [|split; [|split; [|split]]]].
  - apply (legacy_enc_is_ecb m buf key s 0); auto; lia.
  - apply (legacy_enc_is_ecb m buf key s 1); auto; lia.
  - apply (legacy_enc_is_ecb m buf key s 2); auto; lia.
  - apply (legacy_dec_is_ecb m buf key s 0); auto; lia.
  - apply (legacy_dec_is_ecb m buf key s 1); auto; lia.
  - apply (legacy_dec_is_ecb m buf key s 2); auto; lia.
Qed.

Lemma legacy_short (Nk Nr : Z) (m : mem) (buf key : ptr) (s : Z) :
  (key <> NULL -> buf <> NULL -> 0 < s < 16 ->
   Legacy.uaes_enc Nk Nr m buf key s = (0, m)
   /\ Legacy.uaes_dec Nk Nr m buf key s = (0, m))
  /\ (key = NULL \/ buf = NULL \/ s = 0 ->
      Legacy.uaes_enc Nk Nr m buf key s = (-1, m)
      /\ Legacy.uaes_dec Nk Nr m buf key s = (-1, m)).
Proof.
  split.
  - intros Hk Hb Hs.
    assert (Hl : Legacy.block_args_ok buf key s = true).
    { unfold Legacy.block_args_ok, NULL in *.
      rewrite !andb_true_iff, !negb_true_iff, !Z.eqb_neq, Z.ltb_lt. lia. }
    assert (Hn : Z.shiftr s 4 = 0).
    { rewrite Z.shiftr_div_pow2 by lia. apply Z.div_small. lia. }
    unfold Legacy.uaes_enc, Legacy.uaes_dec, Legacy.uaes_foward_cipher,
      Legacy.uaes_inverse_cipher.
    rewrite Hl, Hn. split; reflexivity.
  - intros H.
    assert (Hl : Legacy.block_args_ok buf key s = false).
    { apply not_true_is_false. intros Ht.
      unfold Legacy.block_args_ok, NULL in *.
      rewrite !andb_true_iff, !negb_true_iff, !Z.eqb_neq, Z.ltb_lt in Ht.
      lia. }
    unfold Legacy.uaes_enc, Legacy.uaes_dec. rewrite Hl.
    split; reflexivity.
Qed.

(** X19. The older revision takes a size below 16 for no block at all:
    with non-null pointers and a size of 1 to 15 its six single-block
    entry points return 0 and leave the store as it was; with a null
    pointer or the size 0 they return -1 and leave the store as it
    was. *)
Theorem legacy_short_size_does_nothing (m : mem) (buf key : ptr) (s : Z) :
  (key <> NULL -> buf <> NULL -> 0 < s < 16 ->
   Forall (fun f => f m buf key s = (0, m))
     [Legacy.uaes128enc; Legacy.uaes192enc; Legacy.uaes256enc;
      Legacy.uaes128dec; Legacy.uaes192dec; Legacy.uaes256dec])
  /\ (key = NULL \/ buf = NULL \/ s = 0 ->
      Forall (fun f => f m buf key s = (-1, m))
        [Legacy.uaes128enc; Legacy.uaes192enc; Legacy.uaes256enc;
         Legacy.uaes128dec; Legacy.uaes192dec; Legacy.uaes256dec]).
Proof.
  split.
  - intros Hk Hb Hs.
    repeat constructor;
      first [ apply (proj1 (proj1 (legacy_short _ _ m buf key s) Hk Hb Hs))
            | apply (proj2 (proj1 (legacy_short _ _ m buf key s) Hk Hb Hs)) ].
  - intros H.
    repeat constructor;
      first [ apply (proj1 (proj2 (legacy_short _ _ m buf key s) H))
            | apply (proj2 (proj2 (legacy_short _ _ m buf key s) H)) ].
Qed.

End LegacyFacts.

(** ** The further statements at concrete calls *)

Lemma uaes_xor_iv_twice_witness :
  apart 8224 16 4096 16
  /\ uaes_xor_iv (uaes_xor_iv fips_store 4096 8224) 4096 8224 4100
     = fips_store 4100.
Proof.
  assert (Ha : apart 8224 16 4096 16)
    by (unfold apart; vm_compute; right; discriminate).
  split; [exact Ha|].
  exact (uaes_xor_iv_twice fips_store 4096 8224 Ha 4100).
Defined.

Lemma ecb_block_by_block_witness :
  fst (uaes_ecb_encryption zero_store 4096 32 8192 0) = 0
  /\ holds (snd (uaes_ecb_encryption zero_store 4096 32 8192 0))
       (4096 + 16 * 1)
       (foward_block (blk zero_store (4096 + 16 * 1))
          (schedule zero_store 8192 0) 4 (Nr_of 0)).
Proof.
  assert (H0 : fst (uaes_ecb_encryption zero_store 4096 32 8192 0) = 0)
    by (vm_compute; reflexivity).
  split; [exact H0|].
  apply (proj1 (ecb_block_by_block zero_store 4096 32 8192 0) H0 1).
  change (ceil16 32) with 2. lia.
Defined.

Lemma ecb_repeats_show_witness :
  fst (uaes_ecb_encryption zero_store 4096 32 8192 0) = 0
  /\ blk (snd (uaes_ecb_encryption zero_store 4096 32 8192 0))
       (4096 + 16 * 0)
     = blk (snd (uaes_ecb_encryption zero_store 4096 32 8192 0))
         (4096 + 16 * 1).
Proof.
  assert (H0 : fst (uaes_ecb_encryption zero_store 4096 32 8192 0) = 0)
    by (vm_compute; reflexivity).
  split; [exact H0|].
  apply (ecb_repeats_show zero_store 4096 32 8192 0 0 1 H0).
  - change (ceil16 32) with 2. lia.
  - change (ceil16 32) with 2. lia.
  - vm_compute. reflexivity.
Defined.

Lemma changed_store_same (i : Z) :
  i = 1 ->
  forall a, ~ within (4096 + 16 * i) 16 a -> upd zero_store 4115 1 a = zero_store a.
Proof.
  intros -> a Ha. unfold upd.
  destruct (Z.eqb_spec a 4115) as [->|]; [|reflexivity].
  exfalso. apply Ha. unfold within. lia.
Qed.

Lemma ecb_change_stays_local_witness :
  fst (uaes_ecb_encryption zero_store 4096 64 8192 0) = 0
  /\ snd (uaes_ecb_encryption (upd zero_store 4115 1) 4096 64 8192 0) 4096
     = snd (uaes_ecb_encryption zero_store 4096 64 8192 0) 4096.
Proof.
  assert (H0 : fst (uaes_ecb_encryption zero_store 4096 64 8192 0) = 0)
    by (vm_compute; reflexivity).
  split; [exact H0|].
  apply (proj1 (ecb_change_stays_local (ops := rijndael_ops) zero_store (upd zero_store 4115 1)
                  4096 64 8192 0 1
                  ltac:(change (ceil16 64) with 4; lia)
                  ltac:(vm_compute; reflexivity)
                  (changed_store_same 1 eq_refl)) H0).
  unfold within. lia.
Defined.

Lemma cbc_decryption_change_reaches_two_witness :
  fst (uaes_cbc_decryption zero_store 4096 64 8192 8224 0) = 0
  /\ snd (uaes_cbc_decryption (upd zero_store 4115 1) 4096 64 8192 8224 0)
       (4096 + 48)
     = snd (uaes_cbc_decryption zero_store 4096 64 8192 8224 0) (4096 + 48).
Proof.
  assert (H0 : fst (uaes_cbc_decryption zero_store 4096 64 8192 8224 0) = 0)
    by (vm_compute; reflexivity).
  split; [exact H0|].
  apply (cbc_decryption_change_reaches_two (ops := rijndael_ops) zero_store (upd zero_store 4115 1)
           4096 64 8192 8224 0 1
           ltac:(change (ceil16 64) with 4; lia)
           ltac:(vm_compute; reflexivity)
           (changed_store_same 1 eq_refl)
           ltac:(unfold apart; vm_compute; right; discriminate)
           H0).
  unfold within. lia.
Defined.

Lemma writes_stay_in_footprint_witness :
  apart 8192 (key_length cbc_encryption (Call 4096 20 8192 8224 1)) 4096
    (footprint cbc_encryption (Call 4096 20 8192 8224 1))
  /\ snd (run cbc_encryption fips_store (Call 4096 20 8192 8224 1)) (8192 + 3)
     = fips_store (8192 + 3).
Proof.
  assert (Ha : apart 8192 (key_length cbc_encryption (Call 4096 20 8192 8224 1))
                 4096 (footprint cbc_encryption (Call 4096 20 8192 8224 1)))
    by (unfold apart; vm_compute; right; discriminate).
  split; [exact Ha|].
  apply (proj1 (proj2 (writes_stay_in_footprint cbc_encryption fips_store
                         (Call 4096 20 8192 8224 1))) Ha 3).
  vm_compute. split; [discriminate|reflexivity].
Defined.

Lemma size_counts_in_blocks_witness :
  run cbc_decryption fips_store (Call 4096 17 8192 8224 2)
  = run cbc_decryption fips_store (Call 4096 32 8192 8224 2).
Proof.
  apply (size_counts_in_blocks cbc_decryption fips_store 4096 17 32 8192 8224 2).
  - reflexivity.
  - lia.
  - lia.
  - reflexivity.
Defined.

Lemma cbc_zero_iv_one_block_witness :
  zero_block fips_store 8224
  /\ forall a, snd (uaes_cbc_encryption fips_store 4112 16 4096 8224 0) a
               = snd (uaes_ecb_encryption fips_store 4112 16 4096 0) a.
Proof.
  assert (Hz : zero_block fips_store 8224).
  { intros i Hi. unfold fips_store, mem_of.
    change (Z.of_nat (length (fips_key ++ fips_plaintext))) with 32.
    destruct (Z.ltb_spec (8224 + i) (4096 + 32)); [lia|].
    now rewrite andb_false_r. }
  split; [exact Hz|].
  destruct (cbc_zero_iv_one_block (ops := rijndael_ops) fips_store 4112 16
              4096 8224 0
              ltac:(unfold NULL; lia) ltac:(unfold NULL; lia)
              ltac:(unfold NULL; lia) ltac:(lia) ltac:(lia) Hz)
    as [[_ H] _].
  exact H.
Defined.

Lemma uaes_strnlen_first_zero_witness :
  0 <= uaes_strnlen fips_store 4096 64 <= 64
  /\ (uaes_strnlen fips_store 4096 64 < 64 ->
      fips_store (4096 + uaes_strnlen fips_store 4096 64) = 0).
Proof.
  destruct (uaes_strnlen_first_zero fips_store 4096 64 ltac:(lia))
    as (H1 & _ & H3).
  split; [exact H1|].
  apply (proj2 (H3 ltac:(unfold NULL; lia))).
Defined.

Lemma trace_mask_grows_witness :
  byte 1
  /\ Z.testbit
       (fold_left (fun t msk => snd (uaes_set_trace_msk_debug t msk)) [2; 4] 1)
       0 = true.
Proof.
  assert (Hb : byte 1) by (unfold byte; lia).
  split; [exact Hb|].
  apply (proj1 (proj2 (trace_mask_grows 1 [2; 4] Hb)) 0). reflexivity.
Defined.

Lemma header_fields_witness :
  uAES_HEADER_GET_SIZE
    (uAES_HEADER_PUT_CRYPTO_MODE (uAES_HEADER_PUT_SIZE 0 48) 2) = 48 mod 256
  /\ uAES_HEADER_GET_CRYPTO_MODE
       (uAES_HEADER_PUT_CRYPTO_MODE (uAES_HEADER_PUT_SIZE 0 48) 2) = 2 mod 256.
Proof.
  exact (proj2 (proj2 (proj2 (proj2 (header_fields 0 2 48)))) eq_refl eq_refl).
Defined.



Lemma single_block_round_trips_witness :
  apart 8192 24 4096 16
  /\ forall a,
       snd (uaes192dec (snd (uaes192enc zero_store 4096 8192 7)) 4096 8192 16)
         a = zero_store a.
Proof.
  assert (Ha : apart 8192 24 4096 16)
    by (unfold apart; vm_compute; right; discriminate).
  split; [exact Ha|].
  destruct (PermutationFacts.single_block_round_trips zero_store 4096 8192 7 16
              ModeFacts.zero_store_bytes
              ltac:(unfold NULL; lia) ltac:(unfold NULL; lia)
              ltac:(lia) ltac:(lia)) as (_ & H192 & _).
  exact (proj2 (proj2 (proj1 (H192 Ha)))).
Defined.

Lemma encryption_restores_witness :
  let d := uaes_cbc_decryption zero_store 4096 48 8192 8224 1 in
  let e := uaes_cbc_encryption (snd d) 4096 48 8192 8224 1 in
  fst d = 0 /\ fst e = 0 /\ forall a, snd e a = zero_store a.
Proof.
  apply (ReverseTrip.encryption_restores zero_store 4096 48 8192 8224 1).
  - exact ModeFacts.zero_store_bytes.
  - lia.
  - unfold NULL; lia.
  - unfold NULL; lia.
  - lia.
  - reflexivity.
  - unfold apart. vm_compute. right. discriminate.
  - unfold NULL; lia.
  - unfold apart. vm_compute. right. discriminate.
Defined.

Lemma set_kbr_parameters_witness :
  Legacy.uaes_set_kbr 7 = (8, 4, 14).
Proof.
  pose proof (set_kbr_parameters 7) as H.
  destruct (Legacy.uaes_set_kbr 7) as [[Nk Nb] Nr].
  destruct H as (_ & _ & _ & H & _).
  apply H; unfold uAES128, uAES192; lia.
Defined.

Lemma pad_data_length_rounds_up_witness :
  0 <= 33 /\ Legacy.uaes_pad_data_length 33 = 16 * ceil16 33.
Proof.
  split; [lia|].
  destruct (pad_data_length_rounds_up 33 ltac:(lia)) as (_ & H & _).
  exact (proj1 (H ltac:(lia))).
Defined.

Lemma legacy_single_block_is_ecb_witness :
  fst (Legacy.uaes192enc fips_store 4112 4096 16)
  = fst (uaes_ecb_encryption fips_store 4112 16 4096 uAES192)
  /\ forall a, snd (Legacy.uaes192enc fips_store 4112 4096 16) a
               = snd (uaes_ecb_encryption fips_store 4112 16 4096 uAES192) a.
Proof.
  destruct (legacy_single_block_is_ecb (ops := rijndael_ops) fips_store 4112
              4096 16
              ltac:(unfold NULL; lia) ltac:(unfold NULL; lia)
              ltac:(lia) eq_refl) as (_ & H & _).
  exact H.
Defined.

Lemma legacy_short_size_does_nothing_witness :
  Forall (fun f => f fips_store 4112 4096 15 = (0, fips_store))
    [Legacy.uaes128enc; Legacy.uaes192enc; Legacy.uaes256enc;
     Legacy.uaes128dec; Legacy.uaes192dec; Legacy.uaes256dec].
Proof.
  apply (proj1 (legacy_short_size_does_nothing fips_store 4112 4096 15));
    unfold NULL; lia.
Defined.
